(** * The HPIPM interface of ocs2_sqp: workspace, transcription, extraction

    A shallow embedding of [ocs2_sqp/hpipm_catkin/src/HpipmInterface.cpp]:
    the grow-only [MemoryBlock], the workspace preparation
    [HpipmInterface::Impl::initializeMemory], the transcription and solve
    of [Impl::solve], the trajectory getters and the zero-stage Riccati
    reconstruction [getRiccatiZeroStage].

    Conventions.
    - A [std::vector<int>] is a [seq nat]; a pointer returned by [malloc] is
      [Some a] for a block identifier [a], and [nullptr] is [None].
    - The HPIPM C library is not part of the sources; its functions are the
      fields of the interfaces [HpipmMemApi] and [HpipmSolverApi], about
      which nothing is assumed.
    - Eigen matrices are MathComp matrices over a field [F] (the exact
      arithmetic that [scalar_t] approximates); a dynamically sized
      [vector_t] is a dependent pair of a size and a column vector. *)

From Stdlib Require Import String.
From HB Require Import structures.
From mathcomp Require Import boot algebra.

Set Implicit Arguments.
Unset Strict Implicit.
Unset Printing Implicit Defensive.

Import GRing.Theory.

(* ===================================================================== *)
(** * Part I. Definitions                                                  *)
(* ===================================================================== *)

(** ** The C heap seen by [MemoryBlock] *)

(** A pointer to a heap block; [None] is [nullptr]. *)
Definition pointer := option nat.

(** The heap: the identifiers of the live blocks and the next fresh one. *)
Record heap := Heap { live : seq nat; fresh : nat }.

(** Whether [malloc] fails is decided by the C runtime: an oracle. *)
Class Allocator := { malloc_fails : heap -> nat -> bool }.

Definition malloc {al : Allocator} (size : nat) (h : heap) : pointer * heap :=
  if malloc_fails h size then (None, h)
  else (Some (fresh h), Heap (fresh h :: live h) (fresh h).+1).

(** [free(nullptr)] does nothing. *)
Definition free (p : pointer) (h : heap) : heap :=
  if p is Some a then Heap (rem a (live h)) (fresh h) else h.

(** A call either returns or throws [std::bad_alloc]. *)
Inductive outcome := Returned | BadAlloc.

(** ** [MemoryBlock] *)

Record MemoryBlock := Block { ptr_ : pointer; size_ : nat }.

(** [MemoryBlock()]: the members before the constructor's [reserve(0)]. *)
Definition MemoryBlock_empty : MemoryBlock := Block None 0.

(** [void reserve(size_t size)].  When [malloc] returns [nullptr] the call
    throws after [ptr_] was overwritten and before [size_] is. *)
Definition reserve {al : Allocator} (size : nat) (b : MemoryBlock) (h : heap)
  : outcome * MemoryBlock * heap :=
  if size_ b < size then
    let h1 := free (ptr_ b) h in
    let: (p, h2) := malloc size h1 in
    if p is Some _ then (Returned, Block p size, h2)
    else (BadAlloc, Block p (size_ b), h2)
  else (Returned, b, h).

(** [void* get()]. *)
Definition get (b : MemoryBlock) : pointer := ptr_ b.

(** A sequence of [reserve] calls on one block, each call made whatever the
    outcome of the one before (a caller may catch the exception). *)
Definition reserve_all {al : Allocator} (sizes : seq nat) (b : MemoryBlock) (h : heap)
  : MemoryBlock * heap :=
  foldl (fun bh s => let: (_, b', h') := reserve s bh.1 bh.2 in (b', h')) (b, h) sizes.

(** ** Problem sizes and solver settings *)

(** [OcpSize] (declared in the header [hpipm_catkin/OcpSize.h]); the fields
    are the ones [isSizeEqual] compares. *)
Record OcpSize := MkOcpSize {
  N : nat;
  nu : seq nat;
  nx : seq nat;
  nbu : seq nat;
  nbx : seq nat;
  ng : seq nat;
  nsbu : seq nat;
  nsbx : seq nat;
  nsg : seq nat
}.

(** [ocpSize.nx[0] = 0].  Writing to the first element of an empty vector is
    undefined in C++; the model leaves an empty vector empty. *)
Definition zero_first (v : seq nat) : seq nat :=
  if v is _ :: t then 0 :: t else [::].

Definition set_nx0_zero (s : OcpSize) : OcpSize :=
  MkOcpSize (N s) (nu s) (zero_first (nx s)) (nbu s) (nbx s) (ng s)
            (nsbu s) (nsbx s) (nsg s).

(** ** The part of the HPIPM C API used to set up the workspace *)

Class HpipmMemApi := {
  (** [enum hpipm_mode] *)
  hpipm_mode : eqType;
  (** [scalar_t] of the settings and its [operator==]; IEEE comparison is
      not reflexive (NaN), so reflexivity is not assumed. *)
  scalar_t : Type;
  scalar_eq : scalar_t -> scalar_t -> bool;
  (** the C structures *)
  d_ocp_qp_dim : Type;
  d_ocp_qp : Type;
  d_ocp_qp_sol : Type;
  d_ocp_qp_ipm_arg : Type;
  d_ocp_qp_ipm_ws : Type;
  (** sizes and constructors; a constructor overwrites the structure *)
  d_ocp_qp_dim_memsize : nat -> nat;
  d_ocp_qp_dim_create : nat -> pointer -> d_ocp_qp_dim;
  d_ocp_qp_dim_set_all :
    seq nat -> seq nat -> seq nat -> seq nat -> seq nat ->
    seq nat -> seq nat -> seq nat -> d_ocp_qp_dim -> d_ocp_qp_dim;
  d_ocp_qp_memsize : d_ocp_qp_dim -> nat;
  d_ocp_qp_create : d_ocp_qp_dim -> pointer -> d_ocp_qp;
  d_ocp_qp_sol_memsize : d_ocp_qp_dim -> nat;
  d_ocp_qp_sol_create : d_ocp_qp_dim -> pointer -> d_ocp_qp_sol;
  d_ocp_qp_ipm_arg_memsize : d_ocp_qp_dim -> nat;
  d_ocp_qp_ipm_arg_create : d_ocp_qp_dim -> pointer -> d_ocp_qp_ipm_arg;
  d_ocp_qp_ipm_arg_set_default : hpipm_mode -> d_ocp_qp_ipm_arg -> d_ocp_qp_ipm_arg;
  d_ocp_qp_ipm_arg_set_iter_max : int -> d_ocp_qp_ipm_arg -> d_ocp_qp_ipm_arg;
  d_ocp_qp_ipm_arg_set_alpha_min : scalar_t -> d_ocp_qp_ipm_arg -> d_ocp_qp_ipm_arg;
  d_ocp_qp_ipm_arg_set_mu0 : scalar_t -> d_ocp_qp_ipm_arg -> d_ocp_qp_ipm_arg;
  d_ocp_qp_ipm_arg_set_tol_stat : scalar_t -> d_ocp_qp_ipm_arg -> d_ocp_qp_ipm_arg;
  d_ocp_qp_ipm_arg_set_tol_eq : scalar_t -> d_ocp_qp_ipm_arg -> d_ocp_qp_ipm_arg;
  d_ocp_qp_ipm_arg_set_tol_ineq : scalar_t -> d_ocp_qp_ipm_arg -> d_ocp_qp_ipm_arg;
  d_ocp_qp_ipm_arg_set_tol_comp : scalar_t -> d_ocp_qp_ipm_arg -> d_ocp_qp_ipm_arg;
  d_ocp_qp_ipm_arg_set_reg_prim : scalar_t -> d_ocp_qp_ipm_arg -> d_ocp_qp_ipm_arg;
  d_ocp_qp_ipm_arg_set_warm_start : int -> d_ocp_qp_ipm_arg -> d_ocp_qp_ipm_arg;
  d_ocp_qp_ipm_arg_set_pred_corr : int -> d_ocp_qp_ipm_arg -> d_ocp_qp_ipm_arg;
  d_ocp_qp_ipm_arg_set_ric_alg : int -> d_ocp_qp_ipm_arg -> d_ocp_qp_ipm_arg;
  d_ocp_qp_ipm_ws_memsize : d_ocp_qp_dim -> d_ocp_qp_ipm_arg -> nat;
  d_ocp_qp_ipm_ws_create :
    d_ocp_qp_dim -> d_ocp_qp_ipm_arg -> pointer -> d_ocp_qp_ipm_ws
}.

(** [HpipmInterface::Settings] (declared in a header); the fields are the
    ones [isSettingsEqual] compares and [applySettings] passes on. *)
Record Settings {api : HpipmMemApi} := MkSettings {
  hpipmMode : hpipm_mode;
  iter_max : int;
  alpha_min : scalar_t;
  mu0 : scalar_t;
  tol_stat : scalar_t;
  tol_eq : scalar_t;
  tol_ineq : scalar_t;
  tol_comp : scalar_t;
  reg_prim : scalar_t;
  warm_start : int;
  pred_corr : int;
  ric_alg : int
}.

(** ** [HpipmInterface::Impl]: the private members *)

Record Impl {api : HpipmMemApi} := MkImpl {
  settings_ : Settings;
  ocpSize_ : OcpSize;
  dimMem_ : MemoryBlock;
  dim_ : d_ocp_qp_dim;
  qpMem_ : MemoryBlock;
  qp_ : d_ocp_qp;
  qpSolMem_ : MemoryBlock;
  qpSol_ : d_ocp_qp_sol;
  ipmArgMem_ : MemoryBlock;
  arg_ : d_ocp_qp_ipm_arg;
  ipmMem_ : MemoryBlock;
  workspace_ : d_ocp_qp_ipm_ws
}.

(** [bool isSizeEqual(const OcpSize&) const] *)
Definition isSizeEqual {api : HpipmMemApi} (this : Impl) (ocpSize : OcpSize) : bool :=
  let same := N (ocpSize_ this) == N ocpSize in
  let same := same && (nu (ocpSize_ this) == nu ocpSize) in
  let same := same && (nx (ocpSize_ this) == nx ocpSize) in
  let same := same && (nbu (ocpSize_ this) == nbu ocpSize) in
  let same := same && (nbx (ocpSize_ this) == nbx ocpSize) in
  let same := same && (ng (ocpSize_ this) == ng ocpSize) in
  let same := same && (nsbu (ocpSize_ this) == nsbu ocpSize) in
  let same := same && (nsbx (ocpSize_ this) == nsbx ocpSize) in
  let same := same && (nsg (ocpSize_ this) == nsg ocpSize) in
  same.

(** [bool isSettingsEqual(const Settings&) const] *)
Definition isSettingsEqual {api : HpipmMemApi} (this : Impl) (settings : Settings) : bool :=
  let same := hpipmMode (settings_ this) == hpipmMode settings in
  let same := same && (iter_max (settings_ this) == iter_max settings) in
  let same := same && scalar_eq (alpha_min (settings_ this)) (alpha_min settings) in
  let same := same && scalar_eq (mu0 (settings_ this)) (mu0 settings) in
  let same := same && scalar_eq (tol_stat (settings_ this)) (tol_stat settings) in
  let same := same && scalar_eq (tol_eq (settings_ this)) (tol_eq settings) in
  let same := same && scalar_eq (tol_ineq (settings_ this)) (tol_ineq settings) in
  let same := same && scalar_eq (tol_comp (settings_ this)) (tol_comp settings) in
  let same := same && scalar_eq (reg_prim (settings_ this)) (reg_prim settings) in
  let same := same && (warm_start (settings_ this) == warm_start settings) in
  let same := same && (pred_corr (settings_ this) == pred_corr settings) in
  let same := same && (ric_alg (settings_ this) == ric_alg settings) in
  same.

(** ** Member functions as commands over the object and the heap *)

(** A command runs on the members and the heap; it returns a value or
    throws, and in both cases leaves a state behind. *)
Inductive result (A : Type) := Ok (a : A) | Throw.
Arguments Throw {A}.

Definition cmd {api : HpipmMemApi} (A : Type) : Type :=
  Impl * heap -> result A * (Impl * heap).

Definition ret {api : HpipmMemApi} {A : Type} (a : A) : cmd A :=
  fun s => (Ok a, s).

Definition bind {api : HpipmMemApi} {A B : Type} (c : cmd A) (k : A -> cmd B) : cmd B :=
  fun s => let: (r, s') := c s in
           match r with Ok a => k a s' | Throw => (Throw, s') end.

Notation "x <- c ;; k" := (bind c (fun x => k))
  (at level 61, c at next level, right associativity).
Notation "c ;;; k" := (bind c (fun _ => k))
  (at level 61, right associativity).

(** Reading the members, and assigning to them. *)
Definition this_ {api : HpipmMemApi} : cmd Impl := fun s => (Ok s.1, s).

Definition assign {api : HpipmMemApi} (upd : Impl -> Impl) : cmd unit :=
  fun s => (Ok tt, (upd s.1, s.2)).

Definition set_settings_ {api : HpipmMemApi} (v : Settings) (t : Impl) : Impl :=
  MkImpl v (ocpSize_ t) (dimMem_ t) (dim_ t) (qpMem_ t) (qp_ t) (qpSolMem_ t)
         (qpSol_ t) (ipmArgMem_ t) (arg_ t) (ipmMem_ t) (workspace_ t).
Definition set_ocpSize_ {api : HpipmMemApi} (v : OcpSize) (t : Impl) : Impl :=
  MkImpl (settings_ t) v (dimMem_ t) (dim_ t) (qpMem_ t) (qp_ t) (qpSolMem_ t)
         (qpSol_ t) (ipmArgMem_ t) (arg_ t) (ipmMem_ t) (workspace_ t).
Definition set_dimMem_ {api : HpipmMemApi} (v : MemoryBlock) (t : Impl) : Impl :=
  MkImpl (settings_ t) (ocpSize_ t) v (dim_ t) (qpMem_ t) (qp_ t) (qpSolMem_ t)
         (qpSol_ t) (ipmArgMem_ t) (arg_ t) (ipmMem_ t) (workspace_ t).
Definition set_dim_ {api : HpipmMemApi} (v : d_ocp_qp_dim) (t : Impl) : Impl :=
  MkImpl (settings_ t) (ocpSize_ t) (dimMem_ t) v (qpMem_ t) (qp_ t) (qpSolMem_ t)
         (qpSol_ t) (ipmArgMem_ t) (arg_ t) (ipmMem_ t) (workspace_ t).
Definition set_qpMem_ {api : HpipmMemApi} (v : MemoryBlock) (t : Impl) : Impl :=
  MkImpl (settings_ t) (ocpSize_ t) (dimMem_ t) (dim_ t) v (qp_ t) (qpSolMem_ t)
         (qpSol_ t) (ipmArgMem_ t) (arg_ t) (ipmMem_ t) (workspace_ t).
Definition set_qp_ {api : HpipmMemApi} (v : d_ocp_qp) (t : Impl) : Impl :=
  MkImpl (settings_ t) (ocpSize_ t) (dimMem_ t) (dim_ t) (qpMem_ t) v (qpSolMem_ t)
         (qpSol_ t) (ipmArgMem_ t) (arg_ t) (ipmMem_ t) (workspace_ t).
Definition set_qpSolMem_ {api : HpipmMemApi} (v : MemoryBlock) (t : Impl) : Impl :=
  MkImpl (settings_ t) (ocpSize_ t) (dimMem_ t) (dim_ t) (qpMem_ t) (qp_ t) v
         (qpSol_ t) (ipmArgMem_ t) (arg_ t) (ipmMem_ t) (workspace_ t).
Definition set_qpSol_ {api : HpipmMemApi} (v : d_ocp_qp_sol) (t : Impl) : Impl :=
  MkImpl (settings_ t) (ocpSize_ t) (dimMem_ t) (dim_ t) (qpMem_ t) (qp_ t)
         (qpSolMem_ t) v (ipmArgMem_ t) (arg_ t) (ipmMem_ t) (workspace_ t).
Definition set_ipmArgMem_ {api : HpipmMemApi} (v : MemoryBlock) (t : Impl) : Impl :=
  MkImpl (settings_ t) (ocpSize_ t) (dimMem_ t) (dim_ t) (qpMem_ t) (qp_ t)
         (qpSolMem_ t) (qpSol_ t) v (arg_ t) (ipmMem_ t) (workspace_ t).
Definition set_arg_ {api : HpipmMemApi} (v : d_ocp_qp_ipm_arg) (t : Impl) : Impl :=
  MkImpl (settings_ t) (ocpSize_ t) (dimMem_ t) (dim_ t) (qpMem_ t) (qp_ t)
         (qpSolMem_ t) (qpSol_ t) (ipmArgMem_ t) v (ipmMem_ t) (workspace_ t).
Definition set_ipmMem_ {api : HpipmMemApi} (v : MemoryBlock) (t : Impl) : Impl :=
  MkImpl (settings_ t) (ocpSize_ t) (dimMem_ t) (dim_ t) (qpMem_ t) (qp_ t)
         (qpSolMem_ t) (qpSol_ t) (ipmArgMem_ t) (arg_ t) v (workspace_ t).
Definition set_workspace_ {api : HpipmMemApi} (v : d_ocp_qp_ipm_ws) (t : Impl) : Impl :=
  MkImpl (settings_ t) (ocpSize_ t) (dimMem_ t) (dim_ t) (qpMem_ t) (qp_ t)
         (qpSolMem_ t) (qpSol_ t) (ipmArgMem_ t) (arg_ t) (ipmMem_ t) v.

(** [member.reserve(size)] on one of the five [MemoryBlock] members. *)
Definition reserve_member {api : HpipmMemApi} {al : Allocator}
    (member : Impl -> MemoryBlock) (set_member : MemoryBlock -> Impl -> Impl)
    (size : nat) : cmd unit :=
  fun s => let: (o, b, h) := reserve size (member s.1) s.2 in
           (if o is Returned then Ok tt else Throw, (set_member b s.1, h)).

(** [void applySettings(Settings& settings)]: the defaults of the mode
    first, then every individual setting. *)
Definition applySettings {api : HpipmMemApi} (settings : Settings) : cmd unit :=
  assign (fun t => set_arg_ (d_ocp_qp_ipm_arg_set_default (hpipmMode settings) (arg_ t)) t) ;;;
  assign (fun t => set_arg_ (d_ocp_qp_ipm_arg_set_iter_max (iter_max settings) (arg_ t)) t) ;;;
  assign (fun t => set_arg_ (d_ocp_qp_ipm_arg_set_alpha_min (alpha_min settings) (arg_ t)) t) ;;;
  assign (fun t => set_arg_ (d_ocp_qp_ipm_arg_set_mu0 (mu0 settings) (arg_ t)) t) ;;;
  assign (fun t => set_arg_ (d_ocp_qp_ipm_arg_set_tol_stat (tol_stat settings) (arg_ t)) t) ;;;
  assign (fun t => set_arg_ (d_ocp_qp_ipm_arg_set_tol_eq (tol_eq settings) (arg_ t)) t) ;;;
  assign (fun t => set_arg_ (d_ocp_qp_ipm_arg_set_tol_ineq (tol_ineq settings) (arg_ t)) t) ;;;
  assign (fun t => set_arg_ (d_ocp_qp_ipm_arg_set_tol_comp (tol_comp settings) (arg_ t)) t) ;;;
  assign (fun t => set_arg_ (d_ocp_qp_ipm_arg_set_reg_prim (reg_prim settings) (arg_ t)) t) ;;;
  assign (fun t => set_arg_ (d_ocp_qp_ipm_arg_set_warm_start (warm_start settings) (arg_ t)) t) ;;;
  assign (fun t => set_arg_ (d_ocp_qp_ipm_arg_set_pred_corr (pred_corr settings) (arg_ t)) t) ;;;
  assign (fun t => set_arg_ (d_ocp_qp_ipm_arg_set_ric_alg (ric_alg settings) (arg_ t)) t).

(** [void initializeMemory(OcpSize ocpSize, const Settings& settings)] *)
Definition initializeMemory {api : HpipmMemApi} {al : Allocator}
    (ocpSize : OcpSize) (settings : Settings) : cmd unit :=
  let ocpSize := set_nx0_zero ocpSize in
  this <- this_ ;;
  if isSizeEqual this ocpSize && isSettingsEqual this settings then ret tt
  else
    assign (set_settings_ settings) ;;;
    assign (set_ocpSize_ ocpSize) ;;;

    this <- this_ ;;
    let dim_size := d_ocp_qp_dim_memsize (N (ocpSize_ this)) in
    reserve_member dimMem_ set_dimMem_ dim_size ;;;
    assign (fun t => set_dim_ (d_ocp_qp_dim_create (N (ocpSize_ t)) (get (dimMem_ t))) t) ;;;
    assign (fun t => set_dim_
      (d_ocp_qp_dim_set_all (nx (ocpSize_ t)) (nu (ocpSize_ t)) (nbx (ocpSize_ t))
         (nbu (ocpSize_ t)) (ng (ocpSize_ t)) (nsbx (ocpSize_ t)) (nsbu (ocpSize_ t))
         (nsg (ocpSize_ t)) (dim_ t)) t) ;;;

    this <- this_ ;;
    let qp_size := d_ocp_qp_memsize (dim_ this) in
    reserve_member qpMem_ set_qpMem_ qp_size ;;;
    assign (fun t => set_qp_ (d_ocp_qp_create (dim_ t) (get (qpMem_ t))) t) ;;;

    this <- this_ ;;
    let qp_sol_size := d_ocp_qp_sol_memsize (dim_ this) in
    reserve_member qpSolMem_ set_qpSolMem_ qp_sol_size ;;;
    assign (fun t => set_qpSol_ (d_ocp_qp_sol_create (dim_ t) (get (qpSolMem_ t))) t) ;;;

    this <- this_ ;;
    let ipm_arg_size := d_ocp_qp_ipm_arg_memsize (dim_ this) in
    reserve_member ipmArgMem_ set_ipmArgMem_ ipm_arg_size ;;;
    assign (fun t => set_arg_ (d_ocp_qp_ipm_arg_create (dim_ t) (get (ipmArgMem_ t))) t) ;;;

    this <- this_ ;;
    applySettings (settings_ this) ;;;

    this <- this_ ;;
    let ipm_size := d_ocp_qp_ipm_ws_memsize (dim_ this) (arg_ this) in
    reserve_member ipmMem_ set_ipmMem_ ipm_size ;;;
    assign (fun t => set_workspace_
      (d_ocp_qp_ipm_ws_create (dim_ t) (arg_ t) (get (ipmMem_ t))) t).

(** [void initializeMemory(OcpSize ocpSize)]: with the stored settings. *)
Definition initializeMemory_size {api : HpipmMemApi} {al : Allocator}
    (ocpSize : OcpSize) : cmd unit :=
  this <- this_ ;; initializeMemory ocpSize (settings_ this).

(** Two requested sizes that differ at most in [nx[0]]: both have a stage-0
    state dimension, and everything else is equal. *)
Definition differ_only_in_nx0 (a b : OcpSize) : Prop :=
  [/\ N a = N b, nu a = nu b, nbu a = nbu b & nbx a = nbx b] /\
  [/\ ng a = ng b, nsbu a = nsbu b, nsbx a = nsbx b & nsg a = nsg b] /\
  [/\ nx a <> [::], nx b <> [::] & behead (nx a) = behead (nx b)].

(** ** Stage approximations (the Eigen data read by [solve]) *)

Local Open Scope ring_scope.

(** The shapes of the stage data: state, input and constraint dimension of
    every stage.  Eigen checks no shape at compile time; the model gives
    every matrix the shape that the products of [solve] need. *)
Record StageDims := MkStageDims {
  state_dim : nat -> nat;
  input_dim : nat -> nat;
  constr_dim : nat -> nat
}.

(** [VectorFunctionLinearApproximation]: [f + dfdx * dx + dfdu * du]. *)
Module VectorFunctionLinearApproximation.
Record t (F : fieldType) (m n p : nat) := Mk {
  f : 'cV[F]_m;
  dfdx : 'M[F]_(m, n);
  dfdu : 'M[F]_(m, p)
}.
End VectorFunctionLinearApproximation.

(** [ScalarFunctionQuadraticApproximation]: value, gradients, Hessians. *)
Module ScalarFunctionQuadraticApproximation.
Record t (F : fieldType) (n p : nat) := Mk {
  dfdxx : 'M[F]_(n, n);
  dfdux : 'M[F]_(p, n);
  dfduu : 'M[F]_(p, p);
  dfdx : 'cV[F]_n;
  dfdu : 'cV[F]_p;
  f : F
}.
End ScalarFunctionQuadraticApproximation.

Module Lin := VectorFunctionLinearApproximation.
Module Quad := ScalarFunctionQuadraticApproximation.

(** A [std::vector] of stage approximations, read at stage [k]. *)
Definition dynamics_t (F : fieldType) (d : StageDims) : Type :=
  forall k : nat, Lin.t F (state_dim d k.+1) (state_dim d k) (input_dim d k).
Definition cost_t (F : fieldType) (d : StageDims) : Type :=
  forall k : nat, Quad.t F (state_dim d k) (input_dim d k).
Definition constraints_t (F : fieldType) (d : StageDims) : Type :=
  forall k : nat, Lin.t F (constr_dim d k) (state_dim d k) (input_dim d k).

(** A dynamically sized [vector_t]. *)
Definition vector_t (F : fieldType) : Type := {n : nat & 'cV[F]_n}.
Definition to_vector_t (F : fieldType) (n : nat) (v : 'cV[F]_n) : vector_t F :=
  existT _ n v.
Definition vsize (F : fieldType) (v : vector_t F) : nat := projT1 v.
(** [vector_t()]: the empty vector. *)
Definition vempty (F : fieldType) : vector_t F := to_vector_t (0 : 'cV[F]_0).

(** ** Arrays of stage pointers *)

(** A [std::vector<scalar_t*>] whose entry [k] points to data of the shape
    [T k]: the entry is [Some] of the data pointed to, or [None] for a null
    pointer.  The length is kept by the code that declares the vector. *)
Definition array (T : nat -> Type) : Type := forall k : nat, option (T k).

(** [std::vector<scalar_t*> a(n)]: null pointers. *)
Definition null_array (T : nat -> Type) : array T := fun _ => None.

(** [x.data()] *)
Definition data (A : Type) (x : A) : option A := Some x.

(** [a[i] = p] in a vector of length [n]; writing past the end is undefined
    in C++, the model leaves the vector as it is. *)
Definition store (T : nat -> Type) (n : nat) (a : array T) (i : nat)
    (p : option (T i)) : array T :=
  fun k =>
    if (i < n)%N then
      match @eqP _ i k with
      | ReflectT e => ecast j (option (T j)) e p
      | ReflectF _ => a k
      end
    else a k.
Arguments store {T} n a i p _.

(** [boundData.emplace_back(v)] when [boundData] holds [i] vectors. *)
Definition emplace_back (T : nat -> Type) (a : array T) (i : nat) (v : T i) : array T :=
  fun k =>
    match @eqP _ i k with
    | ReflectT e => ecast j (option (T j)) e (Some v)
    | ReflectF _ => a k
    end.
Arguments emplace_back {T} a i v _.

(** [if (k == 0) a[k] op= ...]: the in-place update of the first entry. *)
Definition at_initial_stage (T : nat -> Type) (k : nat) (a : array T)
    (g : T 0%N -> T 0%N) : array T :=
  match k with
  | 0%N => fun j => match j with 0%N => omap g (a 0%N) | j'.+1 => a j'.+1 end
  | _ => a
  end.
Arguments at_initial_stage {T} k a g _.

Section Transcription.
Context {F : fieldType} {d : StageDims}.

(** The pointer vectors that [solve] declares, by group. *)
Record DynamicsPtrs := MkDynamicsPtrs {
  AA : array (fun k => 'M[F]_(state_dim d k.+1, state_dim d k));
  BB : array (fun k => 'M[F]_(state_dim d k.+1, input_dim d k));
  bb : array (fun k => 'cV[F]_(state_dim d k.+1))
}.

Record CostPtrs := MkCostPtrs {
  QQ : array (fun k => 'M[F]_(state_dim d k, state_dim d k));
  RR : array (fun k => 'M[F]_(input_dim d k, input_dim d k));
  SS : array (fun k => 'M[F]_(input_dim d k, state_dim d k));
  qq : array (fun k => 'cV[F]_(state_dim d k));
  rr : array (fun k => 'cV[F]_(input_dim d k))
}.

Record ConstraintPtrs := MkConstraintPtrs {
  boundData : array (fun k => 'cV[F]_(constr_dim d k));
  CC : array (fun k => 'M[F]_(constr_dim d k, state_dim d k));
  DD : array (fun k => 'M[F]_(constr_dim d k, input_dim d k));
  llg : array (fun k => 'cV[F]_(constr_dim d k));
  uug : array (fun k => 'cV[F]_(constr_dim d k))
}.

(** What [d_ocp_qp_set_all] is called with (the other arguments are null). *)
Record ocp_qp_data := MkQpData {
  qp_dynamics : DynamicsPtrs;
  qp_cost : CostPtrs;
  qp_constraints : ConstraintPtrs
}.

(** Lines 184-215: the dynamics, the initial state absorbed at [k = 0]. *)
Definition dynamics_stage (n : nat) (dynamics : dynamics_t F d)
    (p : DynamicsPtrs) (k : nat) : DynamicsPtrs :=
  MkDynamicsPtrs
    (store n (AA p) k (data (Lin.dfdx (dynamics k))))
    (store n (BB p) k (data (Lin.dfdu (dynamics k))))
    (store n (bb p) k (data (Lin.f (dynamics k)))).

Definition transcribe_dynamics (n : nat) (x0 : 'cV[F]_(state_dim d 0))
    (dynamics : dynamics_t F d) : DynamicsPtrs :=
  let AA := null_array _ in
  let BB := null_array _ in
  let bb := null_array _ in
  (* k = 0 *)
  let b0 := Lin.f (dynamics 0%N) in
  let b0 := b0 + Lin.dfdx (dynamics 0%N) *m x0 in
  let AA := store n AA 0 (data (Lin.dfdx (dynamics 0%N))) in
  let BB := store n BB 0 (data (Lin.dfdu (dynamics 0%N))) in
  let bb := store n bb 0 (data b0) in
  (* k = 1 -> N-1 *)
  foldl (dynamics_stage n dynamics) (MkDynamicsPtrs AA BB bb) (iota 1 (n - 1)).

(** Lines 189-233: the costs, [r0] adapted to the eliminated state. *)
Definition cost_stage (n : nat) (cost : cost_t F d) (p : CostPtrs) (k : nat)
  : CostPtrs :=
  MkCostPtrs
    (store n.+1 (QQ p) k (data (Quad.dfdxx (cost k))))
    (store n.+1 (RR p) k (data (Quad.dfduu (cost k))))
    (store n.+1 (SS p) k (data (Quad.dfdux (cost k))))
    (store n.+1 (qq p) k (data (Quad.dfdx (cost k))))
    (store n.+1 (rr p) k (data (Quad.dfdu (cost k)))).

Definition transcribe_cost (n : nat) (x0 : 'cV[F]_(state_dim d 0))
    (cost : cost_t F d) : CostPtrs :=
  let QQ := null_array _ in
  let RR := null_array _ in
  let SS := null_array _ in
  let qq := null_array _ in
  let rr := null_array _ in
  (* k = 0 *)
  let r0 := Quad.dfdu (cost 0%N) in
  let r0 := r0 + Quad.dfdux (cost 0%N) *m x0 in
  let QQ := store n.+1 QQ 0 (data (Quad.dfdxx (cost 0%N))) in
  let RR := store n.+1 RR 0 (data (Quad.dfduu (cost 0%N))) in
  let SS := store n.+1 SS 0 (data (Quad.dfdux (cost 0%N))) in
  let qq := store n.+1 qq 0 (data (Quad.dfdx (cost 0%N))) in
  let rr := store n.+1 rr 0 (data r0) in
  (* k = 1 -> N *)
  foldl (cost_stage n cost) (MkCostPtrs QQ RR SS qq rr) (iota 1 n).

(** Lines 196-251: the constraints, if any; both bounds point to
    [boundData[k]]. *)
Definition constraint_stage (n : nat) (x0 : 'cV[F]_(state_dim d 0))
    (constr : constraints_t F d) (p : ConstraintPtrs) (k : nat) : ConstraintPtrs :=
  let CC := store n.+1 (CC p) k (data (Lin.dfdx (constr k))) in
  let DD := store n.+1 (DD p) k (data (Lin.dfdu (constr k))) in
  let boundData := emplace_back (boundData p) k (- Lin.f (constr k)) in
  let boundData :=
    at_initial_stage k boundData (fun v => v - Lin.dfdx (constr 0%N) *m x0) in
  let llg := store n.+1 (llg p) k (boundData k) in
  let uug := store n.+1 (uug p) k (boundData k) in
  MkConstraintPtrs boundData CC DD llg uug.

Definition transcribe_constraints (n : nat) (x0 : 'cV[F]_(state_dim d 0))
    (constraints : option (constraints_t F d)) : ConstraintPtrs :=
  let boundData := null_array _ in
  let CC := null_array _ in
  let DD := null_array _ in
  let llg := null_array _ in
  let uug := null_array _ in
  let p := MkConstraintPtrs boundData CC DD llg uug in
  if constraints is Some constr then
    foldl (constraint_stage n x0 constr) p (iota 0 n.+1)
  else p.

(** The transcription of [solve], up to the call of [d_ocp_qp_set_all]. *)
Definition transcribe (n : nat) (x0 : 'cV[F]_(state_dim d 0))
    (dynamics : dynamics_t F d) (cost : cost_t F d)
    (constraints : option (constraints_t F d)) : ocp_qp_data :=
  MkQpData (transcribe_dynamics n x0 dynamics) (transcribe_cost n x0 cost)
           (transcribe_constraints n x0 constraints).

End Transcription.

(** ** The solver status *)

(** Modelled from the spec: the enumeration [hpipm_status] is declared by the
    HPIPM headers, which are not among the sources; its five values, in
    order, are the statuses that the spec lists and that [printStatus]
    tells apart by the flags 0 to 4. *)
Inductive hpipm_status :=
  | SUCCESS      (* 0: solved *)
  | MAX_ITER     (* 1: maximum number of iterations reached *)
  | MIN_STEP     (* 2: minimum step length reached *)
  | NAN_SOL      (* 3: NaN in computations *)
  | INCONS_EQ.   (* 4: inconsistent equality constraints *)

Definition hpipm_status_code (s : hpipm_status) : int :=
  match s with
  | SUCCESS => 0 | MAX_ITER => 1 | MIN_STEP => 2 | NAN_SOL => 3 | INCONS_EQ => 4
  end.

(** The conversion [hpipm_status(hpipmStatus)]; an integer that is the value
    of no enumerator gives [None]. *)
Definition hpipm_status_of_int (flag : int) : option hpipm_status :=
  if (flag == 0) then Some SUCCESS
  else if (flag == 1) then Some MAX_ITER
  else if (flag == 2) then Some MIN_STEP
  else if (flag == 3) then Some NAN_SOL
  else if (flag == 4) then Some INCONS_EQ
  else None.

(** The text that [printStatus] prints for a flag (lines 376-388). *)
Definition status_text (hpipmStatus : int) : string :=
  if (hpipmStatus == 0) then "QP solved!"%string
  else if (hpipmStatus == 1) then "Solver failed! Maximum number of iterations reached"%string
  else if (hpipmStatus == 2) then "Solver failed! Minimum step length reached"%string
  else if (hpipmStatus == 3) then "Solver failed! NaN in computations"%string
  else if (hpipmStatus == 4) then "Solver failed! Unconsistent equality constraints"%string
  else "Solver failed! Unknown return flag"%string.

(** ** The part of the HPIPM C API used to solve and to read the solution *)

Class HpipmSolverApi (F : fieldType) (d : StageDims) (api : HpipmMemApi) := {
  (** copies the data behind the stage pointers into the QP structure *)
  d_ocp_qp_set_all : @ocp_qp_data F d -> d_ocp_qp -> d_ocp_qp;
  (** the interior-point solver: writes the solution and the workspace *)
  d_ocp_qp_ipm_solve :
    d_ocp_qp -> d_ocp_qp_sol -> d_ocp_qp_ipm_arg -> d_ocp_qp_ipm_ws ->
    d_ocp_qp_sol * d_ocp_qp_ipm_ws;
  d_ocp_qp_ipm_get_status : d_ocp_qp_ipm_ws -> int;
  (** the getters fill a buffer of the size of the stage *)
  d_ocp_qp_sol_get_x : nat -> d_ocp_qp_sol -> forall n, 'cV[F]_n;
  d_ocp_qp_sol_get_u : nat -> d_ocp_qp_sol -> forall n, 'cV[F]_n;
  d_ocp_qp_ipm_get_ric_P :
    d_ocp_qp -> d_ocp_qp_ipm_arg -> d_ocp_qp_ipm_ws -> nat -> forall n, 'M[F]_n;
  d_ocp_qp_ipm_get_ric_p :
    d_ocp_qp -> d_ocp_qp_ipm_arg -> d_ocp_qp_ipm_ws -> nat -> forall n, 'cV[F]_n;
  d_ocp_qp_ipm_get_ric_Lr :
    d_ocp_qp -> d_ocp_qp_ipm_arg -> d_ocp_qp_ipm_ws -> nat -> forall n, 'M[F]_n;
  d_ocp_qp_ipm_get_ric_k :
    d_ocp_qp -> d_ocp_qp_ipm_arg -> d_ocp_qp_ipm_ws -> nat -> forall n, 'cV[F]_n;
  (** the formatted flag, and the iteration count, residuals and statistics
      table that [printStatus] prints after the status *)
  print_flag : int -> string;
  print_statistics : d_ocp_qp_ipm_ws -> seq string
}.

(** [std::vector<T>::resize(n)]: keeps the first [n] entries and appends
    default-constructed ones. *)
Definition resize (A : Type) (dflt : A) (n : nat) (s : seq A) : seq A :=
  take n s ++ nseq (n - size s) dflt.

Section Solve.
Context {F : fieldType} {d : StageDims} {api : HpipmMemApi}
        {solver : HpipmSolverApi F d api}.

(** [void printStatus()], as the lines appended to [stderr]. *)
Definition printStatus (this : Impl) (stderr : seq string) : seq string :=
  let hpipmStatus := (-1)%Z in
  let hpipmStatus := d_ocp_qp_ipm_get_status (workspace_ this) in
  stderr ++ [:: "=== HPIPM ==="%string; print_flag hpipmStatus; status_text hpipmStatus]
         ++ print_statistics (workspace_ this).

(** [void getStateSolution(const vector_t& x0, std::vector<vector_t>&)] *)
Definition getStateSolution (this : Impl) (n0 : nat) (x0 : 'cV[F]_n0)
    (stateTrajectory : seq (vector_t F)) : seq (vector_t F) :=
  let stateTrajectory := resize (vempty F) (N (ocpSize_ this)).+1 stateTrajectory in
  let stateTrajectory := set_nth (vempty F) stateTrajectory 0 (to_vector_t x0) in
  foldl (fun traj k =>
           let n := nth 0%N (nx (ocpSize_ this)) k in
           set_nth (vempty F) traj k
                   (to_vector_t (d_ocp_qp_sol_get_x k (qpSol_ this) n)))
        stateTrajectory (iota 1 (N (ocpSize_ this))).

(** [void getInputSolution(std::vector<vector_t>&)] *)
Definition getInputSolution (this : Impl) (inputTrajectory : seq (vector_t F))
  : seq (vector_t F) :=
  let inputTrajectory := resize (vempty F) (N (ocpSize_ this)) inputTrajectory in
  foldl (fun traj k =>
           let n := nth 0%N (nu (ocpSize_ this)) k in
           set_nth (vempty F) traj k
                   (to_vector_t (d_ocp_qp_sol_get_u k (qpSol_ this) n)))
        inputTrajectory (iota 0 (N (ocpSize_ this))).

(** Everything [solve] can reach through its reference arguments and
    through [this]. *)
Record SolveState := MkSolveState {
  dynamics : dynamics_t F d;
  cost : cost_t F d;
  constraints : option (constraints_t F d);
  stateTrajectory : seq (vector_t F);
  inputTrajectory : seq (vector_t F);
  this : Impl;
  stderr : seq string
}.

(** [hpipm_status solve(x0, dynamics, cost, constraints, stateTrajectory,
    inputTrajectory, verbose)] *)
Definition solve (x0 : 'cV[F]_(state_dim d 0)) (verbose : bool) (s : SolveState)
  : option hpipm_status * SolveState :=
  let t := this s in
  (* the stage pointers; [b0], [r0] and [boundData] are locals *)
  let qp_data :=
    transcribe (N (ocpSize_ t)) x0 (dynamics s) (cost s) (constraints s) in
  let t := set_qp_ (d_ocp_qp_set_all qp_data (qp_ t)) t in
  let: (sol, ws) :=
    d_ocp_qp_ipm_solve (qp_ t) (qpSol_ t) (arg_ t) (workspace_ t) in
  let t := set_workspace_ ws (set_qpSol_ sol t) in
  let err := if verbose then printStatus t (stderr s) else stderr s in
  let stateTrajectory := getStateSolution t x0 (stateTrajectory s) in
  let inputTrajectory := getInputSolution t (inputTrajectory s) in
  (* Return solver status *)
  let hpipmStatus := (-1)%Z in
  let hpipmStatus := d_ocp_qp_ipm_get_status (workspace_ t) in
  (hpipm_status_of_int hpipmStatus,
   MkSolveState (dynamics s) (cost s) (constraints s)
                stateTrajectory inputTrajectory t err).

(** The outputs of [getRiccatiZeroStage]. *)
Record RiccatiZeroStage (n0 m0 : nat) := MkRiccatiZeroStage {
  P0 : 'M[F]_(n0, n0);
  K0 : 'M[F]_(m0, n0);
  p0 : 'cV[F]_n0;
  k0 : 'cV[F]_m0
}.

(** [void getRiccatiZeroStage(A0, B0, b0, Q0, R0, S0, q0, r0, P0, K0, p0, k0)].
    The buffers [P1], [p1] and [Lr0] are resized with [ocpSize_.nx[1]] and
    [ocpSize_.nu[0]]; the Eigen products that follow are defined when these
    are the row count [n1] of [A0] and the column count [m0] of [B0], the
    shapes the model gives them.  [Lr0.inverse()] is [invmx], which is the
    inverse whenever there is one. *)
Definition getRiccatiZeroStage (n0 n1 m0 : nat) (this : Impl)
    (A0 : 'M[F]_(n1, n0)) (B0 : 'M[F]_(n1, m0)) (b0 : 'cV[F]_n1)
    (Q0 : 'M[F]_(n0, n0)) (R0 : 'M[F]_(m0, m0)) (S0 : 'M[F]_(m0, n0))
    (q0 : 'cV[F]_n0) (r0 : 'cV[F]_m0) : RiccatiZeroStage n0 m0 :=
  let fake_k0 :=
    d_ocp_qp_ipm_get_ric_k (qp_ this) (arg_ this) (workspace_ this) 0 m0 in
  let P1 := d_ocp_qp_ipm_get_ric_P (qp_ this) (arg_ this) (workspace_ this) 1 n1 in
  let Lr0 := d_ocp_qp_ipm_get_ric_Lr (qp_ this) (arg_ this) (workspace_ this) 0 m0 in
  let p1 := d_ocp_qp_ipm_get_ric_p (qp_ this) (arg_ this) (workspace_ this) 1 n1 in
  let Lr0_inv := invmx Lr0 in
  let K0 := (- (Lr0_inv^T *m Lr0_inv)) *m (S0 + B0^T *m P1 *m A0) in
  let k0 := (- (Lr0_inv^T *m Lr0_inv)) *m (r0 + B0^T *m p1 + B0^T *m P1 *m b0) in
  let P0 := Q0 + A0^T *m P1 *m A0 -
            (S0 + B0^T *m P1 *m A0)^T *m (Lr0_inv^T *m Lr0_inv) *m
            (S0 + B0^T *m P1 *m A0) in
  let p0 := q0 + A0^T *m p1 + A0^T *m P1 *m b0 -
            (S0 + B0^T *m P1 *m A0)^T *m (Lr0_inv^T *m Lr0_inv) *m
            (r0 + B0^T *m p1 + B0^T *m P1 *m b0) in
  MkRiccatiZeroStage P0 K0 p0 k0.

End Solve.

(** ** Predicates used to state the properties *)

(** What a completed preparation establishes: the stored request, and every
    structure created in a block that is large enough for it. *)
Definition prepared {api : HpipmMemApi} (ocpSize : OcpSize) (settings : Settings)
    (t : Impl) : Prop :=
  let arg0 := d_ocp_qp_ipm_arg_create (dim_ t) (get (ipmArgMem_ t)) in
  let arg1 := d_ocp_qp_ipm_arg_set_default (hpipmMode settings) arg0 in
  let arg2 := d_ocp_qp_ipm_arg_set_iter_max (iter_max settings) arg1 in
  let arg3 := d_ocp_qp_ipm_arg_set_alpha_min (alpha_min settings) arg2 in
  let arg4 := d_ocp_qp_ipm_arg_set_mu0 (mu0 settings) arg3 in
  let arg5 := d_ocp_qp_ipm_arg_set_tol_stat (tol_stat settings) arg4 in
  let arg6 := d_ocp_qp_ipm_arg_set_tol_eq (tol_eq settings) arg5 in
  let arg7 := d_ocp_qp_ipm_arg_set_tol_ineq (tol_ineq settings) arg6 in
  let arg8 := d_ocp_qp_ipm_arg_set_tol_comp (tol_comp settings) arg7 in
  let arg9 := d_ocp_qp_ipm_arg_set_reg_prim (reg_prim settings) arg8 in
  let arg10 := d_ocp_qp_ipm_arg_set_warm_start (warm_start settings) arg9 in
  let arg11 := d_ocp_qp_ipm_arg_set_pred_corr (pred_corr settings) arg10 in
  let arg12 := d_ocp_qp_ipm_arg_set_ric_alg (ric_alg settings) arg11 in
  [/\ settings_ t = settings, ocpSize_ t = ocpSize
    & dim_ t = d_ocp_qp_dim_set_all (nx ocpSize) (nu ocpSize) (nbx ocpSize)
                 (nbu ocpSize) (ng ocpSize) (nsbx ocpSize) (nsbu ocpSize)
                 (nsg ocpSize)
                 (d_ocp_qp_dim_create (N ocpSize) (get (dimMem_ t)))] /\
  [/\ qp_ t = d_ocp_qp_create (dim_ t) (get (qpMem_ t)),
      qpSol_ t = d_ocp_qp_sol_create (dim_ t) (get (qpSolMem_ t)),
      arg_ t = arg12
    & workspace_ t = d_ocp_qp_ipm_ws_create (dim_ t) (arg_ t) (get (ipmMem_ t))] /\
  [/\ (d_ocp_qp_dim_memsize (N ocpSize) <= size_ (dimMem_ t))%N,
      (d_ocp_qp_memsize (dim_ t) <= size_ (qpMem_ t))%N,
      (d_ocp_qp_sol_memsize (dim_ t) <= size_ (qpSolMem_ t))%N,
      (d_ocp_qp_ipm_arg_memsize (dim_ t) <= size_ (ipmArgMem_ t))%N
    & (d_ocp_qp_ipm_ws_memsize (dim_ t) (arg_ t) <= size_ (ipmMem_ t))%N].

(** The bound of stage [k]: the negated residual, and at the first stage
    the initial state moved to the right-hand side as well. *)
Definition constraint_bound {F : fieldType} {d : StageDims}
    (constr : constraints_t F d) (x0 : 'cV[F]_(state_dim d 0)) (k : nat)
  : 'cV[F]_(constr_dim d k) :=
  match k with
  | 0%N => - Lin.f (constr 0%N) - Lin.dfdx (constr 0%N) *m x0
  | k'.+1 => - Lin.f (constr k'.+1)
  end.

(** ** Instances to run the model on *)

(** Two allocators to run the model on: one that serves every request, and
    one that refuses requests above a limit. *)
Definition serving_allocator : Allocator := {| malloc_fails := fun _ _ => false |}.
Definition limited_allocator (limit : nat) : Allocator :=
  {| malloc_fails := fun _ size => (limit < size)%N |}.

(** A small instance of the C API to run the model on: every structure is a
    number, a scalar is [Some x] or [None] for NaN, which compares unequal
    to everything. *)
Definition toy_scalar_eq (a b : option nat) : bool :=
  match a, b with Some x, Some y => x == y | _, _ => false end.

Definition toy_api : HpipmMemApi := {|
  hpipm_mode := (bool : eqType);
  scalar_t := option nat;
  scalar_eq := toy_scalar_eq;
  d_ocp_qp_dim := nat;
  d_ocp_qp := nat;
  d_ocp_qp_sol := nat;
  d_ocp_qp_ipm_arg := nat;
  d_ocp_qp_ipm_ws := nat;
  d_ocp_qp_dim_memsize := fun n => (8 * n.+1)%N;
  d_ocp_qp_dim_create := fun n _ => n;
  d_ocp_qp_dim_set_all := fun nx nu _ _ ng _ _ _ dim => (dim + sumn nx + sumn nu + sumn ng)%N;
  d_ocp_qp_memsize := fun dim => (16 * dim)%N;
  d_ocp_qp_create := fun dim _ => dim;
  d_ocp_qp_sol_memsize := fun dim => (4 * dim)%N;
  d_ocp_qp_sol_create := fun dim _ => dim;
  d_ocp_qp_ipm_arg_memsize := fun _ => 64%N;
  d_ocp_qp_ipm_arg_create := fun _ _ => 0%N;
  d_ocp_qp_ipm_arg_set_default := fun mode _ => if mode then 1%N else 2%N;
  d_ocp_qp_ipm_arg_set_iter_max := fun z arg => (arg + absz z)%N;
  d_ocp_qp_ipm_arg_set_alpha_min := fun _ arg => arg;
  d_ocp_qp_ipm_arg_set_mu0 := fun _ arg => arg;
  d_ocp_qp_ipm_arg_set_tol_stat := fun _ arg => arg;
  d_ocp_qp_ipm_arg_set_tol_eq := fun _ arg => arg;
  d_ocp_qp_ipm_arg_set_tol_ineq := fun _ arg => arg;
  d_ocp_qp_ipm_arg_set_tol_comp := fun _ arg => arg;
  d_ocp_qp_ipm_arg_set_reg_prim := fun _ arg => arg;
  d_ocp_qp_ipm_arg_set_warm_start := fun _ arg => arg;
  d_ocp_qp_ipm_arg_set_pred_corr := fun _ arg => arg;
  d_ocp_qp_ipm_arg_set_ric_alg := fun _ arg => arg;
  d_ocp_qp_ipm_ws_memsize := fun dim arg => (dim * arg)%N;
  d_ocp_qp_ipm_ws_create := fun dim arg _ => (dim + arg)%N
|}.

(** A horizon of two stages with two states and one input. *)
Definition toy_size (nx0 : nat) : OcpSize :=
  MkOcpSize 2 [:: 1; 1; 0]%N [:: nx0; 2; 2]%N [:: 0; 0; 0]%N [:: 0; 0; 0]%N
            [:: 0; 0; 0]%N [:: 0; 0; 0]%N [:: 0; 0; 0]%N [:: 0; 0; 0]%N.

(** Settings; [alpha_min] is a parameter, to try [None] (NaN). *)
Definition toy_settings (alpha : option nat) : @Settings toy_api :=
  @MkSettings toy_api true 30%Z alpha (Some 1%N) (Some 1%N) (Some 1%N)
              (Some 1%N) (Some 1%N) (Some 0%N) 0%Z 1%Z 0%Z.

(** An object before its first preparation: no memory, no sizes. *)
Definition toy_impl : @Impl toy_api :=
  @MkImpl toy_api (toy_settings (Some 0%N))
          (MkOcpSize 0 [::] [::] [::] [::] [::] [::] [::] [::])
          MemoryBlock_empty 0%N MemoryBlock_empty 0%N MemoryBlock_empty 0%N
          MemoryBlock_empty 0%N MemoryBlock_empty 0%N.

(** The lower-triangular matrix of ones: a Cholesky-like factor that does
    not commute with its transpose (for [n >= 2]). *)
Definition lower_ones (F : fieldType) (n : nat) : 'M[F]_n :=
  \matrix_(i, j) (j <= i)%N%:R.

(** An instance of the solver API over the rationals, on stages with one
    state, one input and one constraint; the solver reports [flag]. *)
Definition toy_dims : StageDims := MkStageDims (fun _ => 1%N) (fun _ => 1%N) (fun _ => 1%N).

Definition toy_solver (flag : int) : HpipmSolverApi rat toy_dims toy_api := {|
  d_ocp_qp_set_all := fun _ (qp : @d_ocp_qp toy_api) => qp.+1;
  d_ocp_qp_ipm_solve := fun qp sol _ ws => ((qp + sol)%N, ws.+1);
  d_ocp_qp_ipm_get_status := fun _ => flag;
  d_ocp_qp_sol_get_x := fun k _ n => const_mx k%:Q;
  d_ocp_qp_sol_get_u := fun k _ n => const_mx (- k%:Q);
  d_ocp_qp_ipm_get_ric_P := fun _ _ _ _ n => 1%:M;
  d_ocp_qp_ipm_get_ric_p := fun _ _ _ _ n => 0;
  d_ocp_qp_ipm_get_ric_Lr := fun _ _ _ _ n => lower_ones rat n;
  d_ocp_qp_ipm_get_ric_k := fun _ _ _ _ n => 0;
  print_flag := fun _ => "HPIPM returned with flag"%string;
  print_statistics := fun _ => [::]
|}.

(** Stage data: the same approximation at every stage. *)
Definition toy_x0 : 'cV[rat]_(state_dim toy_dims 0) := const_mx 5%:Q.
Definition toy_dynamics : dynamics_t rat toy_dims :=
  fun k => Lin.Mk (const_mx 7%:Q) (const_mx 2%:Q) (const_mx 1 : 'M_(1, 1)).
Definition toy_cost : cost_t rat toy_dims :=
  fun k => Quad.Mk (const_mx 1) (const_mx 3%:Q) (const_mx 1) (const_mx 0)
                   (const_mx 4%:Q) 0.
Definition toy_constraints : constraints_t rat toy_dims :=
  fun k => Lin.Mk (const_mx 6%:Q) (const_mx 1) (const_mx 1 : 'M_(1, 1)).

(** The object and the heap that a first preparation for [toy_size] leaves
    (see [toy_first_call]), and the caller's state for [solve]: the output
    vectors come in with one stale entry. *)
Definition toy_prepared (alpha : option nat) : @Impl toy_api :=
  @MkImpl toy_api (toy_settings alpha) (toy_size 0)
     (Block (Some 0%N) 24) 8%N (Block (Some 1%N) 128) 8%N (Block (Some 2%N) 32) 8%N
     (Block (Some 3%N) 64) 31%N (Block (Some 4%N) 248) 39%N.
Definition toy_heap : heap := Heap [:: 4; 3; 2; 1; 0]%N 5.

Definition toy_state : @SolveState rat toy_dims toy_api :=
  MkSolveState toy_dynamics toy_cost (Some toy_constraints)
               [:: to_vector_t (const_mx 9%:Q : 'cV[rat]_3)] [::]
               (toy_prepared (Some 5%N)) [::].

(** The data of the counterexample: two states, two inputs, no coupling
    between stage 0 and stage 1, and the identity as the mixed cost block. *)
Definition ex_A0 : 'M[rat]_(1, 2) := 0.
Definition ex_B0 : 'M[rat]_(1, 2) := 0.
Definition ex_b0 : 'cV[rat]_1 := 0.
Definition ex_Q0 : 'M[rat]_(2, 2) := 1%:M.
Definition ex_R0 : 'M[rat]_(2, 2) := 1%:M.
Definition ex_S0 : 'M[rat]_(2, 2) := 1%:M.
Definition ex_q0 : 'cV[rat]_2 := 0.
Definition ex_r0 : 'cV[rat]_2 := 0.

(** ** Heap discipline of [MemoryBlock] *)

(** [explicit MemoryBlock(size_t size)]: null members, then [reserve(size)];
    [MemoryBlock()] is [MemoryBlock(0)]. *)
Definition MemoryBlock_new {al : Allocator} (size : nat) (h : heap)
  : outcome * MemoryBlock * heap :=
  reserve size MemoryBlock_empty h.

(** A heap as [malloc] and [free] keep it: no identifier is live twice and
    every live identifier has been handed out already. *)
Definition heap_ok (h : heap) : bool :=
  uniq (live h) && all (fun a => a < fresh h)%N (live h).

(** The pointer of a block is null or points to a live heap block. *)
Definition owned (h : heap) (b : MemoryBlock) : bool :=
  if ptr_ b is Some a then a \in live h else true.

(** A block whose stored size is backed by memory: a null pointer goes with
    size zero. *)
Definition backed (b : MemoryBlock) : bool :=
  (ptr_ b == None) ==> (size_ b == 0%N).

(** The pointers of the five memory blocks of the object. *)
Definition block_pointers {api : HpipmMemApi} (t : Impl) : seq pointer :=
  [:: ptr_ (dimMem_ t); ptr_ (qpMem_ t); ptr_ (qpSolMem_ t);
      ptr_ (ipmArgMem_ t); ptr_ (ipmMem_ t)].

(** Settings that [isSettingsEqual] finds equal to themselves: no scalar
    setting is a NaN. *)
Definition self_equal {api : HpipmMemApi} (settings : Settings) : bool :=
  [&& scalar_eq (alpha_min settings) (alpha_min settings),
      scalar_eq (mu0 settings) (mu0 settings),
      scalar_eq (tol_stat settings) (tol_stat settings),
      scalar_eq (tol_eq settings) (tol_eq settings),
      scalar_eq (tol_ineq settings) (tol_ineq settings),
      scalar_eq (tol_comp settings) (tol_comp settings)
    & scalar_eq (reg_prim settings) (reg_prim settings)].

(** The object and the heap that a first preparation leaves when [malloc]
    refuses the second block (see [toy_failed_call]). *)
Definition toy_failed : @Impl toy_api :=
  @MkImpl toy_api (toy_settings (Some 5%N)) (toy_size 0)
     (Block (Some 0%N) 24) 8%N (Block None 0) 0%N MemoryBlock_empty 0%N
     MemoryBlock_empty 0%N MemoryBlock_empty 0%N.

(** ** The Riccati getters for the interior stages *)

(** A dynamically sized [matrix_t]. *)
Definition matrix_t (F : fieldType) : Type := {m : nat & {n : nat & 'M[F]_(m, n)}}.
Definition to_matrix_t (F : fieldType) (m n : nat) (A : 'M[F]_(m, n)) : matrix_t F :=
  existT _ m (existT _ n A).
Definition mrows (F : fieldType) (A : matrix_t F) : nat := projT1 A.
Definition mcols (F : fieldType) (A : matrix_t F) : nat := projT1 (projT2 A).
(** [matrix_t()]: the empty matrix. *)
Definition mempty (F : fieldType) : matrix_t F := to_matrix_t (0 : 'M[F]_(0, 0)).

(** [d_ocp_qp_ipm_get_ric_Ls], the one HPIPM getter that only
    [getRiccatiFeedbackFeedforward] uses; it fills a buffer of [m * n]
    scalars. *)
Class HpipmRiccatiLsApi (F : fieldType) (api : HpipmMemApi) := {
  d_ocp_qp_ipm_get_ric_Ls :
    d_ocp_qp -> d_ocp_qp_ipm_arg -> d_ocp_qp_ipm_ws -> nat ->
    forall m n, 'M[F]_(m, n)
}.

Section RiccatiGetters.
Context {F : fieldType} {d : StageDims} {api : HpipmMemApi}
        {solver : HpipmSolverApi F d api} {ls : HpipmRiccatiLsApi F api}.

(** The gain and the feedforward term that the loop of
    [getRiccatiFeedbackFeedforward] writes at stage [k]. *)
Definition riccati_gain (this : Impl) (k : nat) : matrix_t F :=
  let nuk := nth 0%N (nu (ocpSize_ this)) k in
  let nxk := nth 0%N (nx (ocpSize_ this)) k in
  let Lr := d_ocp_qp_ipm_get_ric_Lr (qp_ this) (arg_ this) (workspace_ this) k nuk in
  let Ls := d_ocp_qp_ipm_get_ric_Ls (qp_ this) (arg_ this) (workspace_ this) k nxk nuk in
  to_matrix_t (- (Ls *m invmx Lr)^T).

Definition riccati_feedforward (this : Impl) (k : nat) : vector_t F :=
  let nuk := nth 0%N (nu (ocpSize_ this)) k in
  to_vector_t (d_ocp_qp_ipm_get_ric_k (qp_ this) (arg_ this) (workspace_ this) k nuk).

(** [void getRiccatiFeedbackFeedforward(std::vector<matrix_t>& KMatrics,
    std::vector<vector_t>& kVectors)] *)
Definition getRiccatiFeedbackFeedforward (this : Impl)
    (KMatrics : seq (matrix_t F)) (kVectors : seq (vector_t F))
  : seq (matrix_t F) * seq (vector_t F) :=
  let KMatrics := resize (mempty F) (N (ocpSize_ this)) KMatrics in
  let kVectors := resize (vempty F) (N (ocpSize_ this)) kVectors in
  foldl (fun Kk k =>
           (set_nth (mempty F) Kk.1 k (riccati_gain this k),
            set_nth (vempty F) Kk.2 k (riccati_feedforward this k)))
        (KMatrics, kVectors) (iota 1 (N (ocpSize_ this) - 1)).

(** The cost-to-go matrix and vector that [getRiccatiCostToGo] reads at
    stage [k]. *)
Definition riccati_P (this : Impl) (k : nat) : matrix_t F :=
  let nxk := nth 0%N (nx (ocpSize_ this)) k in
  to_matrix_t (d_ocp_qp_ipm_get_ric_P (qp_ this) (arg_ this) (workspace_ this) k nxk).

Definition riccati_p (this : Impl) (k : nat) : vector_t F :=
  let nxk := nth 0%N (nx (ocpSize_ this)) k in
  to_vector_t (d_ocp_qp_ipm_get_ric_p (qp_ this) (arg_ this) (workspace_ this) k nxk).

(** [void getRiccatiCostToGo(std::vector<matrix_t>& PMatrics,
    std::vector<vector_t>& pVectors)]: the terminal stage first, then the
    stages 1 to N-1. *)
Definition getRiccatiCostToGo (this : Impl)
    (PMatrics : seq (matrix_t F)) (pVectors : seq (vector_t F))
  : seq (matrix_t F) * seq (vector_t F) :=
  let n := N (ocpSize_ this) in
  let PMatrics := resize (mempty F) n.+1 PMatrics in
  let pVectors := resize (vempty F) n.+1 pVectors in
  let PMatrics := set_nth (mempty F) PMatrics n (riccati_P this n) in
  let pVectors := set_nth (vempty F) pVectors n (riccati_p this n) in
  foldl (fun Pp k =>
           (set_nth (mempty F) Pp.1 k (riccati_P this k),
            set_nth (vempty F) Pp.2 k (riccati_p this k)))
        (PMatrics, pVectors) (iota 1 (n - 1)).

End RiccatiGetters.

(** An instance of the extra getter over the rationals: the factor of the
    mixed block is zero. *)
Definition toy_ls : HpipmRiccatiLsApi rat toy_api :=
  {| d_ocp_qp_ipm_get_ric_Ls := fun _ _ _ _ m n => 0 |}.

(** The input-cost block that the factor [[1 0] [1 1]] factorizes. *)
Definition ex_Ru : 'M[rat]_(2, 2) := lower_ones rat 2 *m (lower_ones rat 2)^T.

(** ** The quadratic cost function (ocs2_core/cost/QuadraticCostFunction.h) *)

(** The base class [CostFunctionBaseOCS2] is not among the sources: its
    members, its [setCurrentStateAndControl] and the member [x_] that
    [terminalCost] reads are an interface about which nothing is assumed. *)
Class CostFunctionBaseApi (F : numFieldType) (STATE_DIM CONTROL_DIM : nat) := {
  CostFunctionBase : Type;
  base_setCurrentStateAndControl :
    F -> 'cV[F]_STATE_DIM -> 'cV[F]_CONTROL_DIM -> CostFunctionBase -> CostFunctionBase;
  x_ : CostFunctionBase -> 'cV[F]_STATE_DIM
}.

Section QuadraticCost.
Context {F : numFieldType} {STATE_DIM CONTROL_DIM : nat}
        {base_api : CostFunctionBaseApi F STATE_DIM CONTROL_DIM}.

Record QuadraticCostFunction := MkQuadraticCostFunction {
  base : CostFunctionBase;
  x_deviation_ : 'cV[F]_STATE_DIM;
  x_nominal_ : 'cV[F]_STATE_DIM;
  Q_ : 'M[F]_(STATE_DIM, STATE_DIM);
  u_deviation_ : 'cV[F]_CONTROL_DIM;
  u_nominal_ : 'cV[F]_CONTROL_DIM;
  R_ : 'M[F]_(CONTROL_DIM, CONTROL_DIM);
  x_final_ : 'cV[F]_STATE_DIM;
  Q_final_ : 'M[F]_(STATE_DIM, STATE_DIM)
}.

(** A product of Eigen expressions that is 1 x 1, read as a scalar. *)
Definition scalar_of (M : 'M[F]_(1, 1)) : F := M ord0 ord0.

(** [setCurrentStateAndControl(t, x, u)] *)
Definition setCurrentStateAndControl (t : F) (x : 'cV[F]_STATE_DIM)
    (u : 'cV[F]_CONTROL_DIM) (c : QuadraticCostFunction) : QuadraticCostFunction :=
  MkQuadraticCostFunction
    (base_setCurrentStateAndControl t x u (base c))
    (x - x_nominal_ c) (x_nominal_ c) (Q_ c)
    (u - u_nominal_ c) (u_nominal_ c) (R_ c)
    (x_final_ c) (Q_final_ c).

(** [evaluate(cost)] *)
Definition evaluate (c : QuadraticCostFunction) : F :=
  let costQ := scalar_of (2%:R^-1 *: (x_deviation_ c)^T *m Q_ c *m x_deviation_ c) in
  let costR := scalar_of (2%:R^-1 *: (u_deviation_ c)^T *m R_ c *m u_deviation_ c) in
  costQ + costR.

Definition stateDerivative (c : QuadraticCostFunction) : 'cV[F]_STATE_DIM :=
  Q_ c *m x_deviation_ c.

Definition stateSecondDerivative (c : QuadraticCostFunction)
  : 'M[F]_(STATE_DIM, STATE_DIM) := Q_ c.

Definition controlDerivative (c : QuadraticCostFunction) : 'cV[F]_CONTROL_DIM :=
  R_ c *m u_deviation_ c.

Definition controlSecondDerivative (c : QuadraticCostFunction)
  : 'M[F]_(CONTROL_DIM, CONTROL_DIM) := R_ c.

(** [control_feedback_t::Zero()] *)
Definition stateControlDerivative (c : QuadraticCostFunction)
  : 'M[F]_(CONTROL_DIM, STATE_DIM) := 0.

Definition terminalCost (c : QuadraticCostFunction) : F :=
  let x_deviation_final := x_ (base c) - x_final_ c in
  scalar_of (2%:R^-1 *: x_deviation_final^T *m Q_final_ c *m x_deviation_final).

Definition terminalCostStateDerivative (c : QuadraticCostFunction)
  : 'cV[F]_STATE_DIM :=
  let x_deviation_final := x_ (base c) - x_final_ c in
  Q_final_ c *m x_deviation_final.

Definition terminalCostStateSecondDerivative (c : QuadraticCostFunction)
  : 'M[F]_(STATE_DIM, STATE_DIM) := Q_final_ c.

End QuadraticCost.

(** ** The DDP correctness test (ocs2_ddp/test/CorrectnessTest.cpp) *)

Inductive Partitioning := SINGLE | MULTI.

(** The values of [ocs2::ddp::Algorithm] and [ocs2::search_strategy::Type]
    that the test uses. *)
Inductive ddp_Algorithm := SLQ | ILQR.
Inductive search_strategy_Type := LINE_SEARCH | LEVENBERG_MARQUARDT.

(** [size_t] arithmetic: 64 bits, wrapping. *)
Definition size_t_modulus : nat := 2 ^ 64.
Definition size_t_add (a b : nat) : nat := (a + b) %% size_t_modulus.
Definition size_t_sub (a b : nat) : nat :=
  (a + (size_t_modulus - b %% size_t_modulus)) %% size_t_modulus.

(** The fields of [ocs2::ddp::Settings] that [getSettings] assigns (the
    others keep their defaults); a decimal literal is the rational number
    it denotes. *)
Record ddp_Settings := MkDdpSettings {
  algorithm_ : ddp_Algorithm;
  displayInfo_ : bool;
  displayShortSummary_ : bool;
  absTolODE_ : rat;
  relTolODE_ : rat;
  maxNumStepsPerSecond_ : nat;
  minRelCost_ : rat;
  useNominalTimeForBackwardPass_ : bool;
  nThreads_ : nat;
  maxNumIterations_ : nat;
  strategy_ : search_strategy_Type;
  lineSearch_minStepLength_ : rat
}.

(** [ddp::Settings getSettings(algorithmType, numPartitions, strategy,
    display)] *)
Definition getSettings (algorithmType : ddp_Algorithm) (numPartitions : nat)
    (strategy : search_strategy_Type) (display : bool) : ddp_Settings :=
  MkDdpSettings algorithmType false display
    (10%:R ^- 10) (10%:R ^- 7) 10000 (10%:R ^- 3) false
    numPartitions
    (size_t_add 2 (size_t_sub numPartitions 1))
    strategy
    (10%:R ^- 4).

(** [scalar_array_t getPartitioningTimes()] *)
Definition getPartitioningTimes (F : numFieldType) (partitioning : Partitioning)
    (startTime finalTime : F) : seq F :=
  if partitioning is SINGLE then [:: startTime; finalTime]
  else [:: startTime; (startTime + finalTime) / 2%:R; finalTime].

(** The settings of [TEST_P(DDPCorrectness, TestSLQ)] and [TestILQR]:
    [getSettings(algorithm, partitioningTimes.size() - 1, strategy)]. *)
Definition test_settings (F : numFieldType) (algorithm : ddp_Algorithm)
    (partitioning : Partitioning) (strategy : search_strategy_Type)
    (startTime finalTime : F) : ddp_Settings :=
  let partitioningTimes := getPartitioningTimes partitioning startTime finalTime in
  getSettings algorithm (size_t_sub (size partitioningTimes) 1) strategy false.

(** [ocs2::qp_solver::ContinuousTrajectory] (declared in ocs2_qp_solver):
    the three trajectories that the test reads and writes; a vector is the
    sequence of its coefficients. *)
Module ContinuousTrajectory.
Record t (F : fieldType) := Mk {
  timeTrajectory : seq F;
  stateTrajectory : seq (seq F);
  inputTrajectory : seq (seq F)
}.
End ContinuousTrajectory.

Section FeasibleTrajectory.
Variable F : fieldType.

(** The coefficients of a column vector. *)
Definition coefficients (n : nat) (w : 'cV[F]_n) : seq F :=
  map (fun i : 'I_n => w i ord0) (enum 'I_n).

(** [w.segment(i, n)] *)
Definition segment (i n : nat) (w : seq F) : seq F := take n (drop i w).

(** [a += b] on vectors of one size. *)
Definition vadd (a b : seq F) : seq F := map (fun p => p.1 + p.2) (zip a b).

(** One turn of the loop of [getFeasibleTrajectory]. *)
Definition correct_stage (w : seq F) (st : seq (seq F) * seq (seq F) * nat)
    (k : nat) : seq (seq F) * seq (seq F) * nat :=
  let: (stateTrajectory, inputTrajectory, nextIndex) := st in
  let nx := size (nth [::] stateTrajectory k) in
  let nu := size (nth [::] inputTrajectory k) in
  let stateTrajectory :=
    set_nth [::] stateTrajectory k
            (vadd (nth [::] stateTrajectory k) (segment nextIndex nx w)) in
  let inputTrajectory :=
    set_nth [::] inputTrajectory k
            (vadd (nth [::] inputTrajectory k) (segment (nextIndex + nx) nu w)) in
  (stateTrajectory, inputTrajectory, (nextIndex + (nx + nu))%N).

(** The correction [w] of [getFeasibleTrajectory]: the least-norm solution
    of [A w + b = 0]. *)
Definition feasibility_correction (m n p : nat) (qpConstraints : Lin.t F m n p)
  : 'cV[F]_n :=
  let A := Lin.dfdx qpConstraints in
  let b := Lin.f qpConstraints in
  (- A^T) *m invmx (A *m A^T) *m b.

(** [ContinuousTrajectory getFeasibleTrajectory(qpConstraints, trajectory)] *)
Definition getFeasibleTrajectory (m n p : nat) (qpConstraints : Lin.t F m n p)
    (trajectory : ContinuousTrajectory.t F) : ContinuousTrajectory.t F :=
  let w := coefficients (feasibility_correction qpConstraints) in
  let feasibleTrajectory := trajectory in
  let nextIndex := 0%N in
  let N := size (ContinuousTrajectory.inputTrajectory feasibleTrajectory) in
  let: (stateTrajectory, inputTrajectory, nextIndex) :=
    foldl (correct_stage w)
          (ContinuousTrajectory.stateTrajectory feasibleTrajectory,
           ContinuousTrajectory.inputTrajectory feasibleTrajectory, nextIndex)
          (iota 0 N) in
  let stateTrajectory :=
    set_nth [::] stateTrajectory N
      (vadd (nth [::] stateTrajectory N)
            (segment nextIndex (size (nth [::] stateTrajectory N)) w)) in
  ContinuousTrajectory.Mk (ContinuousTrajectory.timeTrajectory feasibleTrajectory)
                          stateTrajectory inputTrajectory.

(** The stacked vector [x[0], u[0], x[1], u[1], ..., x[N]] of a
    trajectory, the layout of [w]. *)
Fixpoint stacked (xs us : seq (seq F)) : seq F :=
  match xs with
  | [::] => [::]
  | x :: xs' =>
      x ++ (match us with
            | [::] => [::]
            | u :: us' => u ++ stacked xs' us'
            end)
  end.

(** The corrected states and inputs, stage by stage from the offset [o]. *)
Fixpoint corrected (w : seq F) (o : nat) (xs us : seq (seq F))
  : seq (seq F) * seq (seq F) :=
  match xs, us with
  | x :: xs', u :: us' =>
      let r := corrected w (o + (size x + size u)) xs' us' in
      (vadd x (segment o (size x) w) :: r.1,
       vadd u (segment (o + size x) (size u) w) :: r.2)
  | x :: xs', [::] => (vadd x (segment o (size x) w) :: xs', [::])
  | [::], _ => ([::], us)
  end.

End FeasibleTrajectory.

(** A trajectory of one stage with one state and one input, and the
    constraint [dx[1] + 3 = 0] on it. *)
Definition toy_trajectory : ContinuousTrajectory.t rat :=
  ContinuousTrajectory.Mk [:: 0; 1] [:: [:: 1]; [:: 2]] [:: [:: 5]].
Definition toy_qpConstraints : Lin.t rat 1 3 0 :=
  Lin.Mk (const_mx 3%:Q) (row_mx (0 : 'M_(1, 2)) (1%:M : 'M_(1, 1))) 0.

(** A base class that stores the state it was given, and a quadratic cost
    on two states and one input with symmetric weights. *)
Definition toy_cost_base : CostFunctionBaseApi rat 2 1 :=
  {| CostFunctionBase := 'cV[rat]_2;
     base_setCurrentStateAndControl := fun _ x _ _ => x;
     x_ := fun b => b |}.
Definition toy_quadratic_cost : @QuadraticCostFunction rat 2 1 toy_cost_base :=
  @MkQuadraticCostFunction rat 2 1 toy_cost_base
    (0 : 'cV[rat]_2) 0 (const_mx 1) (2%:R%:M) 0 (const_mx 1) (1%:M) 0 (1%:M).

(** ** The memory behind the stage pointers *)

(** The model above reads a stage pointer as the data it points to.  The
    model of this part keeps the buffers of the Eigen objects in a memory
    and the pointers as addresses, so that a write through a pointer is
    seen by whoever reads the same buffer: it is the model in which [solve]
    or HPIPM, which receives pointers to non-const scalars, could change
    the caller's stage approximations. *)

(** The buffers by address: a buffer holds the coefficients of a matrix (a
    vector is a matrix of one column); [None] is an address that is not
    allocated, or not any more. *)
Definition memory (F : fieldType) : Type := seq (option (matrix_t F)).

Section Memory.
Context {F : fieldType}.

(** a read through a pointer *)
Definition load (m : memory F) (a : nat) : option (matrix_t F) := nth None m a.

(** the buffer of a newly constructed Eigen object, at a new address *)
Definition allocate (v : matrix_t F) (m : memory F) : nat * memory F :=
  (size m, rcons m (Some v)).

(** a write through a pointer; a write to an address that is not allocated
    is undefined in C++, the model leaves the memory as it is *)
Definition write (a : nat) (v : matrix_t F) (m : memory F) : memory F :=
  if load m a is Some _ then set_nth None m a (Some v) else m.

(** the destructor of an Eigen object releases its buffer *)
Definition release (a : nat) (m : memory F) : memory F :=
  if load m a is Some _ then set_nth None m a None else m.

End Memory.

(** Where the members of a stage approximation keep their coefficients:
    what [.data()] returns for each. *)
Module LinAt.
Record t := Mk { f : nat; dfdx : nat; dfdu : nat }.
End LinAt.

Module QuadAt.
Record t := Mk { dfdxx : nat; dfdux : nat; dfduu : nat; dfdx : nat; dfdu : nat }.
End QuadAt.

(** The buffers of the caller's three vectors, by stage. *)
Record Layout := MkLayout {
  dynamics_at : nat -> LinAt.t;
  cost_at : nat -> QuadAt.t;
  constraints_at : nat -> LinAt.t
}.

Section Represents.
Context {F : fieldType} {d : StageDims}.

(** The buffer at [a] holds the matrix [A]. *)
Definition holds (m : memory F) (a : nat) (r c : nat) (A : 'M[F]_(r, c)) : Prop :=
  load m a = Some (to_matrix_t A).

(** The memory holds the stage approximations of a horizon [n] at the
    addresses of the layout: [n] dynamics, [n + 1] costs and, if there are
    constraints, [n + 1] of them. *)
Definition represents (n : nat) (lay : Layout) (dynamics : dynamics_t F d)
    (cost : cost_t F d) (constraints : option (constraints_t F d))
    (m : memory F) : Prop :=
  [/\ forall k, (k < n)%N ->
        [/\ holds m (LinAt.f (dynamics_at lay k)) (Lin.f (dynamics k)),
            holds m (LinAt.dfdx (dynamics_at lay k)) (Lin.dfdx (dynamics k))
          & holds m (LinAt.dfdu (dynamics_at lay k)) (Lin.dfdu (dynamics k))],
      forall k, (k <= n)%N ->
        [/\ holds m (QuadAt.dfdxx (cost_at lay k)) (Quad.dfdxx (cost k)),
            holds m (QuadAt.dfdux (cost_at lay k)) (Quad.dfdux (cost k)),
            holds m (QuadAt.dfduu (cost_at lay k)) (Quad.dfduu (cost k)),
            holds m (QuadAt.dfdx (cost_at lay k)) (Quad.dfdx (cost k))
          & holds m (QuadAt.dfdu (cost_at lay k)) (Quad.dfdu (cost k))]
    & forall constr, constraints = Some constr ->
      forall k, (k <= n)%N ->
        [/\ holds m (LinAt.f (constraints_at lay k)) (Lin.f (constr k)),
            holds m (LinAt.dfdx (constraints_at lay k)) (Lin.dfdx (constr k))
          & holds m (LinAt.dfdu (constraints_at lay k)) (Lin.dfdu (constr k))]].

End Represents.

(** [solve] with its pointers as addresses.  The values that [solve] reads
    through its reference arguments are those of [dynamics], [cost] and
    [constraints], which the memory holds at the call (see [represents]);
    every construction, write and destruction of [solve] goes to the
    memory. *)
Module Pointers.

(** [a[k] = p] in a [std::vector<scalar_t*>]; writing past the end is
    undefined in C++, the model leaves the vector as it is. *)
Definition put (a : seq pointer) (k : nat) (p : pointer) : seq pointer :=
  if (k < size a)%N then set_nth None a k p else a.

(** The pointer vectors that [solve] declares, by group. *)
Record DynamicsPtrs := MkDynamicsPtrs {
  AA : seq pointer;
  BB : seq pointer;
  bb : seq pointer
}.

Record CostPtrs := MkCostPtrs {
  QQ : seq pointer;
  RR : seq pointer;
  SS : seq pointer;
  qq : seq pointer;
  rr : seq pointer
}.

(** [boundData] is the vector of the buffers of its elements. *)
Record ConstraintPtrs := MkConstraintPtrs {
  boundData : seq nat;
  CC : seq pointer;
  DD : seq pointer;
  llg : seq pointer;
  uug : seq pointer
}.

(** What [d_ocp_qp_set_all] is called with (the other arguments are null). *)
Record ocp_qp_data := MkQpData {
  qp_dynamics : DynamicsPtrs;
  qp_cost : CostPtrs;
  qp_constraints : ConstraintPtrs
}.

Section Transcription.
Context {F : fieldType} {d : StageDims}.

(** Lines 184-215: the dynamics; [b0] is a new vector. *)
Definition dynamics_stage (lay : Layout) (p : DynamicsPtrs) (k : nat)
  : DynamicsPtrs :=
  MkDynamicsPtrs
    (put (AA p) k (Some (LinAt.dfdx (dynamics_at lay k))))
    (put (BB p) k (Some (LinAt.dfdu (dynamics_at lay k))))
    (put (bb p) k (Some (LinAt.f (dynamics_at lay k)))).

Definition transcribe_dynamics (n : nat) (x0 : 'cV[F]_(state_dim d 0))
    (lay : Layout) (dynamics : dynamics_t F d) (m : memory F)
  : DynamicsPtrs * nat * memory F :=
  let AA := nseq n None in
  let BB := nseq n None in
  let bb := nseq n None in
  (* vector_t b0 = dynamics[0].f; *)
  let: (b0, m) := allocate (to_matrix_t (Lin.f (dynamics 0%N))) m in
  (* b0.noalias() += dynamics[0].dfdx * x0; *)
  let m :=
    write b0 (to_matrix_t (Lin.f (dynamics 0%N) + Lin.dfdx (dynamics 0%N) *m x0)) m in
  let AA := put AA 0 (Some (LinAt.dfdx (dynamics_at lay 0))) in
  let BB := put BB 0 (Some (LinAt.dfdu (dynamics_at lay 0))) in
  let bb := put bb 0 (Some b0) in
  (* k = 1 -> N-1 *)
  (foldl (dynamics_stage lay) (MkDynamicsPtrs AA BB bb) (iota 1 (n - 1)), b0, m).

(** Lines 189-233: the costs; [r0] is a new vector. *)
Definition cost_stage (lay : Layout) (p : CostPtrs) (k : nat) : CostPtrs :=
  MkCostPtrs
    (put (QQ p) k (Some (QuadAt.dfdxx (cost_at lay k))))
    (put (RR p) k (Some (QuadAt.dfduu (cost_at lay k))))
    (put (SS p) k (Some (QuadAt.dfdux (cost_at lay k))))
    (put (qq p) k (Some (QuadAt.dfdx (cost_at lay k))))
    (put (rr p) k (Some (QuadAt.dfdu (cost_at lay k)))).

Definition transcribe_cost (n : nat) (x0 : 'cV[F]_(state_dim d 0))
    (lay : Layout) (cost : cost_t F d) (m : memory F)
  : CostPtrs * nat * memory F :=
  let QQ := nseq n.+1 None in
  let RR := nseq n.+1 None in
  let SS := nseq n.+1 None in
  let qq := nseq n.+1 None in
  let rr := nseq n.+1 None in
  (* vector_t r0 = cost[0].dfdu; *)
  let: (r0, m) := allocate (to_matrix_t (Quad.dfdu (cost 0%N))) m in
  (* r0 += cost[0].dfdux * x0; *)
  let m :=
    write r0 (to_matrix_t (Quad.dfdu (cost 0%N) + Quad.dfdux (cost 0%N) *m x0)) m in
  let QQ := put QQ 0 (Some (QuadAt.dfdxx (cost_at lay 0))) in
  let RR := put RR 0 (Some (QuadAt.dfduu (cost_at lay 0))) in
  let SS := put SS 0 (Some (QuadAt.dfdux (cost_at lay 0))) in
  let qq := put qq 0 (Some (QuadAt.dfdx (cost_at lay 0))) in
  let rr := put rr 0 (Some r0) in
  (* k = 1 -> N *)
  (foldl (cost_stage lay) (MkCostPtrs QQ RR SS qq rr) (iota 1 n), r0, m).

(** Lines 196-251: the constraints, if any; [boundData[k]] is a new vector,
    and both bounds point to it. *)
Definition constraint_stage (x0 : 'cV[F]_(state_dim d 0)) (lay : Layout)
    (constr : constraints_t F d) (st : ConstraintPtrs * memory F) (k : nat)
  : ConstraintPtrs * memory F :=
  let: (p, m) := st in
  let CC := put (CC p) k (Some (LinAt.dfdx (constraints_at lay k))) in
  let DD := put (DD p) k (Some (LinAt.dfdu (constraints_at lay k))) in
  (* boundData.emplace_back(-constr[k].f); *)
  let: (a, m) := allocate (to_matrix_t (- Lin.f (constr k))) m in
  let boundData := rcons (boundData p) a in
  (* if (k == 0) boundData[k].noalias() -= constr[0].dfdx * x0; *)
  let m :=
    if k is 0%N then
      write (nth 0%N boundData 0)
            (to_matrix_t (- Lin.f (constr 0%N) - Lin.dfdx (constr 0%N) *m x0)) m
    else m in
  let llg := put (llg p) k (Some (nth 0%N boundData k)) in
  let uug := put (uug p) k (Some (nth 0%N boundData k)) in
  (MkConstraintPtrs boundData CC DD llg uug, m).

Definition transcribe_constraints (n : nat) (x0 : 'cV[F]_(state_dim d 0))
    (lay : Layout) (constraints : option (constraints_t F d)) (m : memory F)
  : ConstraintPtrs * memory F :=
  let boundData := [::] in
  let CC := nseq n.+1 None in
  let DD := nseq n.+1 None in
  let llg := nseq n.+1 None in
  let uug := nseq n.+1 None in
  let p := MkConstraintPtrs boundData CC DD llg uug in
  if constraints is Some constr then
    foldl (constraint_stage x0 lay constr) (p, m) (iota 0 n.+1)
  else (p, m).

(** The transcription of [solve], up to the call of [d_ocp_qp_set_all]: the
    pointers, the addresses of [b0] and [r0], and the memory. *)
Definition transcribe (n : nat) (x0 : 'cV[F]_(state_dim d 0)) (lay : Layout)
    (dynamics : dynamics_t F d) (cost : cost_t F d)
    (constraints : option (constraints_t F d)) (m : memory F)
  : ocp_qp_data * nat * nat * memory F :=
  let: (dyn, b0, m) := transcribe_dynamics n x0 lay dynamics m in
  let: (cst, r0, m) := transcribe_cost n x0 lay cost m in
  let: (con, m) := transcribe_constraints n x0 lay constraints m in
  (MkQpData dyn cst con, b0, r0, m).

End Transcription.

(** The two functions of HPIPM that [solve] calls with the problem data:
    they are given pointers to non-const scalars, so the memory goes in and
    comes out.  The getters are those of [HpipmSolverApi]. *)
Class HpipmApi (F : fieldType) (api : HpipmMemApi) := {
  d_ocp_qp_set_all : ocp_qp_data -> memory F -> d_ocp_qp -> d_ocp_qp * memory F;
  d_ocp_qp_ipm_solve :
    d_ocp_qp -> d_ocp_qp_sol -> d_ocp_qp_ipm_arg -> d_ocp_qp_ipm_ws -> memory F ->
    d_ocp_qp_sol * d_ocp_qp_ipm_ws * memory F
}.

(** What [solve] leaves: its result, the caller's output vectors, the
    object, [stderr] and the memory. *)
Module Outcome.
Record t (F : fieldType) (api : HpipmMemApi) := Mk {
  status : option hpipm_status;
  stateTrajectory : seq (vector_t F);
  inputTrajectory : seq (vector_t F);
  this : Impl;
  stderr : seq string;
  mem : memory F
}.
End Outcome.

Section Solve.
Context {F : fieldType} {d : StageDims} {api : HpipmMemApi}
        {solver : HpipmSolverApi F d api} {hpipm : HpipmApi F api}.

(** [hpipm_status solve(x0, dynamics, cost, constraints, stateTrajectory,
    inputTrajectory, verbose)]; [s] gives the values read through the
    reference arguments, [lay] and [m] the buffers behind them. *)
Definition solve (x0 : 'cV[F]_(state_dim d 0)) (verbose : bool) (lay : Layout)
    (s : @SolveState F d api) (m : memory F) : Outcome.t F api :=
  let t := this s in
  let: (qp_data, b0, r0, m) :=
    transcribe (N (ocpSize_ t)) x0 lay (dynamics s) (cost s) (constraints s) m in
  let: (qp, m) := d_ocp_qp_set_all qp_data m (qp_ t) in
  let t := set_qp_ qp t in
  let: (sol, ws, m) :=
    d_ocp_qp_ipm_solve (qp_ t) (qpSol_ t) (arg_ t) (workspace_ t) m in
  let t := set_workspace_ ws (set_qpSol_ sol t) in
  let err := if verbose then printStatus t (stderr s) else stderr s in
  let stateTrajectory := getStateSolution t x0 (stateTrajectory s) in
  let inputTrajectory := getInputSolution t (inputTrajectory s) in
  (* Return solver status *)
  let hpipmStatus := (-1)%Z in
  let hpipmStatus := d_ocp_qp_ipm_get_status (workspace_ t) in
  (* the destructors of the locals *)
  let m :=
    foldl (fun m a => release a m) m
          (r0 :: b0 :: boundData (qp_constraints qp_data)) in
  Outcome.Mk (hpipm_status_of_int hpipmStatus) stateTrajectory inputTrajectory
             t err m.

End Solve.

End Pointers.

(** HPIPM's side of the contract: [d_ocp_qp_set_all] copies the data behind
    the pointers into the QP structure and [d_ocp_qp_ipm_solve] works on the
    structures of the object; neither stores through the data pointers.
    HPIPM is not among the sources. *)
Definition reads_only {F : fieldType} {api : HpipmMemApi}
    (hpipm : Pointers.HpipmApi F api) : Prop :=
  (forall q m qp, (Pointers.d_ocp_qp_set_all q m qp).2 = m) /\
  (forall qp sol arg ws m, (Pointers.d_ocp_qp_ipm_solve qp sol arg ws m).2 = m).

(** ** The two models of [solve] side by side *)

Section Pointees.
Context {F : fieldType} {d : StageDims}.

(** A buffer read as a matrix of [r] rows and [c] columns, the shape with
    which it was written. *)
Definition view (r c : nat) (v : matrix_t F) : option 'M[F]_(r, c) :=
  match @eqP _ (mrows v) r, @eqP _ (mcols v) c with
  | ReflectT er, ReflectT ec => Some (castmx (er, ec) (projT2 (projT2 v)))
  | _, _ => None
  end.

(** What a pointer points to. *)
Definition pointee (m : memory F) (r c : nat) (p : pointer)
  : option 'M[F]_(r, c) :=
  if p is Some a then obind (view r c) (load m a) else None.

(** The data behind the pointer vectors, stage by stage: what the model of
    the first part takes the pointers for.  [boundData] is not an argument
    of [d_ocp_qp_set_all]; its buffers are those behind [llg]. *)
Definition pointees (q : Pointers.ocp_qp_data) (m : memory F)
  : @ocp_qp_data F d :=
  let p := fun (v : seq pointer) (r c : nat) (k : nat) =>
             pointee m r c (nth None v k) in
  MkQpData
    (MkDynamicsPtrs
       (fun k => p (Pointers.AA (Pointers.qp_dynamics q)) _ _ k)
       (fun k => p (Pointers.BB (Pointers.qp_dynamics q)) _ _ k)
       (fun k => p (Pointers.bb (Pointers.qp_dynamics q)) _ _ k))
    (MkCostPtrs
       (fun k => p (Pointers.QQ (Pointers.qp_cost q)) _ _ k)
       (fun k => p (Pointers.RR (Pointers.qp_cost q)) _ _ k)
       (fun k => p (Pointers.SS (Pointers.qp_cost q)) _ _ k)
       (fun k => p (Pointers.qq (Pointers.qp_cost q)) _ _ k)
       (fun k => p (Pointers.rr (Pointers.qp_cost q)) _ _ k))
    (MkConstraintPtrs
       (fun k => p (Pointers.llg (Pointers.qp_constraints q)) _ _ k)
       (fun k => p (Pointers.CC (Pointers.qp_constraints q)) _ _ k)
       (fun k => p (Pointers.DD (Pointers.qp_constraints q)) _ _ k)
       (fun k => p (Pointers.llg (Pointers.qp_constraints q)) _ _ k)
       (fun k => p (Pointers.uug (Pointers.qp_constraints q)) _ _ k)).

(** The same data behind the pointers that [d_ocp_qp_set_all] is called
    with, stage by stage. *)
Definition same_data (a b : @ocp_qp_data F d) : Prop :=
  forall k : nat,
    [/\ [/\ AA (qp_dynamics a) k = AA (qp_dynamics b) k,
            BB (qp_dynamics a) k = BB (qp_dynamics b) k
          & bb (qp_dynamics a) k = bb (qp_dynamics b) k],
        [/\ QQ (qp_cost a) k = QQ (qp_cost b) k,
            RR (qp_cost a) k = RR (qp_cost b) k,
            SS (qp_cost a) k = SS (qp_cost b) k,
            qq (qp_cost a) k = qq (qp_cost b) k
          & rr (qp_cost a) k = rr (qp_cost b) k]
      & [/\ CC (qp_constraints a) k = CC (qp_constraints b) k,
            DD (qp_constraints a) k = DD (qp_constraints b) k,
            llg (qp_constraints a) k = llg (qp_constraints b) k
          & uug (qp_constraints a) k = uug (qp_constraints b) k]].

End Pointees.

(** HPIPM computes from what the pointers point to: the same structures as
    the functions of [HpipmSolverApi] on that data. *)
Definition computes_as {F : fieldType} {d : StageDims} {api : HpipmMemApi}
    (hpipm : Pointers.HpipmApi F api) (solver : HpipmSolverApi F d api) : Prop :=
  (forall q m qp data, same_data (pointees q m) data ->
     (Pointers.d_ocp_qp_set_all q m qp).1 = d_ocp_qp_set_all data qp) /\
  (forall qp sol arg ws m,
     (Pointers.d_ocp_qp_ipm_solve qp sol arg ws m).1
     = d_ocp_qp_ipm_solve qp sol arg ws).

(** The buffers that the transcription adds to the memory: [b0], [r0] and,
    with constraints, the bounds of the stages 0 to [n]. *)
Definition locals_of {F : fieldType} {d : StageDims} (n : nat)
    (x0 : 'cV[F]_(state_dim d 0)) (dynamics : dynamics_t F d) (cost : cost_t F d)
    (constraints : option (constraints_t F d)) : seq (option (matrix_t F)) :=
  Some (to_matrix_t (Lin.f (dynamics 0%N) + Lin.dfdx (dynamics 0%N) *m x0))
  :: Some (to_matrix_t (Quad.dfdu (cost 0%N) + Quad.dfdux (cost 0%N) *m x0))
  :: (if constraints is Some constr then
        map (fun k => Some (to_matrix_t (constraint_bound constr x0 k)))
            (iota 0 n.+1)
      else [::]).

(** The caller's buffers for a horizon of two stages: the six of the
    dynamics, the fifteen of the costs, the nine of the constraints, in this
    order; and the memory that holds the stage data there. *)
Definition toy_layout : Layout :=
  MkLayout (fun k => LinAt.Mk (3 * k) (3 * k + 1) (3 * k + 2))
           (fun k => QuadAt.Mk (6 + 5 * k) (6 + 5 * k + 1) (6 + 5 * k + 2)
                               (6 + 5 * k + 3) (6 + 5 * k + 4))
           (fun k => LinAt.Mk (21 + 3 * k) (21 + 3 * k + 1) (21 + 3 * k + 2)).

Definition toy_memory : memory rat :=
  flatten (map (fun k => [:: Some (to_matrix_t (Lin.f (toy_dynamics k)));
                             Some (to_matrix_t (Lin.dfdx (toy_dynamics k)));
                             Some (to_matrix_t (Lin.dfdu (toy_dynamics k)))])
               (iota 0 2))
  ++ flatten (map (fun k => [:: Some (to_matrix_t (Quad.dfdxx (toy_cost k)));
                                Some (to_matrix_t (Quad.dfdux (toy_cost k)));
                                Some (to_matrix_t (Quad.dfduu (toy_cost k)));
                                Some (to_matrix_t (Quad.dfdx (toy_cost k)));
                                Some (to_matrix_t (Quad.dfdu (toy_cost k)))])
                  (iota 0 3))
  ++ flatten (map (fun k => [:: Some (to_matrix_t (Lin.f (toy_constraints k)));
                                Some (to_matrix_t (Lin.dfdx (toy_constraints k)));
                                Some (to_matrix_t (Lin.dfdu (toy_constraints k)))])
                  (iota 0 3)).

(** An HPIPM that copies what it is given, and one that stores an empty
    matrix through the pointer [AA[0]] it receives. *)
Definition toy_hpipm : Pointers.HpipmApi rat toy_api := {|
  Pointers.d_ocp_qp_set_all := fun _ m (qp : @d_ocp_qp toy_api) => (qp.+1, m);
  Pointers.d_ocp_qp_ipm_solve := fun qp sol _ ws m => ((qp + sol)%N, ws.+1, m)
|}.

Definition storing_hpipm : Pointers.HpipmApi rat toy_api := {|
  Pointers.d_ocp_qp_set_all := fun q m (qp : @d_ocp_qp toy_api) =>
    (qp.+1,
     if nth None (Pointers.AA (Pointers.qp_dynamics q)) 0 is Some a
     then write a (mempty rat) m else m);
  Pointers.d_ocp_qp_ipm_solve := fun qp sol _ ws m => ((qp + sol)%N, ws.+1, m)
|}.

(* ===================================================================== *)
(** * Part II. Properties                                                  *)
(* ===================================================================== *)

(** ** [MemoryBlock::reserve] *)

Section MemoryBlockFacts.
Context {al : Allocator}.

Lemma fresh_free (p : pointer) (h : heap) : fresh (free p h) = fresh h.
Proof. by case: p. Qed.

(** A request that fits leaves the block and the heap alone. *)
Lemma reserve_fits (s : nat) (b : MemoryBlock) (h : heap) :
  (s <= size_ b)%N -> reserve s b h = (Returned, b, h).
Proof. by rewrite /reserve ltnNge => ->. Qed.

(** A larger request that [malloc] serves. *)
Lemma reserve_grows (s : nat) (b : MemoryBlock) (h : heap) :
  (size_ b < s)%N -> malloc_fails (free (ptr_ b) h) s = false ->
  reserve s b h =
  (Returned, Block (Some (fresh h)) s,
   Heap (fresh h :: live (free (ptr_ b) h)) (fresh h).+1).
Proof. by move=> lt ok; rewrite /reserve lt /malloc ok fresh_free. Qed.

(** A larger request that [malloc] refuses: the call throws; the pointer is
    null and the stored size is the old one. *)
Lemma reserve_throws (s : nat) (b : MemoryBlock) (h : heap) :
  (size_ b < s)%N -> malloc_fails (free (ptr_ b) h) s = true ->
  reserve s b h = (BadAlloc, Block None (size_ b), free (ptr_ b) h).
Proof. by move=> lt ko; rewrite /reserve lt /malloc ko. Qed.

(** One call never lowers the stored size. *)
Lemma reserve_size_le (s : nat) (b : MemoryBlock) (h : heap) :
  (size_ b <= size_ (reserve s b h).1.2)%N.
Proof.
rewrite /reserve; case: ltnP => // lt.
by case: (malloc _ _) => [[a|] h2] //=; exact: ltnW.
Qed.

(** After a call that returned, the block is large enough. *)
Lemma reserve_returned (s : nat) (b b' : MemoryBlock) (h h' : heap) :
  reserve s b h = (Returned, b', h') -> (s <= size_ b')%N.
Proof.
rewrite /reserve; case: ltnP => [lt|le]; last by case=> <- _.
by case: (malloc _ _) => [[a|] h2] //= [<- _].
Qed.

Lemma reserve_all_size_le (sizes : seq nat) (b : MemoryBlock) (h : heap) :
  (size_ b <= size_ (reserve_all sizes b h).1)%N.
Proof.
rewrite /reserve_all; elim: sizes b h => [|s sizes IH] b h //=.
have := reserve_size_le s b h.
case: (reserve s b h) => [[o b'] h'] /= le1.
exact: leq_trans le1 (IH b' h').
Qed.

End MemoryBlockFacts.

Example reserve_grow_example :
  @reserve serving_allocator 8 (Block (Some 0%N) 4) (Heap [:: 0%N] 1) =
  (Returned, Block (Some 1%N) 8, Heap [:: 1%N] 2).
Proof. by []. Qed.

Example reserve_fit_example :
  @reserve serving_allocator 3 (Block (Some 0%N) 4) (Heap [:: 0%N] 1) =
  (Returned, Block (Some 0%N) 4, Heap [:: 0%N] 1).
Proof. by []. Qed.

Example reserve_throw_example :
  @reserve (limited_allocator 6) 8 (Block (Some 0%N) 4) (Heap [:: 0%N] 1) =
  (BadAlloc, Block None 4, Heap [::] 1).
Proof. by []. Qed.

(** C5. [MemoryBlock::reserve] is grow-only.  A request [s] that does not
    exceed the stored size leaves the block (and the heap) completely
    unchanged; a larger request makes the stored size [s] when the call
    returns, and when [malloc] fails the call throws with the stored size
    as it was; hence, over any sequence of calls, the stored size never
    decreases. *)
Theorem reserve_grow_only {al : Allocator} (s : nat) (b : MemoryBlock) (h : heap) :
  [/\ (s <= size_ b)%N -> reserve s b h = (Returned, b, h),
      (size_ b < s)%N -> malloc_fails (free (ptr_ b) h) s = false ->
        (reserve s b h).1 = (Returned, Block (Some (fresh h)) s),
      (size_ b < s)%N -> malloc_fails (free (ptr_ b) h) s = true ->
        (reserve s b h).1 = (BadAlloc, Block None (size_ b))
    & forall sizes : seq nat, (size_ b <= size_ (reserve_all sizes b h).1)%N].
Proof.
split.
- exact: reserve_fits.
- by move=> lt ok; rewrite reserve_grows.
- by move=> lt ko; rewrite reserve_throws.
- by move=> sizes; exact: reserve_all_size_le.
Qed.

(** The theorem at work: a block of size 4 asked for 3, 8, 2 and 6 bytes. *)
Lemma reserve_grow_only_witness :
  @reserve serving_allocator 3 (Block (Some 0%N) 4) (Heap [:: 0%N] 1)
    = (Returned, Block (Some 0%N) 4, Heap [:: 0%N] 1) /\
  (@reserve serving_allocator 8 (Block (Some 0%N) 4) (Heap [:: 0%N] 1)).1
    = (Returned, Block (Some 1%N) 8) /\
  (@reserve (limited_allocator 6) 8 (Block (Some 0%N) 4) (Heap [:: 0%N] 1)).1
    = (BadAlloc, Block None 4) /\
  (4 <= size_ (@reserve_all serving_allocator [:: 3; 8; 2; 6]%N
                 (Block (Some 0%N) 4) (Heap [:: 0%N] 1)).1)%N.
Proof.
split.
  have [H _ _ _] :=
    @reserve_grow_only serving_allocator 3 (Block (Some 0%N) 4) (Heap [:: 0%N] 1).
  exact: H.
split.
  have [_ H _ _] :=
    @reserve_grow_only serving_allocator 8 (Block (Some 0%N) 4) (Heap [:: 0%N] 1).
  exact: H.
split.
  have [_ _ H _] :=
    @reserve_grow_only (limited_allocator 6) 8 (Block (Some 0%N) 4) (Heap [:: 0%N] 1).
  exact: H.
have [_ _ _ H] :=
  @reserve_grow_only serving_allocator 4 (Block (Some 0%N) 4) (Heap [:: 0%N] 1).
exact: (H [:: 3; 8; 2; 6]%N).
Defined.

(** ** [HpipmInterface::Impl::initializeMemory] *)

Section WorkspaceFacts.
Context {api : HpipmMemApi} {al : Allocator}.

Lemma zero_first_idem (v : seq nat) : zero_first (zero_first v) = zero_first v.
Proof. by case: v. Qed.

Lemma zero_first_behead (v w : seq nat) :
  v <> [::] -> w <> [::] -> behead v = behead w -> zero_first v = zero_first w.
Proof. by case: v w => [|x v] [|y w] //= _ _ ->. Qed.

(** The requests that differ only in [nx[0]] are the same request once
    [nx[0]] has been overwritten. *)
Lemma set_nx0_zero_eq (a b : OcpSize) :
  differ_only_in_nx0 a b -> set_nx0_zero a = set_nx0_zero b.
Proof.
case: a b => [Na nua nxa nbua nbxa nga nsbua nsbxa nsga]
             [Nb nub nxb nbub nbxb ngb nsbub nsbxb nsgb] /=.
rewrite /differ_only_in_nx0 /set_nx0_zero /=.
case=> [[-> -> -> ->]] [[-> -> -> ->]] [na nb eqt].
by rewrite (zero_first_behead na nb eqt).
Qed.

(** The early return. *)
Lemma initializeMemory_equal (ocpSize : OcpSize) (settings : Settings)
    (t : Impl) (h : heap) :
  isSizeEqual t (set_nx0_zero ocpSize) && isSettingsEqual t settings ->
  initializeMemory ocpSize settings (t, h) = (Ok tt, (t, h)).
Proof. by rewrite /initializeMemory /bind /this_ /= => ->. Qed.

(** [isSizeEqual] decides the equality of the stored and the given size. *)
Lemma isSizeEqualP (t : Impl) (s : OcpSize) :
  reflect (ocpSize_ t = s) (isSizeEqual t s).
Proof.
rewrite /isSizeEqual; case: (ocpSize_ t) s => [a1 a2 a3 a4 a5 a6 a7 a8 a9]
  [b1 b2 b3 b4 b5 b6 b7 b8 b9] /=.
apply: (iffP idP).
  by do 8![case/andP]; do 9![move/eqP=> ->].
by case=> -> -> -> -> -> -> -> -> ->; rewrite !eqxx.
Qed.

(** A preparation that ran and returned leaves a prepared object. *)
Lemma initializeMemory_prepared (ocpSize : OcpSize) (settings : Settings)
    (t t' : Impl) (h h' : heap) :
  isSizeEqual t (set_nx0_zero ocpSize) && isSettingsEqual t settings = false ->
  initializeMemory ocpSize settings (t, h) = (Ok tt, (t', h')) ->
  prepared (set_nx0_zero ocpSize) settings t'.
Proof.
move=> neq; rewrite /initializeMemory /bind /this_ /= neq.
rewrite /assign /reserve_member /applySettings /bind /assign /=.
case E1: (reserve _ _ _) => [[[] b1] h1] //=.
case E2: (reserve _ _ _) => [[[] b2] h2] //=.
case E3: (reserve _ _ _) => [[[] b3] h3] //=.
case E4: (reserve _ _ _) => [[[] b4] h4] //=.
case E5: (reserve _ _ _) => [[[] b5] h5] //=.
case=> <- _; rewrite /prepared /=; do !split=> //.
- exact: reserve_returned E1.
- exact: reserve_returned E2.
- exact: reserve_returned E3.
- exact: reserve_returned E4.
- exact: reserve_returned E5.
Qed.

(** Preparing a prepared object again changes nothing, also when the
    comparison with the stored settings fails. *)
Lemma initializeMemory_again (ocpSize : OcpSize) (settings : Settings)
    (t : Impl) (h : heap) :
  prepared (set_nx0_zero ocpSize) settings t ->
  initializeMemory ocpSize settings (t, h) = (Ok tt, (t, h)).
Proof.
case: t => [se os dm di qm q sm sl am ar im ws] /=.
rewrite /prepared /=; case=> [[e1 e2 e3]] [[e4 e5 e6 e7]] [l1 l2 l3 l4 l5].
rewrite /initializeMemory /bind /this_ /=; case: ifP => // _.
rewrite /assign /reserve_member /applySettings /bind /assign /=.
rewrite (reserve_fits _ l1) /= -e3.
rewrite (reserve_fits _ l2) /= -e4.
rewrite (reserve_fits _ l3) /= -e5.
rewrite (reserve_fits _ l4) /= -e6.
rewrite (reserve_fits _ l5) /= -e7.
by rewrite e1 e2.
Qed.

(** After every call, returned or thrown, the stored size is the request
    with [nx[0]] overwritten. *)
Lemma initializeMemory_stored (ocpSize : OcpSize) (settings : Settings)
    (t : Impl) (h : heap) :
  ocpSize_ (initializeMemory ocpSize settings (t, h)).2.1 = set_nx0_zero ocpSize.
Proof.
rewrite /initializeMemory /bind /this_ /=; case: ifP => [/andP [/isSizeEqualP]|_] //=.
rewrite /assign /reserve_member /applySettings /bind /assign /=.
case: (reserve _ _ _) => [[[] b1] h1] //=.
case: (reserve _ _ _) => [[[] b2] h2] //=.
case: (reserve _ _ _) => [[[] b3] h3] //=.
case: (reserve _ _ _) => [[[] b4] h4] //=.
by case: (reserve _ _ _) => [[[] b5] h5].
Qed.

End WorkspaceFacts.

Example toy_first_call (nx0 : nat) (alpha : option nat) :
  @initializeMemory toy_api serving_allocator (toy_size nx0) (toy_settings alpha)
     (toy_impl, Heap [::] 0) = (Ok tt, (toy_prepared alpha, toy_heap)).
Proof. by case: alpha => [a|]. Qed.

(** C4. [initializeMemory] is idempotent on equal inputs.  Whenever the
    requested size (its [nx[0]] overwritten) passes [isSizeEqual] and the
    settings pass [isSettingsEqual], the call returns at once: the members,
    the five memory blocks and the heap are exactly as before.  And a call
    repeated with the arguments of a call that returned changes nothing and
    allocates nothing, whatever the comparisons say. *)
Theorem initializeMemory_idempotent {api : HpipmMemApi} {al : Allocator}
    (ocpSize : OcpSize) (settings : Settings) (t : Impl) (h : heap) :
  (isSizeEqual t (set_nx0_zero ocpSize) && isSettingsEqual t settings ->
   initializeMemory ocpSize settings (t, h) = (Ok tt, (t, h))) /\
  (forall (t1 : Impl) (h1 : heap),
     initializeMemory ocpSize settings (t, h) = (Ok tt, (t1, h1)) ->
     initializeMemory ocpSize settings (t1, h1) = (Ok tt, (t1, h1))).
Proof.
split; first exact: initializeMemory_equal.
move=> t1 h1.
case eq: (isSizeEqual t (set_nx0_zero ocpSize) && isSettingsEqual t settings).
  by rewrite initializeMemory_equal // => -[<- <-]; rewrite initializeMemory_equal.
by move/(initializeMemory_prepared eq); exact: initializeMemory_again.
Qed.

(** The theorem at work: on the object left by a first call the comparisons
    succeed and a second call returns at once; with a NaN setting the
    comparison fails and the second call still changes nothing. *)
Lemma initializeMemory_idempotent_witness :
  [/\ @initializeMemory toy_api serving_allocator (toy_size 2)
        (toy_settings (Some 5%N)) (toy_prepared (Some 5%N), toy_heap)
      = (Ok tt, (toy_prepared (Some 5%N), toy_heap)),
      @isSettingsEqual toy_api (toy_prepared None) (toy_settings None) = false
    & @initializeMemory toy_api serving_allocator (toy_size 2)
        (toy_settings None) (toy_prepared None, toy_heap)
      = (Ok tt, (toy_prepared None, toy_heap))].
Proof.
split.
- have [H _] := @initializeMemory_idempotent toy_api serving_allocator (toy_size 2)
    (toy_settings (Some 5%N)) (toy_prepared (Some 5%N)) toy_heap.
  exact: H.
- by [].
- have [_ H] := @initializeMemory_idempotent toy_api serving_allocator (toy_size 2)
    (toy_settings None) toy_impl (Heap [::] 0).
  exact: H.
Defined.

(** C10. [initializeMemory] overwrites [nx[0]] of the request with zero
    before it compares and stores it.  Two requests that differ only in
    [nx[0]] have the same outcome from every state (the same result, the same
    members and the same heap: one is an early return exactly when the other
    is); and after every call on a request with a stage-0 state dimension,
    returned or thrown, the stored [nx] starts with zero. *)
Theorem initializeMemory_nx0 {api : HpipmMemApi} {al : Allocator} :
  (forall (a b : OcpSize) (settings : Settings) (s : Impl * heap),
     differ_only_in_nx0 a b ->
     initializeMemory a settings s = initializeMemory b settings s) /\
  (forall (ocpSize : OcpSize) (settings : Settings) (t : Impl) (h : heap),
     nx ocpSize <> [::] ->
     nx (ocpSize_ (initializeMemory ocpSize settings (t, h)).2.1)
     = 0%N :: behead (nx ocpSize)).
Proof.
split.
  move=> a b settings s /set_nx0_zero_eq eqab.
  by rewrite /initializeMemory eqab.
move=> ocpSize settings t h ne.
rewrite initializeMemory_stored /=.
by case: (nx ocpSize) ne.
Qed.

(** The theorem at work: requests with [nx[0] = 2] and [nx[0] = 7]. *)
Lemma initializeMemory_nx0_witness :
  (@initializeMemory toy_api serving_allocator (toy_size 2)
     (toy_settings (Some 5%N)) (toy_impl, Heap [::] 0)
   = @initializeMemory toy_api serving_allocator (toy_size 7)
     (toy_settings (Some 5%N)) (toy_impl, Heap [::] 0)) /\
  nx (ocpSize_ (@initializeMemory toy_api serving_allocator (toy_size 7)
                  (toy_settings (Some 5%N)) (toy_impl, Heap [::] 0)).2.1)
  = [:: 0; 2; 2]%N.
Proof.
have [H1 H2] := @initializeMemory_nx0 toy_api serving_allocator.
split.
  by apply: H1; rewrite /differ_only_in_nx0 /=; do !split.
by apply: (H2 (toy_size 7)).
Defined.

(** ** Arrays of stage pointers *)

Section ArrayFacts.
Variable T : nat -> Type.

Lemma store_same (n : nat) (a : array T) (i : nat) (p : option (T i)) :
  (i < n)%N -> store n a i p i = p.
Proof.
move=> lt; rewrite /store lt; case: eqP => // e.
by rewrite (eq_axiomK e).
Qed.

Lemma store_other (n : nat) (a : array T) (i k : nat) (p : option (T i)) :
  i != k -> store n a i p k = a k.
Proof. by move=> /eqP neq; rewrite /store; case: ifP => // _; case: eqP. Qed.

Lemma store_outside (n : nat) (a : array T) (i k : nat) (p : option (T i)) :
  (n <= i)%N -> store n a i p k = a k.
Proof. by rewrite /store ltnNge => ->. Qed.

Lemma emplace_back_same (a : array T) (i : nat) (v : T i) :
  emplace_back a i v i = Some v.
Proof. by rewrite /emplace_back; case: eqP => // e; rewrite (eq_axiomK e). Qed.

Lemma emplace_back_other (a : array T) (i k : nat) (v : T i) :
  i != k -> emplace_back a i v k = a k.
Proof. by move=> /eqP neq; rewrite /emplace_back; case: eqP. Qed.

(** A loop that stores [g k] at every index [k] it visits: afterwards the
    visited entries inside the vector hold [g], the others are untouched. *)
Lemma foldl_store (S : Type) (field : S -> array T) (body : S -> nat -> S)
    (n : nat) (g : forall k, option (T k)) :
  (forall q k j, field (body q k) j = store n (field q) k (g k) j) ->
  forall (ks : seq nat) (q : S) (j : nat),
    field (foldl body q ks) j
    = if (j \in ks) && (j < n)%N then g j else field q j.
Proof.
move=> step; elim=> [|k ks IH] q j //=.
rewrite IH in_cons step; case: (ltnP j n) => [lt|le]; rewrite ?andbT ?andbF.
  case: (j \in ks); rewrite ?orbT ?orbF //.
  case: (eqVneq j k) lt => [-> lt|neq _]; first by rewrite store_same.
  by rewrite store_other // eq_sym.
case: (eqVneq k j) le => [-> le|neq _]; first by rewrite store_outside.
by rewrite store_other.
Qed.

End ArrayFacts.

(** ** Transcription *)

Lemma in_dynamics_loop (k n : nat) :
  (k \in iota 1 (n - 1)) && (k < n)%N = (0 < k < n)%N.
Proof.
rewrite mem_iota; case: n => [|n]; first by rewrite !ltn0 !andbF.
by rewrite subn1 /= add1n -andbA andbb.
Qed.

Lemma in_cost_loop (k n : nat) :
  (k \in iota 1 n) && (k < n.+1)%N = (0 < k <= n)%N.
Proof. by rewrite mem_iota add1n ltnS -andbA andbb. Qed.

Lemma in_constraint_loop (k n : nat) :
  (k \in iota 0 n.+1) && (k < n.+1)%N = (k <= n)%N.
Proof. by rewrite mem_iota add0n ltnS /= andbb. Qed.

Section TranscriptionFacts.
Context {F : fieldType} {d : StageDims}.
Variables (n : nat) (x0 : 'cV[F]_(state_dim d 0)).
Variables (dynamics : dynamics_t F d) (cost : cost_t F d).

Let dyn_ptrs := transcribe_dynamics n x0 dynamics.
Let cost_ptrs := transcribe_cost n x0 cost.

(** The dynamics of the stages after the first. *)
Lemma transcribe_dynamics_later (k : nat) :
  (0 < k < n)%N ->
  [/\ AA dyn_ptrs k = Some (Lin.dfdx (dynamics k)),
      BB dyn_ptrs k = Some (Lin.dfdu (dynamics k))
    & bb dyn_ptrs k = Some (Lin.f (dynamics k))].
Proof.
move=> kn; rewrite /dyn_ptrs /transcribe_dynamics; split.
- rewrite (@foldl_store _ _ (@AA F d) (dynamics_stage n dynamics) n
            (fun k => data (Lin.dfdx (dynamics k)))) //.
  by rewrite in_dynamics_loop kn.
- rewrite (@foldl_store _ _ (@BB F d) (dynamics_stage n dynamics) n
            (fun k => data (Lin.dfdu (dynamics k)))) //.
  by rewrite in_dynamics_loop kn.
- rewrite (@foldl_store _ _ (@bb F d) (dynamics_stage n dynamics) n
            (fun k => data (Lin.f (dynamics k)))) //.
  by rewrite in_dynamics_loop kn.
Qed.

(** The dynamics of the first stage: [b0] holds the absorbed initial state. *)
Lemma transcribe_dynamics_first :
  (0 < n)%N ->
  [/\ AA dyn_ptrs 0 = Some (Lin.dfdx (dynamics 0)),
      BB dyn_ptrs 0 = Some (Lin.dfdu (dynamics 0))
    & bb dyn_ptrs 0 = Some (Lin.f (dynamics 0) + Lin.dfdx (dynamics 0) *m x0)].
Proof.
move=> n0; rewrite /dyn_ptrs /transcribe_dynamics; split.
- rewrite (@foldl_store _ _ (@AA F d) (dynamics_stage n dynamics) n
            (fun k => data (Lin.dfdx (dynamics k)))) //.
  by rewrite in_dynamics_loop /= store_same.
- rewrite (@foldl_store _ _ (@BB F d) (dynamics_stage n dynamics) n
            (fun k => data (Lin.dfdu (dynamics k)))) //.
  by rewrite in_dynamics_loop /= store_same.
- rewrite (@foldl_store _ _ (@bb F d) (dynamics_stage n dynamics) n
            (fun k => data (Lin.f (dynamics k)))) //.
  by rewrite in_dynamics_loop /= store_same.
Qed.

(** The costs of the stages after the first. *)
Lemma transcribe_cost_later (k : nat) :
  (0 < k <= n)%N ->
  [/\ QQ cost_ptrs k = Some (Quad.dfdxx (cost k)),
      RR cost_ptrs k = Some (Quad.dfduu (cost k)),
      SS cost_ptrs k = Some (Quad.dfdux (cost k)),
      qq cost_ptrs k = Some (Quad.dfdx (cost k))
    & rr cost_ptrs k = Some (Quad.dfdu (cost k))].
Proof.
move=> kn; rewrite /cost_ptrs /transcribe_cost; split.
- rewrite (@foldl_store _ _ (@QQ F d) (cost_stage n cost) n.+1
            (fun k => data (Quad.dfdxx (cost k)))) //.
  by rewrite in_cost_loop kn.
- rewrite (@foldl_store _ _ (@RR F d) (cost_stage n cost) n.+1
            (fun k => data (Quad.dfduu (cost k)))) //.
  by rewrite in_cost_loop kn.
- rewrite (@foldl_store _ _ (@SS F d) (cost_stage n cost) n.+1
            (fun k => data (Quad.dfdux (cost k)))) //.
  by rewrite in_cost_loop kn.
- rewrite (@foldl_store _ _ (@qq F d) (cost_stage n cost) n.+1
            (fun k => data (Quad.dfdx (cost k)))) //.
  by rewrite in_cost_loop kn.
- rewrite (@foldl_store _ _ (@rr F d) (cost_stage n cost) n.+1
            (fun k => data (Quad.dfdu (cost k)))) //.
  by rewrite in_cost_loop kn.
Qed.

(** The costs of the first stage: [r0] is adapted, the rest is copied. *)
Lemma transcribe_cost_first :
  [/\ QQ cost_ptrs 0 = Some (Quad.dfdxx (cost 0)),
      RR cost_ptrs 0 = Some (Quad.dfduu (cost 0)),
      SS cost_ptrs 0 = Some (Quad.dfdux (cost 0)),
      qq cost_ptrs 0 = Some (Quad.dfdx (cost 0))
    & rr cost_ptrs 0 = Some (Quad.dfdu (cost 0) + Quad.dfdux (cost 0) *m x0)].
Proof.
rewrite /cost_ptrs /transcribe_cost; split.
- rewrite (@foldl_store _ _ (@QQ F d) (cost_stage n cost) n.+1
            (fun k => data (Quad.dfdxx (cost k)))) //.
  by rewrite in_cost_loop /= store_same.
- rewrite (@foldl_store _ _ (@RR F d) (cost_stage n cost) n.+1
            (fun k => data (Quad.dfduu (cost k)))) //.
  by rewrite in_cost_loop /= store_same.
- rewrite (@foldl_store _ _ (@SS F d) (cost_stage n cost) n.+1
            (fun k => data (Quad.dfdux (cost k)))) //.
  by rewrite in_cost_loop /= store_same.
- rewrite (@foldl_store _ _ (@qq F d) (cost_stage n cost) n.+1
            (fun k => data (Quad.dfdx (cost k)))) //.
  by rewrite in_cost_loop /= store_same.
- rewrite (@foldl_store _ _ (@rr F d) (cost_stage n cost) n.+1
            (fun k => data (Quad.dfdu (cost k)))) //.
  by rewrite in_cost_loop /= store_same.
Qed.

End TranscriptionFacts.

Section ConstraintFacts.
Context {F : fieldType} {d : StageDims}.
Variables (n : nat) (x0 : 'cV[F]_(state_dim d 0)).

(** What [boundData[k]] holds when the two bound pointers are taken. *)
Lemma boundData_written (constr : constraints_t F d)
    (a : array (fun k => 'cV[F]_(constr_dim d k))) (k : nat) :
  at_initial_stage k (emplace_back a k (- Lin.f (constr k)))
                   (fun v => v - Lin.dfdx (constr 0%N) *m x0) k
  = Some (constraint_bound constr x0 k).
Proof. by case: k => [|k] /=; rewrite emplace_back_same. Qed.

Lemma transcribe_constraints_some (constr : constraints_t F d) (k : nat) :
  (k <= n)%N ->
  let p := transcribe_constraints n x0 (Some constr) in
  [/\ CC p k = Some (Lin.dfdx (constr k)),
      DD p k = Some (Lin.dfdu (constr k)),
      llg p k = Some (constraint_bound constr x0 k)
    & uug p k = Some (constraint_bound constr x0 k)].
Proof.
move=> kn p; rewrite /p /transcribe_constraints; split.
- rewrite (@foldl_store _ _ (@CC F d) (constraint_stage n x0 constr) n.+1
            (fun k => data (Lin.dfdx (constr k)))) //.
  by rewrite in_constraint_loop kn.
- rewrite (@foldl_store _ _ (@DD F d) (constraint_stage n x0 constr) n.+1
            (fun k => data (Lin.dfdu (constr k)))) //.
  by rewrite in_constraint_loop kn.
- rewrite (@foldl_store _ _ (@llg F d) (constraint_stage n x0 constr) n.+1
            (fun k => Some (constraint_bound constr x0 k))).
    by move=> q i j; rewrite /constraint_stage /= boundData_written.
  by rewrite in_constraint_loop kn.
- rewrite (@foldl_store _ _ (@uug F d) (constraint_stage n x0 constr) n.+1
            (fun k => Some (constraint_bound constr x0 k))).
    by move=> q i j; rewrite /constraint_stage /= boundData_written.
  by rewrite in_constraint_loop kn.
Qed.

(** Without constraints every pointer stays null. *)
Lemma transcribe_constraints_none (k : nat) :
  let p := @transcribe_constraints F d n x0 None in
  [/\ CC p k = None, DD p k = None, llg p k = None & uug p k = None].
Proof. by []. Qed.

End ConstraintFacts.

(** C1. The transcription of [solve] absorbs the initial state into the
    first stage and copies the later stages.  For a horizon [n > 0]: the
    dynamics residual handed to the solver at stage 0 is [f0 + A0 * x0] and
    the input-linear cost term is [dfdu0 + dfdux0 * x0]; with constraints,
    the bound of stage 0 is [-e0 - C0 * x0]; and at every stage [k >= 1]
    the pointers [A, B, b] (for [k < n]) and [Q, R, S, q, r] (for [k <= n])
    point to the data of the stage-[k] approximation itself. *)
Theorem transcribe_stage0_folded {F : fieldType} {d : StageDims} (n : nat)
    (x0 : 'cV[F]_(state_dim d 0)) (dynamics : dynamics_t F d) (cost : cost_t F d)
    (constraints : option (constraints_t F d)) :
  (0 < n)%N ->
  let qp := transcribe n x0 dynamics cost constraints in
  [/\ bb (qp_dynamics qp) 0
        = Some (Lin.f (dynamics 0%N) + Lin.dfdx (dynamics 0%N) *m x0),
      rr (qp_cost qp) 0
        = Some (Quad.dfdu (cost 0%N) + Quad.dfdux (cost 0%N) *m x0),
      forall constr, constraints = Some constr ->
        llg (qp_constraints qp) 0
          = Some (- Lin.f (constr 0%N) - Lin.dfdx (constr 0%N) *m x0) /\
        uug (qp_constraints qp) 0
          = Some (- Lin.f (constr 0%N) - Lin.dfdx (constr 0%N) *m x0),
      forall k, (0 < k < n)%N ->
        [/\ AA (qp_dynamics qp) k = Some (Lin.dfdx (dynamics k)),
            BB (qp_dynamics qp) k = Some (Lin.dfdu (dynamics k))
          & bb (qp_dynamics qp) k = Some (Lin.f (dynamics k))]
    & forall k, (0 < k <= n)%N ->
        [/\ QQ (qp_cost qp) k = Some (Quad.dfdxx (cost k)),
            RR (qp_cost qp) k = Some (Quad.dfduu (cost k)),
            SS (qp_cost qp) k = Some (Quad.dfdux (cost k)),
            qq (qp_cost qp) k = Some (Quad.dfdx (cost k))
          & rr (qp_cost qp) k = Some (Quad.dfdu (cost k))]].
Proof.
move=> n0 /=; split.
- by have [] := transcribe_dynamics_first x0 dynamics n0.
- by have [] := transcribe_cost_first n x0 cost.
- move=> constr ->.
  by have [] := @transcribe_constraints_some F d n x0 constr 0 (leq0n n).
- by move=> k kn; exact: transcribe_dynamics_later.
- by move=> k kn; exact: transcribe_cost_later.
Qed.

(** C3. Both general-constraint bounds of a stage are the same pointer, to
    [boundData[k]].  At every stage [k <= n] the lower and the upper bound
    handed to the solver are equal; with constraints [C dx + D du + e = 0]
    they are [-e] at the stages [k >= 1] and [-e0 - C0 * x0] at stage 0;
    without constraints both are null. *)
Theorem transcribe_bounds_coincide {F : fieldType} {d : StageDims} (n : nat)
    (x0 : 'cV[F]_(state_dim d 0)) (dynamics : dynamics_t F d) (cost : cost_t F d)
    (constraints : option (constraints_t F d)) (k : nat) :
  (k <= n)%N ->
  let qp := qp_constraints (transcribe n x0 dynamics cost constraints) in
  [/\ llg qp k = uug qp k,
      forall constr, constraints = Some constr ->
        llg qp 0 = Some (- Lin.f (constr 0%N) - Lin.dfdx (constr 0%N) *m x0),
      forall constr, constraints = Some constr -> (0 < k)%N ->
        llg qp k = Some (- Lin.f (constr k))
    & constraints = None -> llg qp k = None].
Proof.
move=> kn /=; split.
- case: constraints => [constr|] //.
  by have [_ _ -> ->] := @transcribe_constraints_some F d n x0 constr k kn.
- move=> constr ->.
  by have [] := @transcribe_constraints_some F d n x0 constr 0 (leq0n n).
- move=> constr -> k0.
  have [_ _ -> _] := @transcribe_constraints_some F d n x0 constr k kn.
  by case: k k0 {kn}.
- by move=> ->.
Qed.

(** ** Trajectories *)

Section SeqFacts.
Variables (A : Type) (dflt : A).

Lemma size_resize (n : nat) (s : seq A) : size (resize dflt n s) = n.
Proof.
rewrite /resize size_cat size_take size_nseq.
case: (ltnP n (size s)) => [lt|le]; last by rewrite subnKC.
by move: (ltnW lt); rewrite -subn_eq0 => /eqP ->; rewrite addn0.
Qed.

(** A loop of writes [traj[k] = g k] inside the vector keeps its length. *)
Lemma size_foldl_set_nth (g : nat -> A) (ks : seq nat) (s : seq A) :
  all (fun k => k < size s)%N ks ->
  size (foldl (fun traj k => set_nth dflt traj k (g k)) s ks) = size s.
Proof.
elim: ks s => [|k ks IH] s //= /andP [lt rest].
have sz : size (set_nth dflt s k (g k)) = size s.
  by rewrite size_set_nth; apply/maxn_idPr.
by rewrite IH sz.
Qed.

(** ... and leaves [g k] at the indices it visits. *)
Lemma nth_foldl_set_nth (g : nat -> A) (ks : seq nat) (s : seq A) (j : nat) :
  nth dflt (foldl (fun traj k => set_nth dflt traj k (g k)) s ks) j
  = if j \in ks then g j else nth dflt s j.
Proof.
elim: ks s => [|k ks IH] s //=.
rewrite IH in_cons nth_set_nth /=.
by case: (j \in ks); rewrite ?orbT //= orbF; case: eqP => // ->.
Qed.

End SeqFacts.

Section SolveFacts.
Context {F : fieldType} {d : StageDims} {api : HpipmMemApi}
        {solver : HpipmSolverApi F d api}.

Lemma getStateSolution_size (t : Impl) (n0 : nat) (x0 : 'cV[F]_n0)
    (traj : seq (vector_t F)) :
  size (getStateSolution t x0 traj) = (N (ocpSize_ t)).+1.
Proof.
have sz : size (set_nth (vempty F) (resize (vempty F) (N (ocpSize_ t)).+1 traj) 0
                        (to_vector_t x0)) = (N (ocpSize_ t)).+1.
  by rewrite size_set_nth size_resize; apply/maxn_idPr.
rewrite /getStateSolution size_foldl_set_nth sz //.
by apply/allP => k; rewrite mem_iota add1n ltnS => /andP [].
Qed.

Lemma getStateSolution_front (t : Impl) (n0 : nat) (x0 : 'cV[F]_n0)
    (traj : seq (vector_t F)) :
  nth (vempty F) (getStateSolution t x0 traj) 0 = to_vector_t x0.
Proof. by rewrite /getStateSolution nth_foldl_set_nth mem_iota /= nth_set_nth. Qed.

Lemma getStateSolution_later (t : Impl) (n0 : nat) (x0 : 'cV[F]_n0)
    (traj : seq (vector_t F)) (k : nat) :
  (0 < k <= N (ocpSize_ t))%N ->
  nth (vempty F) (getStateSolution t x0 traj) k
  = to_vector_t (d_ocp_qp_sol_get_x k (qpSol_ t) (nth 0%N (nx (ocpSize_ t)) k)).
Proof.
by move=> kn; rewrite /getStateSolution nth_foldl_set_nth mem_iota add1n ltnS kn.
Qed.

Lemma getInputSolution_size (t : Impl) (traj : seq (vector_t F)) :
  size (getInputSolution t traj) = N (ocpSize_ t).
Proof.
rewrite /getInputSolution size_foldl_set_nth size_resize //.
by apply/allP => k; rewrite mem_iota add0n => /andP [].
Qed.

Lemma getInputSolution_nth (t : Impl) (traj : seq (vector_t F)) (k : nat) :
  (k < N (ocpSize_ t))%N ->
  nth (vempty F) (getInputSolution t traj) k
  = to_vector_t (d_ocp_qp_sol_get_u k (qpSol_ t) (nth 0%N (nu (ocpSize_ t)) k)).
Proof.
by move=> kn; rewrite /getInputSolution nth_foldl_set_nth mem_iota add0n kn.
Qed.

(** The object after [solve]: the structures written by HPIPM apart, the
    members are the ones before. *)
Lemma solve_ocpSize (x0 : 'cV[F]_(state_dim d 0)) (verbose : bool) (s : SolveState) :
  ocpSize_ (this (solve x0 verbose s).2) = ocpSize_ (this s).
Proof. by rewrite /solve; case: (d_ocp_qp_ipm_solve _ _ _ _). Qed.

Lemma solve_trajectories (x0 : 'cV[F]_(state_dim d 0)) (verbose : bool)
    (s : SolveState) :
  let s' := (solve x0 verbose s).2 in
  stateTrajectory s' = getStateSolution (this s') x0 (stateTrajectory s) /\
  inputTrajectory s' = getInputSolution (this s') (inputTrajectory s).
Proof. by rewrite /solve; case: (d_ocp_qp_ipm_solve _ _ _ _). Qed.

Lemma solve_status (x0 : 'cV[F]_(state_dim d 0)) (verbose : bool) (s : SolveState) :
  (solve x0 verbose s).1
  = hpipm_status_of_int
      (d_ocp_qp_ipm_get_status (workspace_ (this (solve x0 verbose s).2))).
Proof. by rewrite /solve; case: (d_ocp_qp_ipm_solve _ _ _ _). Qed.

Lemma hpipm_status_of_int_code (flag : int) :
  flag \in [:: 0; 1; 2; 3; 4] ->
  exists2 st, hpipm_status_of_int flag = Some st & hpipm_status_code st = flag.
Proof.
rewrite !inE; case/or4P=> [/eqP ->|/eqP ->|/eqP ->|/orP [] /eqP ->].
- by exists SUCCESS.
- by exists MAX_ITER.
- by exists MIN_STEP.
- by exists NAN_SOL.
- by exists INCONS_EQ.
Qed.

End SolveFacts.

(** The theorem C1 at work on a horizon of two stages. *)
Lemma transcribe_stage0_folded_witness :
  (0 < 2)%N /\
  bb (qp_dynamics (transcribe 2 toy_x0 toy_dynamics toy_cost (Some toy_constraints))) 0
  = Some (const_mx 7%:Q + const_mx 2%:Q *m toy_x0).
Proof.
split; first by [].
by have [] := @transcribe_stage0_folded rat toy_dims 2 toy_x0 toy_dynamics toy_cost
                (Some toy_constraints) isT.
Defined.

(** The theorem C3 at work at the last stage of a horizon of two stages. *)
Lemma transcribe_bounds_coincide_witness :
  (2 <= 2)%N /\
  llg (qp_constraints (transcribe 2 toy_x0 toy_dynamics toy_cost (Some toy_constraints))) 2
  = uug (qp_constraints (transcribe 2 toy_x0 toy_dynamics toy_cost (Some toy_constraints))) 2.
Proof.
split; first by [].
by have [] := @transcribe_bounds_coincide rat toy_dims 2 toy_x0 toy_dynamics toy_cost
                (Some toy_constraints) 2 isT.
Defined.

(** C8. The shapes of the trajectories after [solve] on a horizon [n]: the
    state trajectory has [n + 1] entries, the first is the argument [x0]
    itself and entry [k >= 1] has the size [nx[k]]; the input trajectory
    has [n] entries and entry [k] has the size [nu[k]]. *)
Theorem solve_trajectory_shapes {F : fieldType} {d : StageDims} {api : HpipmMemApi}
    {solver : HpipmSolverApi F d api}
    (x0 : 'cV[F]_(state_dim d 0)) (verbose : bool) (s : SolveState) :
  let n := N (ocpSize_ (this s)) in
  let s' := (solve x0 verbose s).2 in
  [/\ size (stateTrajectory s') = n.+1,
      nth (vempty F) (stateTrajectory s') 0 = to_vector_t x0,
      forall k, (0 < k <= n)%N ->
        vsize (nth (vempty F) (stateTrajectory s') k)
        = nth 0%N (nx (ocpSize_ (this s))) k,
      size (inputTrajectory s') = n
    & forall k, (k < n)%N ->
        vsize (nth (vempty F) (inputTrajectory s') k)
        = nth 0%N (nu (ocpSize_ (this s))) k].
Proof.
move=> n s'; have [-> ->] := solve_trajectories x0 verbose s.
have eqn : N (ocpSize_ (this s')) = n by rewrite /s' solve_ocpSize.
split.
- by rewrite getStateSolution_size eqn.
- exact: getStateSolution_front.
- move=> k kn; rewrite getStateSolution_later ?eqn //=.
  by rewrite /s' solve_ocpSize.
- by rewrite getInputSolution_size eqn.
- move=> k kn; rewrite getInputSolution_nth ?eqn //=.
  by rewrite /s' solve_ocpSize.
Qed.

(** The theorem C8 at work: two stages, the solver stopped at its iteration
    limit, the caller's vectors had the wrong lengths. *)
Lemma solve_trajectory_shapes_witness :
  let s' := (@solve rat toy_dims toy_api (toy_solver 1) toy_x0 false toy_state).2 in
  [/\ size (stateTrajectory s') = 3,
      vsize (nth (vempty rat) (stateTrajectory s') 2) = 2
    & vsize (nth (vempty rat) (inputTrajectory s') 1) = 1].
Proof.
have [H1 _ H3 _ H5] :=
  @solve_trajectory_shapes rat toy_dims toy_api (toy_solver 1) toy_x0 false toy_state.
split; [exact: H1 | exact: (H3 2) | exact: (H5 1)].
Defined.



Section SolutionClosedForms.
Context {F : fieldType} {d : StageDims} {api : HpipmMemApi}
        {solver : HpipmSolverApi F d api}.



End SolutionClosedForms.




(** ** The zero-stage Riccati reconstruction *)

Section MatrixFacts.
Variables (F : fieldType) (n : nat).

Lemma invmx_mul (A B : 'M[F]_n) :
  A \in unitmx -> B \in unitmx -> invmx (A *m B) = invmx B *m invmx A.
Proof.
move=> uA uB; have uAB : A *m B \in unitmx by rewrite unitmx_mul uA.
have e : A *m B *m (invmx B *m invmx A) = 1%:M.
  by rewrite mulmxA mulmxK // mulmxV.
by rewrite -[RHS](mulKmx uAB) e mulmx1.
Qed.

(** What the code multiplies with: the inverse of [L * L^T]. *)
Lemma invmx_tr_mul_invmx (L : 'M[F]_n) :
  L \in unitmx -> (invmx L)^T *m invmx L = invmx (L *m L^T).
Proof. by move=> uL; rewrite invmx_mul ?unitmx_tr // trmx_inv. Qed.

Lemma lower_ones_unit : lower_ones F n \in unitmx.
Proof.
rewrite unitmxE det_trig.
  by apply/is_trig_mxP => i j lt; rewrite mxE leqNgt lt.
by rewrite big1 ?unitr1 // => i _; rewrite mxE leqnn.
Qed.

End MatrixFacts.

Lemma lower_ones_not_normal :
  lower_ones rat 2 *m (lower_ones rat 2)^T <> (lower_ones rat 2)^T *m lower_ones rat 2.
Proof.
move/matrixP/(_ ord0 ord0).
rewrite !mxE !big_ord_recl !big_ord0 !mxE /= !mulr1 !mulr0 !addr0.
by move/eqP; rewrite -subr_eq0 opprD addNKr oppr_eq0 oner_eq0.
Qed.

(** C2, as the code has it.  With [P1], [p1] and the factor [Lr0] read from
    the workspace, and [Lr0] invertible, [getRiccatiZeroStage] returns the
    backward step of the LQR recursion from stage 1 to stage 0 in which the
    inverse of the input-cost block is [(Lr0 * Lr0^T)^-1], the product
    [Lr0^-T * Lr0^-1] of the code:
    [K0 = -(Lr0 Lr0^T)^-1 (S0 + B0^T P1 A0)],
    [k0 = -(Lr0 Lr0^T)^-1 (r0 + B0^T p1 + B0^T P1 b0)],
    [P0 = Q0 + A0^T P1 A0 - (S0 + B0^T P1 A0)^T (Lr0 Lr0^T)^-1 (S0 + B0^T P1 A0)],
    [p0 = q0 + A0^T p1 + A0^T P1 b0
          - (S0 + B0^T P1 A0)^T (Lr0 Lr0^T)^-1 (r0 + B0^T p1 + B0^T P1 b0)]. *)
Theorem getRiccatiZeroStage_closed_form {F : fieldType} {d : StageDims}
    {api : HpipmMemApi} {solver : HpipmSolverApi F d api} (n0 n1 m0 : nat)
    (t : Impl) (A0 : 'M[F]_(n1, n0)) (B0 : 'M[F]_(n1, m0)) (b0 : 'cV[F]_n1)
    (Q0 : 'M[F]_(n0, n0)) (R0 : 'M[F]_(m0, m0)) (S0 : 'M[F]_(m0, n0))
    (q0 : 'cV[F]_n0) (r0 : 'cV[F]_m0) :
  let P1 := d_ocp_qp_ipm_get_ric_P (qp_ t) (arg_ t) (workspace_ t) 1 n1 in
  let p1 := d_ocp_qp_ipm_get_ric_p (qp_ t) (arg_ t) (workspace_ t) 1 n1 in
  let Lr0 := d_ocp_qp_ipm_get_ric_Lr (qp_ t) (arg_ t) (workspace_ t) 0 m0 in
  let z := getRiccatiZeroStage t A0 B0 b0 Q0 R0 S0 q0 r0 in
  Lr0 \in unitmx ->
  [/\ K0 z = (- invmx (Lr0 *m Lr0^T)) *m (S0 + B0^T *m P1 *m A0),
      k0 z = (- invmx (Lr0 *m Lr0^T)) *m (r0 + B0^T *m p1 + B0^T *m P1 *m b0),
      P0 z = Q0 + A0^T *m P1 *m A0 -
             (S0 + B0^T *m P1 *m A0)^T *m invmx (Lr0 *m Lr0^T) *m
             (S0 + B0^T *m P1 *m A0)
    & p0 z = q0 + A0^T *m p1 + A0^T *m P1 *m b0 -
             (S0 + B0^T *m P1 *m A0)^T *m invmx (Lr0 *m Lr0^T) *m
             (r0 + B0^T *m p1 + B0^T *m P1 *m b0)].
Proof.
by move=> P1 p1 Lr0 z uL; rewrite /z /getRiccatiZeroStage /= invmx_tr_mul_invmx.
Qed.

(** The theorem at work, on the factor [[1 0] [1 1]]. *)
Lemma getRiccatiZeroStage_closed_form_witness :
  K0 (@getRiccatiZeroStage rat toy_dims toy_api (toy_solver 0) 2 1 2 (toy_prepared (Some 5%N))
        ex_A0 ex_B0 ex_b0 ex_Q0 ex_R0 ex_S0 ex_q0 ex_r0)
  = (- invmx (lower_ones rat 2 *m (lower_ones rat 2)^T)) *m
    (ex_S0 + ex_B0^T *m (1%:M : 'M[rat]_1) *m ex_A0).
Proof.
have [H _ _ _] :=
  @getRiccatiZeroStage_closed_form rat toy_dims toy_api (toy_solver 0) 2 1 2
    (toy_prepared (Some 5%N)) ex_A0 ex_B0 ex_b0 ex_Q0 ex_R0 ex_S0 ex_q0 ex_r0
    (lower_ones_unit rat 2).
exact: H.
Defined.

(** C2, as the spec has it, fails: with the factor [[1 0] [1 1]] reported by
    the solver, the gain that [getRiccatiZeroStage] returns is not
    [-(Lr0^T Lr0)^-1 (S0 + B0^T P1 A0)]. *)
Lemma getRiccatiZeroStage_spec_form_fails :
  let Lr0 := lower_ones rat 2 in
  let P1 : 'M[rat]_1 := 1%:M in
  K0 (@getRiccatiZeroStage rat toy_dims toy_api (toy_solver 0) 2 1 2 (toy_prepared (Some 5%N))
        ex_A0 ex_B0 ex_b0 ex_Q0 ex_R0 ex_S0 ex_q0 ex_r0)
  <> (- invmx (Lr0^T *m Lr0)) *m (ex_S0 + ex_B0^T *m P1 *m ex_A0).
Proof.
move=> Lr0 P1; rewrite /getRiccatiZeroStage /= -/Lr0.
have uL : Lr0 \in unitmx by exact: lower_ones_unit.
rewrite invmx_tr_mul_invmx // /ex_S0 /ex_A0 mulmx0 addr0 !mulmx1.
move/oppr_inj/(can_inj invmxK) => e.
exact: lower_ones_not_normal.
Qed.

(** ** Heap discipline of [MemoryBlock] *)

Section HeapFacts.
Context {al : Allocator}.

Lemma heap_ok_free (p : pointer) (h : heap) : heap_ok h -> heap_ok (free p h).
Proof.
case: p => [a|] //= /andP [un lt]; rewrite /heap_ok /= rem_uniq //=.
by apply/allP => x /mem_rem; exact: (allP lt).
Qed.

Lemma heap_ok_malloc (s : nat) (h : heap) : heap_ok h -> heap_ok (malloc s h).2.
Proof.
rewrite /malloc; case: ifP => // _ /andP [un lt]; rewrite /heap_ok /= un ltnSn /=.
have -> /= : fresh h \notin live h.
  by apply/negP => /(allP lt); rewrite ltnn.
by apply/allP => x /(allP lt) /ltnW; rewrite ltnS.
Qed.

Lemma live_malloc (s : nat) (h : heap) (a : nat) :
  a \in live h -> a \in live (malloc s h).2.
Proof. by rewrite /malloc; case: ifP => //= _ ain; rewrite in_cons ain orbT. Qed.

Lemma live_free (p : pointer) (h : heap) (a : nat) :
  heap_ok h -> a \in live h -> p != Some a -> a \in live (free p h).
Proof.
case: p => [c|] //= /andP [un _] ain neq.
by rewrite mem_rem_uniq // inE ain andbT; apply: contra neq => /eqP ->.
Qed.

Lemma size_live_free (p : pointer) (h : heap) :
  owned h (Block p 0) ->
  size (live (free p h)) = (size (live h) - (p != None))%N.
Proof. by case: p => [c|] /=; rewrite ?subn0 // => cin; rewrite size_rem // subn1. Qed.

(** X1. [reserve] keeps the heap discipline.  On a well-formed heap and a
    block whose pointer is null or live, after any call (returned or
    thrown) the heap is well-formed and the pointer of the block is null or
    live again: the old memory is freed before the new is requested, so no
    dangling pointer is left; every other live heap block stays live; and
    the number of live blocks grows only when the block had no memory. *)
Theorem reserve_heap_discipline (s : nat) (b : MemoryBlock) (h : heap) :
  heap_ok h -> owned h b ->
  let r := reserve s b h in
  [/\ heap_ok r.2,
      owned r.2 r.1.2,
      forall a, a \in live h -> ptr_ b != Some a -> a \in live r.2
    & (size (live r.2) <= size (live h) + (ptr_ b == None))%N].
Proof.
move=> ok own; rewrite /reserve; case: ltnP => [lt|le] /=; last first.
  by split=> //; exact: leq_addr.
have okf := heap_ok_free (ptr_ b) ok.
have szf := @size_live_free (ptr_ b) h own.
have okm := heap_ok_malloc s okf.
move: okm; rewrite /malloc; case: ifP => _ /= okm.
  split=> //.
    by move=> a ain neq; exact: live_free.
  by rewrite szf; apply: leq_trans (leq_subr _ _) (leq_addr _ _).
split=> //.
- by rewrite /owned /= mem_head.
- by move=> a ain neq; rewrite in_cons live_free ?orbT.
- rewrite szf; move: own; rewrite /owned; case: (ptr_ b) => [c|] /= cin.
    by rewrite addn0 subn1 prednK //; case: (live h) cin.
  by rewrite subn0 addn1.
Qed.


Lemma reserve_heap_ok (s : nat) (b : MemoryBlock) (h : heap) :
  heap_ok h -> heap_ok (reserve s b h).2.
Proof.
move=> ok; rewrite /reserve; case: ltnP => // _.
have := heap_ok_malloc s (heap_ok_free (ptr_ b) ok).
by case: (malloc _ _) => [[c|] h2].
Qed.

Lemma reserve_live_others (s : nat) (b : MemoryBlock) (h : heap) (a : nat) :
  heap_ok h -> a \in live h -> ptr_ b != Some a -> a \in live (reserve s b h).2.
Proof.
move=> ok ain neq; rewrite /reserve; case: ltnP => // _.
have := live_malloc s (live_free ok ain neq).
by case: (malloc _ _) => [[c|] h2].
Qed.

Lemma reserve_fresh (s : nat) (b : MemoryBlock) (h : heap) :
  (fresh h <= fresh (reserve s b h).2 <= (fresh h).+1)%N.
Proof.
rewrite /reserve; case: ltnP => [_|_] /=; last by rewrite leqnn leqnSn.
rewrite /malloc; case: ifP => _ /=; rewrite fresh_free ?leqnn ?leqnSn //.
Qed.

(** A call that returns leaves a backed block. *)
Lemma reserve_backed_returned (s : nat) (b b' : MemoryBlock) (h h' : heap) :
  backed b -> reserve s b h = (Returned, b', h') -> backed b'.
Proof.
move=> bk; rewrite /reserve; case: ltnP => [_|_]; last by case=> <-.
by case: (malloc _ _) => [[c|] h2] //= [<- _].
Qed.

(** X2. A refused request leaves a stale size.  When [malloc] refuses a
    request larger than the positive stored size, [reserve] throws with the
    pointer null and the stored size unchanged; every later request up to
    that size then returns without allocating, and [get] is null. *)
Theorem reserve_refused_stale_size (s : nat) (b : MemoryBlock) (h : heap) :
  (0 < size_ b < s)%N -> malloc_fails (free (ptr_ b) h) s = true ->
  let r := reserve s b h in
  [/\ r.1.1 = BadAlloc, ~~ backed r.1.2
    & forall s' : nat, (s' <= size_ b)%N ->
        reserve s' r.1.2 r.2 = (Returned, r.1.2, r.2) /\ get r.1.2 = None].
Proof.
case/andP=> pos lt ko; rewrite reserve_throws //=; split=> //.
  by rewrite /backed /= -lt0n pos.
by move=> s' le; rewrite reserve_fits.
Qed.

End HeapFacts.

(** The theorem X1 at work: a block of 4 bytes grown to 8. *)
Lemma reserve_heap_discipline_witness :
  let r := @reserve serving_allocator 8 (Block (Some 0%N) 4) (Heap [:: 0%N] 1) in
  heap_ok r.2 /\ owned r.2 r.1.2.
Proof.
have [H1 H2 _ _] := @reserve_heap_discipline serving_allocator 8
  (Block (Some 0%N) 4) (Heap [:: 0%N] 1) isT isT.
by split.
Defined.

(** The theorem X2 at work: 8 bytes refused, then 3 bytes asked. *)
Lemma reserve_refused_stale_size_witness :
  let r := @reserve (limited_allocator 6) 8 (Block (Some 0%N) 4) (Heap [:: 0%N] 1) in
  @reserve (limited_allocator 6) 3 r.1.2 r.2 = (Returned, r.1.2, r.2) /\
  get r.1.2 = None.
Proof.
have [_ _ H] := @reserve_refused_stale_size (limited_allocator 6) 8
  (Block (Some 0%N) 4) (Heap [:: 0%N] 1) isT (erefl true).
exact: (H 3 isT).
Defined.

Section WorkspaceExtra.
Context {api : HpipmMemApi} {al : Allocator}.

(** On the path that prepares, the settings are stored before anything can
    throw. *)
Lemma initializeMemory_settings (ocpSize : OcpSize) (settings : Settings)
    (t : Impl) (h : heap) :
  isSizeEqual t (set_nx0_zero ocpSize) && isSettingsEqual t settings = false ->
  settings_ (initializeMemory ocpSize settings (t, h)).2.1 = settings.
Proof.
move=> neq; rewrite /initializeMemory /bind /this_ /= neq.
rewrite /assign /reserve_member /applySettings /bind /assign /=.
case: (reserve _ _ _) => [[[] b1] h1] //=.
case: (reserve _ _ _) => [[[] b2] h2] //=.
case: (reserve _ _ _) => [[[] b3] h3] //=.
case: (reserve _ _ _) => [[[] b4] h4] //=.
by case: (reserve _ _ _) => [[[] b5] h5].
Qed.

Lemma isSettingsEqual_self (t : Impl) :
  self_equal (settings_ t) -> isSettingsEqual t (settings_ t).
Proof.
by rewrite /self_equal /isSettingsEqual !eqxx /=; do 6![case/andP=> ->] => ->.
Qed.

(** X4. A preparation that threw is not retried.  The request and the
    settings are stored before the first allocation; so after a call that
    threw [std::bad_alloc], the same call again (with settings that compare
    equal to themselves) returns at once and leaves the half-prepared
    object as it is. *)
Theorem initializeMemory_throw_not_retried (ocpSize : OcpSize)
    (settings : Settings) (t t1 : Impl) (h h1 : heap) :
  self_equal settings ->
  initializeMemory ocpSize settings (t, h) = (Throw, (t1, h1)) ->
  initializeMemory ocpSize settings (t1, h1) = (Ok tt, (t1, h1)).
Proof.
move=> self run.
case eq: (isSizeEqual t (set_nx0_zero ocpSize) && isSettingsEqual t settings).
  by move: run; rewrite initializeMemory_equal.
have st := @initializeMemory_stored api al ocpSize settings t h.
have se := initializeMemory_settings h eq.
move: st se; rewrite run /= => st se.
apply: initializeMemory_equal; apply/andP; split; first by apply/isSizeEqualP.
by rewrite -se; apply: isSettingsEqual_self; rewrite se.
Qed.


Lemma initializeMemory_backed (ocpSize : OcpSize) (settings : Settings)
    (t t' : Impl) (h h' : heap) :
  all backed [:: dimMem_ t; qpMem_ t; qpSolMem_ t; ipmArgMem_ t; ipmMem_ t] ->
  isSizeEqual t (set_nx0_zero ocpSize) && isSettingsEqual t settings = false ->
  initializeMemory ocpSize settings (t, h) = (Ok tt, (t', h')) ->
  all backed [:: dimMem_ t'; qpMem_ t'; qpSolMem_ t'; ipmArgMem_ t'; ipmMem_ t'].
Proof.
move=> bk neq; move: bk => /= /and5P [k1 k2 k3 k4 /andP [k5 _]].
rewrite /initializeMemory /bind /this_ /= neq.
rewrite /assign /reserve_member /applySettings /bind /assign /=.
case E1: (reserve _ _ _) => [[[] b1] h1] //=; have B1 := reserve_backed_returned k1 E1.
case E2: (reserve _ _ _) => [[[] b2] h2] //=; have B2 := reserve_backed_returned k2 E2.
case E3: (reserve _ _ _) => [[[] b3] h3] //=; have B3 := reserve_backed_returned k3 E3.
case E4: (reserve _ _ _) => [[[] b4] h4] //=; have B4 := reserve_backed_returned k4 E4.
case E5: (reserve _ _ _) => [[[] b5] h5] //=; have B5 := reserve_backed_returned k5 E5.
by case=> <- _; rewrite /= B1 B2 B3 B4 B5.
Qed.

(** X3. After a preparation that ran (no early return) and returned, every
    one of the five memory blocks is at least as large as the size that
    HPIPM asks for the structure created in it; and blocks that were backed
    by memory before (null pointer only with size zero) are so afterwards,
    so a structure of positive size never sits at a null pointer. *)
Theorem initializeMemory_blocks_suffice (ocpSize : OcpSize) (settings : Settings)
    (t t' : Impl) (h h' : heap) :
  all backed [:: dimMem_ t; qpMem_ t; qpSolMem_ t; ipmArgMem_ t; ipmMem_ t] ->
  isSizeEqual t (set_nx0_zero ocpSize) && isSettingsEqual t settings = false ->
  initializeMemory ocpSize settings (t, h) = (Ok tt, (t', h')) ->
  [/\ (d_ocp_qp_dim_memsize (N (ocpSize_ t')) <= size_ (dimMem_ t'))%N,
      (d_ocp_qp_memsize (dim_ t') <= size_ (qpMem_ t'))%N,
      (d_ocp_qp_sol_memsize (dim_ t') <= size_ (qpSolMem_ t'))%N,
      (d_ocp_qp_ipm_arg_memsize (dim_ t') <= size_ (ipmArgMem_ t'))%N
    & (d_ocp_qp_ipm_ws_memsize (dim_ t') (arg_ t') <= size_ (ipmMem_ t'))%N] /\
  all backed [:: dimMem_ t'; qpMem_ t'; qpSolMem_ t'; ipmArgMem_ t'; ipmMem_ t'].
Proof.
move=> bk neq run; split; last exact: initializeMemory_backed bk neq run.
have [[_ e2 _] [_ [l1 l2 l3 l4 l5]]] := initializeMemory_prepared neq run.
by rewrite e2.
Qed.

Lemma reserve_frame (s : nat) (b b' : MemoryBlock) (h h' : heap) (o : outcome) :
  reserve s b h = (o, b', h') -> heap_ok h ->
  [/\ heap_ok h',
      forall a, a \in live h -> ptr_ b != Some a -> a \in live h'
    & (fresh h <= fresh h' <= (fresh h).+1)%N].
Proof.
move=> E ok; have := @reserve_fresh al s b h; have := @reserve_heap_ok al s b h ok.
have := fun a => @reserve_live_others al s b h a ok.
by rewrite E /= => lv ok' fr; split.
Qed.

Lemma frame_next (t : Impl) (h h1 h2 : heap) (k s : nat) (b b' : MemoryBlock)
    (o : outcome) :
  [/\ heap_ok h1,
      forall a, a \in live h -> Some a \notin block_pointers t -> a \in live h1
    & (fresh h <= fresh h1 <= fresh h + k)%N] ->
  reserve s b h1 = (o, b', h2) -> ptr_ b \in block_pointers t ->
  [/\ heap_ok h2,
      forall a, a \in live h -> Some a \notin block_pointers t -> a \in live h2
    & (fresh h <= fresh h2 <= fresh h + k.+1)%N].
Proof.
case=> ok1 lv1 /andP [lo hi] E pin.
have [ok2 lv2 /andP [lo2 hi2]] := reserve_frame E ok1; split=> //.
  move=> a ain nin; apply: lv2; first exact: lv1.
  by apply: contraNneq nin => <-.
rewrite (leq_trans lo lo2) /= addnS.
by apply: leq_trans hi2 _; rewrite ltnS.
Qed.

Lemma frame_weaken (t : Impl) (h h1 : heap) (k : nat) :
  (k <= 5)%N ->
  [/\ heap_ok h1,
      forall a, a \in live h -> Some a \notin block_pointers t -> a \in live h1
    & (fresh h <= fresh h1 <= fresh h + k)%N] ->
  [/\ heap_ok h1,
      forall a, a \in live h -> Some a \notin block_pointers t -> a \in live h1
    & (fresh h <= fresh h1 <= fresh h + 5)%N].
Proof.
move=> k5 [ok1 lv1 /andP [lo hi]]; split=> //.
by rewrite lo /=; apply: leq_trans hi _; rewrite leq_add2l.
Qed.

(** X5. What [initializeMemory] does to the heap.  From a well-formed heap,
    whatever the outcome: the heap stays well-formed, every live heap block
    that is not one of the five blocks of the object stays live, and at
    most five blocks are allocated. *)
Theorem initializeMemory_heap_frame (ocpSize : OcpSize) (settings : Settings)
    (t : Impl) (h : heap) :
  heap_ok h ->
  let h' := (initializeMemory ocpSize settings (t, h)).2.2 in
  [/\ heap_ok h',
      forall a, a \in live h -> Some a \notin block_pointers t -> a \in live h'
    & (fresh h <= fresh h' <= fresh h + 5)%N].
Proof.
move=> ok.
have F0 : [/\ heap_ok h,
      forall a, a \in live h -> Some a \notin block_pointers t -> a \in live h
    & (fresh h <= fresh h <= fresh h + 0)%N] by rewrite addn0 leqnn.
rewrite /initializeMemory /bind /this_ /=; case: ifP => _ /=.
  exact: frame_weaken F0.
rewrite /assign /reserve_member /applySettings /bind /assign /=.
case E1: (reserve _ _ _) => [[o1 b1] h1].
have F1 := frame_next F0 E1 _; case: o1 {E1} => /=; last first.
  by apply: frame_weaken (F1 _); rewrite // !inE eqxx.
case E2: (reserve _ _ _) => [[o2 b2] h2].
have F2 := frame_next (F1 _) E2 _; case: o2 {E2} => /=; last first.
  by apply: frame_weaken (F2 _ _); rewrite // !inE eqxx ?orbT.
case E3: (reserve _ _ _) => [[o3 b3] h3].
have F3 := frame_next (F2 _ _) E3 _; case: o3 {E3} => /=; last first.
  by apply: frame_weaken (F3 _ _ _); rewrite // !inE eqxx ?orbT.
case E4: (reserve _ _ _) => [[o4 b4] h4].
have F4 := frame_next (F3 _ _ _) E4 _; case: o4 {E4} => /=; last first.
  by apply: frame_weaken (F4 _ _ _ _); rewrite // !inE eqxx ?orbT.
case E5: (reserve _ _ _) => [[o5 b5] h5].
have F5 := frame_next (F4 _ _ _ _) E5 _.
by case: o5 {E5} => /=; apply: frame_weaken (F5 _ _ _ _ _); rewrite // !inE eqxx ?orbT.
Qed.

(** X6. [initializeMemory(OcpSize)], the call behind
    [HpipmInterface::resize(OcpSize)], never changes the stored settings,
    and stores the request with [nx[0]] overwritten, whatever the
    outcome. *)
Theorem initializeMemory_size_keeps_settings (ocpSize : OcpSize) (t : Impl) (h : heap) :
  settings_ (initializeMemory_size ocpSize (t, h)).2.1 = settings_ t /\
  ocpSize_ (initializeMemory_size ocpSize (t, h)).2.1 = set_nx0_zero ocpSize.
Proof.
rewrite /initializeMemory_size /bind /this_ /=.
split; last exact: initializeMemory_stored.
case eq: (isSizeEqual t (set_nx0_zero ocpSize) && isSettingsEqual t (settings_ t)).
  by rewrite initializeMemory_equal.
exact: initializeMemory_settings.
Qed.

End WorkspaceExtra.

Example toy_failed_call :
  @initializeMemory toy_api (limited_allocator 100) (toy_size 2)
     (toy_settings (Some 5%N)) (toy_impl, Heap [::] 0)
  = (Throw, (toy_failed, Heap [:: 0%N] 1)).
Proof. by []. Qed.

(** The theorem X3 at work on the first preparation of [toy_impl]. *)
Lemma initializeMemory_blocks_suffice_witness :
  (@d_ocp_qp_ipm_ws_memsize toy_api (dim_ (toy_prepared (Some 5%N)))
     (arg_ (toy_prepared (Some 5%N)))
   <= size_ (ipmMem_ (toy_prepared (Some 5%N))))%N /\
  backed (ipmMem_ (toy_prepared (Some 5%N))).
Proof.
have [[_ _ _ _ H1] /and5P [_ _ _ _ /andP [H2 _]]] :=
  @initializeMemory_blocks_suffice toy_api serving_allocator (toy_size 2)
    (toy_settings (Some 5%N)) toy_impl (toy_prepared (Some 5%N)) (Heap [::] 0)
    toy_heap isT (erefl false) (toy_first_call 2 (Some 5%N)).
by split.
Defined.

(** The theorem X4 at work: the second block is refused, the call is
    repeated. *)
Lemma initializeMemory_throw_not_retried_witness :
  @initializeMemory toy_api (limited_allocator 100) (toy_size 2)
     (toy_settings (Some 5%N)) (toy_failed, Heap [:: 0%N] 1)
  = (Ok tt, (toy_failed, Heap [:: 0%N] 1)).
Proof.
exact: (@initializeMemory_throw_not_retried toy_api (limited_allocator 100)
          (toy_size 2) (toy_settings (Some 5%N)) toy_impl toy_failed
          (Heap [::] 0) (Heap [:: 0%N] 1) isT toy_failed_call).
Defined.

(** The theorem X5 at work: a block of somebody else is live. *)
Lemma initializeMemory_heap_frame_witness :
  7%N \in live (@initializeMemory toy_api serving_allocator (toy_size 2)
                  (toy_settings (Some 5%N)) (toy_impl, Heap [:: 7%N] 8)).2.2.
Proof.
have [_ H _] := @initializeMemory_heap_frame toy_api serving_allocator (toy_size 2)
  (toy_settings (Some 5%N)) toy_impl (Heap [:: 7%N] 8) isT.
exact: H.
Defined.

(** ** The trajectories and the report of [solve] *)

Section SolveExtra.
Context {F : fieldType} {d : StageDims} {api : HpipmMemApi}
        {solver : HpipmSolverApi F d api}.

(** X7. The trajectories that [getStateSolution] and [getInputSolution]
    return do not depend on what the caller's vectors held: the states are
    [x0] followed by the solver's states of the stages 1 to N, each read
    with the size [nx[k]], and the inputs are the solver's inputs of the
    stages 0 to N-1, each read with the size [nu[k]]. *)
Theorem getSolution_closed_form (t : Impl) (n0 : nat) (x0 : 'cV[F]_n0)
    (states inputs : seq (vector_t F)) :
  getStateSolution t x0 states
  = to_vector_t x0 ::
    map (fun k => to_vector_t
           (d_ocp_qp_sol_get_x k (qpSol_ t) (nth 0%N (nx (ocpSize_ t)) k)))
        (iota 1 (N (ocpSize_ t))) /\
  getInputSolution t inputs
  = map (fun k => to_vector_t
           (d_ocp_qp_sol_get_u k (qpSol_ t) (nth 0%N (nu (ocpSize_ t)) k)))
        (iota 0 (N (ocpSize_ t))).
Proof.
split.
  apply: (@eq_from_nth _ (vempty F)).
    by rewrite getStateSolution_size /= size_map size_iota.
  move=> [|i]; rewrite getStateSolution_size ?getStateSolution_front // ltnS => lt.
  by rewrite getStateSolution_later //= (nth_map 0%N) ?size_iota // nth_iota.
apply: (@eq_from_nth _ (vempty F)).
  by rewrite getInputSolution_size size_map size_iota.
move=> i; rewrite getInputSolution_size => lt.
by rewrite getInputSolution_nth // (nth_map 0%N) ?size_iota // nth_iota.
Qed.

Lemma status_text_unknown (flag : int) :
  hpipm_status_of_int flag = None <->
  status_text flag = "Solver failed! Unknown return flag"%string.
Proof.
rewrite /hpipm_status_of_int /status_text.
by do 5![case: ifP => _; first by split]; split.
Qed.

(** X8. The report of a verbose [solve] agrees with the status it returns:
    [stderr] receives the header, the flag, the text for the flag and the
    statistics; the text is the one for an unknown flag exactly when the
    returned status is the value of no enumerator; and a [solve] that is not
    verbose writes nothing. *)
Theorem solve_report_matches_status (x0 : 'cV[F]_(state_dim d 0)) (s : SolveState) :
  let r := solve x0 true s in
  let flag := d_ocp_qp_ipm_get_status (workspace_ (this r.2)) in
  [/\ stderr r.2
      = stderr s
        ++ [:: "=== HPIPM ==="%string; print_flag flag; status_text flag]
        ++ print_statistics (workspace_ (this r.2)),
      r.1 = None <->
      status_text flag = "Solver failed! Unknown return flag"%string
    & stderr (solve x0 false s).2 = stderr s].
Proof.
move=> r flag; split.
- by rewrite /flag /r /solve; case: (d_ocp_qp_ipm_solve _ _ _ _).
- by rewrite /r solve_status; exact: status_text_unknown.
- by rewrite /solve; case: (d_ocp_qp_ipm_solve _ _ _ _).
Qed.

End SolveExtra.

(** ** The Riccati getters *)

Section RiccatiExtra.
Context {F : fieldType} {d : StageDims} {api : HpipmMemApi}
        {solver : HpipmSolverApi F d api}.
Variables (n0 n1 m0 : nat) (t : Impl).
Variables (A0 : 'M[F]_(n1, n0)) (B0 : 'M[F]_(n1, m0)) (b0 : 'cV[F]_n1).
Variables (Q0 : 'M[F]_(n0, n0)) (R0 : 'M[F]_(m0, m0)) (S0 : 'M[F]_(m0, n0)).
Variables (q0 : 'cV[F]_n0) (r0 : 'cV[F]_m0).

Let P1 := d_ocp_qp_ipm_get_ric_P (qp_ t) (arg_ t) (workspace_ t) 1 n1.
Let p1 := d_ocp_qp_ipm_get_ric_p (qp_ t) (arg_ t) (workspace_ t) 1 n1.
Let Lr0 := d_ocp_qp_ipm_get_ric_Lr (qp_ t) (arg_ t) (workspace_ t) 0 m0.
Let z := getRiccatiZeroStage t A0 B0 b0 Q0 R0 S0 q0 r0.

(** X10. [getRiccatiZeroStage] returns a symmetric [P0] whenever the cost
    block [Q0] and the cost-to-go [P1] of stage 1 are symmetric (whatever
    the factor [Lr0] is). *)
Theorem getRiccatiZeroStage_P0_symmetric :
  Q0^T = Q0 -> P1^T = P1 -> (P0 z)^T = P0 z.
Proof.
move=> symQ symP; rewrite /z /getRiccatiZeroStage /= -/P1.
rewrite linearB linearD /= !trmx_mul !trmxK symQ symP.
by rewrite !mulmxA.
Qed.

(** X11. The value function and the policy that [getRiccatiZeroStage]
    returns fit together: [P0 = Q0 + A0^T P1 A0 + (S0 + B0^T P1 A0)^T K0]
    and [p0 = q0 + A0^T p1 + A0^T P1 b0 + (S0 + B0^T P1 A0)^T k0]. *)
Theorem getRiccatiZeroStage_value_from_gain :
  P0 z = Q0 + A0^T *m P1 *m A0 + (S0 + B0^T *m P1 *m A0)^T *m K0 z /\
  p0 z = q0 + A0^T *m p1 + A0^T *m P1 *m b0 + (S0 + B0^T *m P1 *m A0)^T *m k0 z.
Proof.
rewrite /z /getRiccatiZeroStage /= -/P1 -/p1.
by rewrite !mulNmx !mulmxN !mulmxA.
Qed.

(** X12. When the factor read from the workspace is invertible and
    factorizes the input-cost block of the backward step,
    [Lr0 Lr0^T = R0 + B0^T P1 B0], the gain and the feedforward term of
    [getRiccatiZeroStage] solve the stationarity equations
    [(R0 + B0^T P1 B0) K0 = -(S0 + B0^T P1 A0)] and
    [(R0 + B0^T P1 B0) k0 = -(r0 + B0^T p1 + B0^T P1 b0)]. *)
Theorem getRiccatiZeroStage_stationary :
  Lr0 \in unitmx -> Lr0 *m Lr0^T = R0 + B0^T *m P1 *m B0 ->
  (R0 + B0^T *m P1 *m B0) *m K0 z = - (S0 + B0^T *m P1 *m A0) /\
  (R0 + B0^T *m P1 *m B0) *m k0 z = - (r0 + B0^T *m p1 + B0^T *m P1 *m b0).
Proof.
move=> uL <-; have uR : Lr0 *m Lr0^T \in unitmx by rewrite unitmx_mul unitmx_tr uL.
rewrite /z /getRiccatiZeroStage /= -/P1 -/p1 -/Lr0 invmx_tr_mul_invmx //.
by rewrite !mulNmx !mulmxN !mulKVmx.
Qed.

End RiccatiExtra.

(** The theorem X10 at work on the data of the counterexample. *)
Lemma getRiccatiZeroStage_P0_symmetric_witness :
  (P0 (@getRiccatiZeroStage rat toy_dims toy_api (toy_solver 0) 2 1 2
         (toy_prepared (Some 5%N)) ex_A0 ex_B0 ex_b0 ex_Q0 ex_R0 ex_S0 ex_q0 ex_r0))^T
  = P0 (@getRiccatiZeroStage rat toy_dims toy_api (toy_solver 0) 2 1 2
         (toy_prepared (Some 5%N)) ex_A0 ex_B0 ex_b0 ex_Q0 ex_R0 ex_S0 ex_q0 ex_r0).
Proof.
exact: (@getRiccatiZeroStage_P0_symmetric rat toy_dims toy_api (toy_solver 0) 2 1 2
          (toy_prepared (Some 5%N)) ex_A0 ex_B0 ex_b0 ex_Q0 ex_R0 ex_S0 ex_q0 ex_r0
          (trmx1 _ _) (trmx1 _ _)).
Defined.

(** The theorem X12 at work on the factor [[1 0] [1 1]]. *)
Lemma getRiccatiZeroStage_stationary_witness :
  (ex_Ru + ex_B0^T *m (1%:M : 'M[rat]_1) *m ex_B0) *m
  K0 (@getRiccatiZeroStage rat toy_dims toy_api (toy_solver 0) 2 1 2
        (toy_prepared (Some 5%N)) ex_A0 ex_B0 ex_b0 ex_Q0 ex_Ru ex_S0 ex_q0 ex_r0)
  = - (ex_S0 + ex_B0^T *m (1%:M : 'M[rat]_1) *m ex_A0).
Proof.
have eR : lower_ones rat 2 *m (lower_ones rat 2)^T
          = ex_Ru + ex_B0^T *m (1%:M : 'M[rat]_1) *m ex_B0.
  by rewrite /ex_B0 mulmx0 addr0.
have [H _] := @getRiccatiZeroStage_stationary rat toy_dims toy_api (toy_solver 0)
  2 1 2 (toy_prepared (Some 5%N)) ex_A0 ex_B0 ex_b0 ex_Q0 ex_Ru ex_S0 ex_q0 ex_r0
  (lower_ones_unit rat 2) eR.
exact: H.
Defined.

Section SeqExtra.
Variables (A B : Type) (da : A) (db : B).

Lemma nth_resize (n i : nat) (s : seq A) :
  (i < n)%N -> nth da (resize da n s) i = nth da s i.
Proof.
move=> lt; rewrite /resize nth_cat size_take.
case: (ltnP n (size s)) => [ns|sn].
  by rewrite lt nth_take.
case: (ltnP i (size s)) => [li|il]; first by rewrite take_oversize.
by rewrite nth_nseq if_same nth_default.
Qed.

(** A loop that writes two vectors side by side is a loop on each. *)
Lemma foldl_pair (f : nat -> A) (g : nat -> B) (ks : seq nat) (a : seq A) (b : seq B) :
  foldl (fun p k => (set_nth da p.1 k (f k), set_nth db p.2 k (g k))) (a, b) ks
  = (foldl (fun s k => set_nth da s k (f k)) a ks,
     foldl (fun s k => set_nth db s k (g k)) b ks).
Proof. by elim: ks a b => [|k ks IH] a b //=. Qed.

(** A vector of length [n > 0] whose entries 1 to [n - 1] have been
    written. *)
Lemma filled_from_1 (f : nat -> A) (n : nat) (s : seq A) :
  (0 < n)%N ->
  foldl (fun s k => set_nth da s k (f k)) (resize da n s) (iota 1 (n - 1))
  = nth da s 0 :: map f (iota 1 (n - 1)).
Proof.
case: n => [|n] // _; rewrite subn1 /=.
have al : all (fun k => k < size (resize da n.+1 s))%N (iota 1 n).
  by rewrite size_resize; apply/allP => k; rewrite mem_iota add1n => /andP [].
have sz := @size_foldl_set_nth _ da f _ _ al.
apply: (@eq_from_nth _ da); first by rewrite sz size_resize /= size_map size_iota.
move=> i; rewrite sz size_resize => lt.
rewrite nth_foldl_set_nth mem_iota add1n ltnS.
case: i lt => [|i] lt /=; first by rewrite nth_resize.
by move: lt; rewrite ltnS => lt; rewrite lt (nth_map 0%N) ?size_iota // nth_iota.
Qed.

(** A vector of length [n + 1], [n > 0], whose last entry and whose entries
    1 to [n - 1] have been written. *)
Lemma filled_last_and_from_1 (f : nat -> A) (n : nat) (s : seq A) :
  (0 < n)%N ->
  foldl (fun s k => set_nth da s k (f k))
        (set_nth da (resize da n.+1 s) n (f n)) (iota 1 (n - 1))
  = nth da s 0 :: map f (iota 1 n).
Proof.
move=> n0.
have sz0 : size (set_nth da (resize da n.+1 s) n (f n)) = n.+1.
  by rewrite size_set_nth size_resize; apply/maxn_idPr.
have al : all (fun k => k < size (set_nth da (resize da n.+1 s) n (f n)))%N
              (iota 1 (n - 1)).
  rewrite sz0; apply/allP => k; rewrite mem_iota subn1 add1n prednK //.
  by case/andP=> _ /ltnW.
have sz := @size_foldl_set_nth _ da f _ _ al.
apply: (@eq_from_nth _ da); first by rewrite sz sz0 /= size_map size_iota.
move=> i; rewrite sz sz0 ltnS => le.
rewrite nth_foldl_set_nth mem_iota subn1 add1n prednK // nth_set_nth /=.
case: i le => [|i] le /=.
  by rewrite eq_sym (negbTE (lt0n_neq0 n0)) nth_resize.
rewrite (nth_map 0%N) ?size_iota // nth_iota // add1n.
by move: le; rewrite leq_eqVlt; case: eqP => [->|_] /=; [rewrite ltnn | move=> ->].
Qed.

Lemma filled_single (v : A) (s : seq A) : set_nth da (resize da 1 s) 0 v = [:: v].
Proof. by case: s => [|a [|b s]]. Qed.

End SeqExtra.

Section GetterExtra.
Context {F : fieldType} {d : StageDims} {api : HpipmMemApi}
        {solver : HpipmSolverApi F d api} {ls : HpipmRiccatiLsApi F api}.

(** X13. [getRiccatiFeedbackFeedforward] on a horizon [N > 0] returns
    vectors of length [N] and never writes their first entry: it is what
    the caller's vector held there (the empty matrix or vector if it held
    nothing); the entries 1 to N-1 are the gain [-(Ls Lr^-1)^T], of the
    shape [nu[k] x nx[k]], and the feedforward term of the stage. *)
Theorem getRiccatiFeedbackFeedforward_closed_form (t : Impl)
    (KMatrics : seq (matrix_t F)) (kVectors : seq (vector_t F)) :
  (0 < N (ocpSize_ t))%N ->
  getRiccatiFeedbackFeedforward t KMatrics kVectors
  = (nth (mempty F) KMatrics 0
       :: map (riccati_gain t) (iota 1 (N (ocpSize_ t) - 1)),
     nth (vempty F) kVectors 0
       :: map (riccati_feedforward t) (iota 1 (N (ocpSize_ t) - 1))) /\
  forall k, mrows (riccati_gain t k) = nth 0%N (nu (ocpSize_ t)) k /\
            mcols (riccati_gain t k) = nth 0%N (nx (ocpSize_ t)) k.
Proof.
move=> n0; split=> //.
by rewrite /getRiccatiFeedbackFeedforward foldl_pair !filled_from_1.
Qed.

(** X14. The gain of an interior stage has the form of the zero-stage gain:
    when [Lr] is invertible and [Ls Lr^T = G^T] for the block [G] (for
    HPIPM, [S + B^T P A] of the stage), the gain [-(Ls Lr^-1)^T] written by
    [getRiccatiFeedbackFeedforward] is [-(Lr Lr^T)^-1 G]. *)
Theorem riccati_gain_as_zero_stage (t : Impl) (k : nat)
    (G : 'M[F]_(nth 0%N (nu (ocpSize_ t)) k, nth 0%N (nx (ocpSize_ t)) k)) :
  let Lr := d_ocp_qp_ipm_get_ric_Lr (qp_ t) (arg_ t) (workspace_ t) k
              (nth 0%N (nu (ocpSize_ t)) k) in
  let Ls := d_ocp_qp_ipm_get_ric_Ls (qp_ t) (arg_ t) (workspace_ t) k
              (nth 0%N (nx (ocpSize_ t)) k) (nth 0%N (nu (ocpSize_ t)) k) in
  Lr \in unitmx -> Ls *m Lr^T = G^T ->
  riccati_gain t k = to_matrix_t ((- invmx (Lr *m Lr^T)) *m G).
Proof.
move=> Lr Ls uL eG; rewrite /riccati_gain /= -/Lr -/Ls; congr (to_matrix_t _).
have uT : Lr^T \in unitmx by rewrite unitmx_tr.
have -> : Ls = G^T *m invmx Lr^T by rewrite -eG mulmxK.
rewrite -invmx_tr_mul_invmx // !trmx_mul trmxK -trmx_inv trmxK.
by rewrite mulNmx mulmxA.
Qed.

(** X15. [getRiccatiCostToGo] returns vectors of length [N + 1]: the
    entries 1 to N are the cost-to-go of the stages, read with the size
    [nx[k]]; on a horizon [N > 0] the first entry is never written (it is
    what the caller's vector held, or empty), and for [N = 0] the single
    entry is the terminal cost-to-go. *)
Theorem getRiccatiCostToGo_closed_form (t : Impl)
    (PMatrics : seq (matrix_t F)) (pVectors : seq (vector_t F)) :
  let n := N (ocpSize_ t) in
  getRiccatiCostToGo t PMatrics pVectors
  = if n is 0%N then ([:: riccati_P t 0], [:: riccati_p t 0])
    else (nth (mempty F) PMatrics 0 :: map (riccati_P t) (iota 1 n),
          nth (vempty F) pVectors 0 :: map (riccati_p t) (iota 1 n)).
Proof.
rewrite /getRiccatiCostToGo; case: (N (ocpSize_ t)) => [|n] /=.
  by rewrite !filled_single.
by rewrite foldl_pair !filled_last_and_from_1.
Qed.

End GetterExtra.

(** The theorem X13 at work on a horizon of two stages: the caller's gain
    vector was empty. *)
Lemma getRiccatiFeedbackFeedforward_closed_form_witness :
  (@getRiccatiFeedbackFeedforward rat toy_dims toy_api (toy_solver 0) toy_ls
     (toy_prepared (Some 5%N)) [::] [::]).1
  = [:: mempty rat;
        @riccati_gain rat toy_dims toy_api (toy_solver 0) toy_ls
          (toy_prepared (Some 5%N)) 1].
Proof.
have [-> _] := @getRiccatiFeedbackFeedforward_closed_form rat toy_dims toy_api
  (toy_solver 0) toy_ls (toy_prepared (Some 5%N)) [::] [::] isT.
by [].
Defined.

(** The theorem X14 at work at stage 1: one input, two states, [Ls = 0]. *)
Lemma riccati_gain_as_zero_stage_witness :
  @riccati_gain rat toy_dims toy_api (toy_solver 0) toy_ls (toy_prepared (Some 5%N)) 1
  = to_matrix_t ((- invmx (lower_ones rat 1 *m (lower_ones rat 1)^T)) *m
                 (0 : 'M[rat]_(1, 2))).
Proof.
apply: (@riccati_gain_as_zero_stage rat toy_dims toy_api (toy_solver 0) toy_ls
          (toy_prepared (Some 5%N)) 1 (0 : 'M[rat]_(1, 2))).
  exact: lower_ones_unit.
by rewrite /= mul0mx trmx0.
Defined.

(** ** The quadratic cost function *)

Section QuadraticCostFacts.
Context {F : numFieldType} {STATE_DIM CONTROL_DIM : nat}
        {base_api : CostFunctionBaseApi F STATE_DIM CONTROL_DIM}.
Import Num.Theory.

Lemma scalar_of_tr (M : 'M[F]_(1, 1)) : scalar_of M^T = scalar_of M.
Proof. by rewrite /scalar_of mxE. Qed.

Lemma scalar_ofD (M N : 'M[F]_(1, 1)) :
  scalar_of (M + N) = scalar_of M + scalar_of N.
Proof. by rewrite /scalar_of mxE. Qed.

Lemma scalar_ofZ (a : F) (M : 'M[F]_(1, 1)) :
  scalar_of (a *: M) = a * scalar_of M.
Proof. by rewrite /scalar_of mxE. Qed.

Lemma half_double (a : F) : 2%:R^-1 * (a + a) = a.
Proof. by rewrite -mulr2n -[a *+ 2]mulr_natl mulKf // pnatr_eq0. Qed.

(** The quadratic form of a symmetric matrix at a displaced point. *)
Lemma quadratic_expansion (n : nat) (Q : 'M[F]_(n, n)) (x dx : 'cV[F]_n) :
  Q^T = Q ->
  scalar_of (2%:R^-1 *: (x + dx)^T *m Q *m (x + dx))
  = scalar_of (2%:R^-1 *: x^T *m Q *m x) + scalar_of ((Q *m x)^T *m dx)
    + 2%:R^-1 * scalar_of (dx^T *m Q *m dx).
Proof.
move=> symQ.
have cross : scalar_of (dx^T *m Q *m x) = scalar_of (x^T *m Q *m dx).
  by rewrite -scalar_of_tr !trmx_mul trmxK symQ mulmxA.
rewrite -!scalemxAl !scalar_ofZ [(x + dx)^T]linearD /=.
rewrite !mulmxDl !mulmxDr !scalar_ofD cross trmx_mul symQ.
by rewrite -addrA [X in _ + X]addrA 2!mulrDr half_double addrA.
Qed.

(** X19. The derivatives that [QuadraticCostFunction] reports are those of
    the cost that it evaluates.  For symmetric weights [Q] and [R], the
    cost at [(x + dx, u + du)] is exactly the second-order expansion built
    from [evaluate], [stateDerivative], [controlDerivative],
    [stateSecondDerivative], [controlSecondDerivative] and
    [stateControlDerivative] at [(x, u)]; without symmetry the reported
    gradient [Q x] is not the gradient of [0.5 x' Q x]. *)
Theorem evaluate_expansion_exact (c : QuadraticCostFunction) (t : F)
    (x dx : 'cV[F]_STATE_DIM) (u du : 'cV[F]_CONTROL_DIM) :
  (Q_ c)^T = Q_ c -> (R_ c)^T = R_ c ->
  let c0 := setCurrentStateAndControl t x u c in
  let c1 := setCurrentStateAndControl t (x + dx) (u + du) c in
  evaluate c1
  = evaluate c0
    + scalar_of ((stateDerivative c0)^T *m dx)
    + scalar_of ((controlDerivative c0)^T *m du)
    + 2%:R^-1 * scalar_of (dx^T *m stateSecondDerivative c0 *m dx)
    + 2%:R^-1 * scalar_of (du^T *m controlSecondDerivative c0 *m du)
    + scalar_of (du^T *m stateControlDerivative c0 *m dx).
Proof.
move=> symQ symR /=.
rewrite /evaluate /stateDerivative /controlDerivative /stateSecondDerivative
        /controlSecondDerivative /stateControlDerivative /=.
rewrite mulmx0 mul0mx [scalar_of 0]/scalar_of mxE addr0.
rewrite [x + dx - _]addrAC [u + du - _]addrAC.
set xd := x - x_nominal_ c; set ud := u - u_nominal_ c.
rewrite (quadratic_expansion xd dx symQ) (quadratic_expansion ud du symR).
rewrite -!addrA; congr (_ + _).
rewrite [X in _ + X]addrCA addrCA; congr (_ + _); congr (_ + _).
by rewrite addrCA.
Qed.

(** X20. At the nominal state and input the cost is zero and both
    gradients vanish, whatever the weights are: the nominal point is a
    stationary point of the cost. *)
Theorem nominal_point_is_stationary (c : QuadraticCostFunction) (t : F) :
  let c0 := setCurrentStateAndControl t (x_nominal_ c) (u_nominal_ c) c in
  [/\ evaluate c0 = 0, stateDerivative c0 = 0 & controlDerivative c0 = 0].
Proof.
rewrite /evaluate /stateDerivative /controlDerivative /= !subrr !mulmx0.
by rewrite /scalar_of mxE addr0.
Qed.

End QuadraticCostFacts.

(** The theorem X19 at work on the weights [Q = 2 I] and [R = I]. *)
Lemma evaluate_expansion_exact_witness :
  let x : 'cV[rat]_2 := const_mx 2%:R in
  let dx : 'cV[rat]_2 := const_mx 1 in
  let u : 'cV[rat]_1 := 0 in
  let du : 'cV[rat]_1 := const_mx 1 in
  let c0 := setCurrentStateAndControl 0 x u toy_quadratic_cost in
  let c1 := setCurrentStateAndControl 0 (x + dx) (u + du) toy_quadratic_cost in
  evaluate c1
  = evaluate c0
    + scalar_of ((stateDerivative c0)^T *m dx)
    + scalar_of ((controlDerivative c0)^T *m du)
    + 2%:R^-1 * scalar_of (dx^T *m stateSecondDerivative c0 *m dx)
    + 2%:R^-1 * scalar_of (du^T *m controlSecondDerivative c0 *m du)
    + scalar_of (du^T *m stateControlDerivative c0 *m dx).
Proof.
apply: (@evaluate_expansion_exact rat 2 1 toy_cost_base toy_quadratic_cost).
  exact: tr_scalar_mx.
exact: tr_scalar_mx.
Defined.

(** ** The settings of the DDP correctness test *)

Lemma size_t_modulus_gt2 : (2 < size_t_modulus)%N.
Proof. by rewrite /size_t_modulus (ltn_trans _ (ltn_expl 64 _)). Qed.

Lemma size_t_modulus_gt4 : (4 < size_t_modulus)%N.
Proof. by rewrite /size_t_modulus (ltn_trans _ (ltn_expl 64 _)). Qed.

(** Wrapping arithmetic modulo any [M > 2]. *)
Lemma wrap_pred (M n : nat) :
  (2 < M)%N -> (0 < n)%N -> (n < M)%N -> ((n + (M - 1 %% M)) %% M = n.-1)%N.
Proof.
move=> M2 n0 nM; have M0 : (0 < M)%N by exact: ltn_trans M2.
rewrite (modn_small (ltnW M2)) addnBA // -addnBAC // subn1 modnDr modn_small //.
by apply: leq_ltn_trans nM; exact: leq_pred.
Qed.

Lemma wrap_pred0 (M : nat) : (2 < M)%N -> ((0 + (M - 1 %% M)) %% M = M.-1)%N.
Proof.
move=> M2; have M0 : (0 < M)%N by exact: ltn_trans M2.
by rewrite (modn_small (ltnW M2)) add0n subn1 modn_small // ltn_predL.
Qed.

Lemma wrap_add2 (M n : nat) : (n.+2 < M)%N -> ((2 + n) %% M = n.+2)%N.
Proof. by move=> lt; rewrite add2n modn_small. Qed.

Lemma wrap_add2_last (M : nat) : (2 < M)%N -> ((2 + M.-1) %% M = 1)%N.
Proof.
move=> M2; have M0 : (0 < M)%N by exact: ltn_trans M2.
rewrite add2n prednK // -addn1 modnDl modn_small //.
exact: ltn_trans M2.
Qed.

(** X17. [getSettings] asks for one thread per partition and for one
    iteration more than there are partitions, as long as that number fits
    in a [size_t]; with no partition at all the unsigned [numPartitions - 1]
    wraps around and the settings allow one iteration. *)
Theorem getSettings_iterations (algorithmType : ddp_Algorithm)
    (numPartitions : nat) (strategy : search_strategy_Type) (display : bool) :
  (numPartitions.+1 < size_t_modulus)%N ->
  let s := getSettings algorithmType numPartitions strategy display in
  nThreads_ s = numPartitions /\
  maxNumIterations_ s = (if numPartitions is 0 then 1 else numPartitions.+1)%N.
Proof.
rewrite /getSettings /maxNumIterations_ /nThreads_ /size_t_add /size_t_sub.
move: size_t_modulus size_t_modulus_gt2 => M M2 nM; split=> //.
case: numPartitions nM => [|n] nM; first by rewrite wrap_pred0 // wrap_add2_last.
by rewrite wrap_pred ?wrap_add2 //; exact: ltnW nM.
Qed.

(** The theorem X17 at work on three partitions. *)
Lemma getSettings_iterations_witness :
  let s := getSettings SLQ 3 LINE_SEARCH false in
  nThreads_ s = 3%N /\ maxNumIterations_ s = 4%N.
Proof.
exact: (@getSettings_iterations SLQ 3 LINE_SEARCH false size_t_modulus_gt4).
Defined.

(** X18. The partitioning times of the test are ordered: for
    [startTime <= finalTime] the list that [getPartitioningTimes] returns
    is sorted, starts at [startTime], ends at [finalTime], and has two
    entries for a single partition and three otherwise; the entry in the
    middle is then the midpoint, at the same distance from both ends, and
    strictly between them when the ends differ. *)
Theorem getPartitioningTimes_sorted (F : numFieldType)
    (partitioning : Partitioning) (startTime finalTime : F) :
  startTime <= finalTime ->
  let times := getPartitioningTimes partitioning startTime finalTime in
  [/\ sorted <=%R times, head 0 times = startTime, last 0 times = finalTime,
      size times = (if partitioning is SINGLE then 2 else 3)%N
    & partitioning = MULTI ->
      let mid := nth 0 times 1 in
      mid - startTime = finalTime - mid /\
      (startTime < finalTime -> startTime < mid < finalTime)].
Proof.
move=> le; case: partitioning => /=; split=> //; first by rewrite le.
- by have [-> ->] := Num.Theory.midf_le le.
- move=> _; split; last by move=> lt; have [-> ->] := Num.Theory.midf_lt lt.
  apply/eqP; rewrite subr_eq addrAC eq_sym subr_eq -Num.Theory.splitr.
  by rewrite addrC.
Qed.

(** The theorem X18 at work on the interval from 0 to 2. *)
Lemma getPartitioningTimes_sorted_witness :
  let times := getPartitioningTimes MULTI (0 : rat) 2%:R in
  [/\ sorted <=%R times, head 0 times = 0, last 0 times = 2%:R,
      size times = 3%N
    & MULTI = MULTI ->
      let mid := nth 0 times 1 in
      mid - 0 = 2%:R - mid /\ ((0 : rat) < 2%:R -> 0 < mid < 2%:R)].
Proof.
exact: (@getPartitioningTimes_sorted rat MULTI 0 2%:R (Num.Theory.ler0n _ 2)).
Defined.

(** X21. The settings that the two tests build,
    [getSettings(algorithm, partitioningTimes.size() - 1, strategy)]: one
    thread for a single partition and two otherwise, and in both cases one
    iteration more than threads. *)
Theorem test_settings_iterations (F : numFieldType) (algorithm : ddp_Algorithm)
    (partitioning : Partitioning) (strategy : search_strategy_Type)
    (startTime finalTime : F) :
  let s := test_settings algorithm partitioning strategy startTime finalTime in
  nThreads_ s = (if partitioning is SINGLE then 1%N else 2%N) /\
  maxNumIterations_ s = (nThreads_ s).+1.
Proof.
rewrite /test_settings /getSettings /maxNumIterations_ /nThreads_
        /size_t_add /size_t_sub.
move: size_t_modulus size_t_modulus_gt4 => M M4.
have M2 : (2 < M)%N by exact: ltn_trans M4.
have M3 : (3 < M)%N by exact: ltn_trans M4.
have M1 : (1 < M)%N by exact: ltn_trans M4.
case: partitioning; rewrite /getPartitioningTimes [size _]/=.
  by rewrite (@wrap_pred M 2) // [2.-1]/= (@wrap_pred M 1) // [1.-1]/= modn_small.
by rewrite (@wrap_pred M 3) // [3.-1]/= (@wrap_pred M 2) // [2.-1]/= modn_small.
Qed.


(** ** The feasible trajectory of the DDP correctness test *)

Section FeasibleFacts.
Variable F : fieldType.
Implicit Types (w x u : seq F) (xs us px pu : seq (seq F)).

Lemma size_vadd x w : size (vadd x w) = minn (size x) (size w).
Proof. by rewrite /vadd size_map size_zip. Qed.

Lemma vadd_cat x1 x2 w :
  (size x1 <= size w)%N ->
  vadd (x1 ++ x2) w = vadd x1 (take (size x1) w) ++ vadd x2 (drop (size x1) w).
Proof.
move=> le; rewrite /vadd -map_cat -zip_cat ?cat_take_drop //.
by rewrite size_take_min; apply/esym/minn_idPl.
Qed.

Lemma vadd_take x w : vadd x (take (size x) w) = vadd x w.
Proof.
rewrite /vadd; congr (map _ _).
by elim: x w => [|a x IH] [|b w] //=; rewrite IH.
Qed.

Lemma set_nth_cat (p s : seq (seq F)) (x v : seq F) (k : nat) :
  k = size p -> set_nth [::] (p ++ x :: s) k v = p ++ v :: s.
Proof. by move=> ->; elim: p => [|a p IH] //=; rewrite IH. Qed.

Lemma nth_cat_size (p s : seq (seq F)) (x : seq F) (k : nat) :
  k = size p -> nth [::] (p ++ x :: s) k = x.
Proof. by move=> ->; rewrite nth_cat ltnn subnn. Qed.

(** One turn of the loop at the first stage that is still to do. *)
Lemma correct_stage_next w px pu x xs u us (o : nat) :
  size px = size pu ->
  correct_stage w (px ++ x :: xs, pu ++ u :: us, o) (size px)
  = (rcons px (vadd x (segment o (size x) w)) ++ xs,
     rcons pu (vadd u (segment (o + size x) (size u) w)) ++ us,
     (o + (size x + size u))%N).
Proof.
move=> eqp; rewrite /correct_stage.
rewrite !(nth_cat_size _ _ (erefl (size px))) !(nth_cat_size _ _ eqp).
by rewrite (set_nth_cat _ _ _ (erefl (size px))) (set_nth_cat _ _ _ eqp) !cat_rcons.
Qed.

(** The loop, started after [size px] stages. *)
Lemma loop_corrected w px pu xs us (o : nat) :
  size px = size pu -> size xs = (size us).+1 ->
  let r := foldl (correct_stage w) (px ++ xs, pu ++ us, o)
                 (iota (size px) (size us)) in
  let k := (size px + size us)%N in
  (set_nth [::] r.1.1 k
     (vadd (nth [::] r.1.1 k) (segment r.2 (size (nth [::] r.1.1 k)) w)),
   r.1.2)
  = (px ++ (corrected w o xs us).1, pu ++ (corrected w o xs us).2).
Proof.
have fc (f : seq (seq F) * seq (seq F) * nat -> nat -> _) z a s :
  foldl f z (a :: s) = foldl f (f z a) s by [].
elim: us px pu xs o => [|u us IH] px pu [|x xs] o // eqp.
  case: xs => // _; rewrite /= addn0 /=.
  by rewrite (nth_cat_size _ _ (erefl _)) (set_nth_cat _ _ _ (erefl _)).
case=> eqs; cbv zeta; rewrite [iota _ _]/= fc correct_stage_next //.
have := IH (rcons px (vadd x (segment o (size x) w)))
           (rcons pu (vadd u (segment (o + size x) (size u) w))) xs
           (o + (size x + size u))%N.
rewrite !size_rcons eqp => /(_ (erefl _) eqs); cbv zeta.
rewrite -eqp [size (u :: us)]/= addSnnS => ->.
by rewrite /= !cat_rcons.
Qed.

Lemma size_coefficients (n : nat) (v : 'cV[F]_n) : size (coefficients v) = n.
Proof. by rewrite /coefficients size_map size_enum_ord. Qed.

Lemma size_stacked_cons x u xs us :
  size (stacked (x :: xs) (u :: us))
  = (size x + size u + size (stacked xs us))%N.
Proof. by rewrite /= !size_cat addnA. Qed.

(** Stage by stage, the corrected trajectory is the trajectory plus the
    part of [w] from the offset on, and no vector changes its size. *)
Lemma corrected_stacked w xs us (o : nat) :
  size xs = (size us).+1 ->
  (o + size (stacked xs us) <= size w)%N ->
  [/\ stacked (corrected w o xs us).1 (corrected w o xs us).2
      = vadd (stacked xs us) (drop o w),
      map size (corrected w o xs us).1 = map size xs
    & map size (corrected w o xs us).2 = map size us].
Proof.
have room (a : seq F) (o' k : nat) : (o' + (size a + k) <= size w)%N ->
    minn (size a) (size (drop o' w)) = size a.
  move=> le; apply/minn_idPl; rewrite size_drop leq_subRL.
    by apply: leq_trans le; rewrite leq_addr.
  by apply: leq_trans le; rewrite leq_add2l leq_addr.
elim: us xs o => [|u us IH] [|x xs] o //.
  case: xs => // _; rewrite /= !cats0 /segment vadd_take => le.
  have le' : (o + (size x + 0) <= size w)%N by rewrite addn0.
  by rewrite size_vadd (room _ _ _ le').
case=> eqs; rewrite size_stacked_cons => le.
have le2 : (o + (size x + size u) + size (stacked xs us) <= size w)%N.
  by rewrite -addnA.
have lx : minn (size x) (size (drop o w)) = size x.
  by move: le; rewrite -addnA; apply: room.
have lu : minn (size u) (size (drop (o + size x) w)) = size u.
  by move: le; rewrite -addnA addnA; apply: room.
have sx : (size x <= size (drop o w))%N by rewrite -lx geq_minr.
have su : (size u <= size (drop (o + size x) w))%N by rewrite -lu geq_minr.
have := IH xs (o + (size x + size u))%N eqs le2.
rewrite [corrected _ _ (_ :: _) _]/=.
move: (corrected w (o + (size x + size u)) xs us) => c [e1 e2 e3] /=.
rewrite e1 e2 e3 !size_vadd /segment !size_take_min lx lu !minnn !vadd_take.
split=> //; rewrite vadd_cat // drop_drop [(size x + o)%N]addnC vadd_cat //.
by rewrite !vadd_take drop_drop [(size u + _)%N]addnC addnA.
Qed.

(** [w] solves the linearised constraints, and it is orthogonal to the
    difference with any other solution: it is the solution of least norm. *)
Lemma feasibility_correction_solves (m n p : nat) (qp : Lin.t F m n p) :
  Lin.dfdx qp *m (Lin.dfdx qp)^T \in unitmx ->
  Lin.dfdx qp *m feasibility_correction qp + Lin.f qp = 0.
Proof.
move=> un; rewrite /feasibility_correction !mulmxA mulmxN mulNmx mulmxV //.
by rewrite mulNmx mul1mx addNr.
Qed.

Lemma feasibility_correction_orthogonal (m n p : nat) (qp : Lin.t F m n p)
    (v : 'cV[F]_n) :
  Lin.dfdx qp *m (Lin.dfdx qp)^T \in unitmx ->
  Lin.dfdx qp *m v + Lin.f qp = 0 ->
  (feasibility_correction qp)^T *m (v - feasibility_correction qp) = 0.
Proof.
move=> un sol; set w := feasibility_correction qp.
have Ad : Lin.dfdx qp *m (v - w) = 0.
  have := feasibility_correction_solves un; rewrite -sol => /addIr eq.
  by rewrite mulmxBr -/w eq subrr.
have wE : w = - ((Lin.dfdx qp)^T
              *m (invmx (Lin.dfdx qp *m (Lin.dfdx qp)^T) *m Lin.f qp)).
  by rewrite /w /feasibility_correction -mulmxA mulNmx.
by rewrite {1}wE linearN /= trmx_mul trmxK mulNmx -mulmxA Ad mulmx0 oppr0.
Qed.

(** X16. [getFeasibleTrajectory] adds the correction [w] to the trajectory
    and changes nothing else.  For a trajectory of [N] inputs and [N + 1]
    states whose vectors have [n] coefficients in all (the columns of the
    constraint matrix), the returned states and inputs, stacked as
    [x[0], u[0], x[1], ..., x[N]], are the given ones plus
    [w = -A' (A A')^-1 b] coefficient by coefficient; every state and input
    keeps its size, and the time trajectory is the given one. *)
Theorem getFeasibleTrajectory_adds_correction (m n p : nat)
    (qp : Lin.t F m n p) (tr : ContinuousTrajectory.t F) :
  size (ContinuousTrajectory.stateTrajectory tr)
  = (size (ContinuousTrajectory.inputTrajectory tr)).+1 ->
  size (stacked (ContinuousTrajectory.stateTrajectory tr)
                (ContinuousTrajectory.inputTrajectory tr)) = n ->
  let xs := ContinuousTrajectory.stateTrajectory tr in
  let us := ContinuousTrajectory.inputTrajectory tr in
  let r := getFeasibleTrajectory qp tr in
  let xs' := ContinuousTrajectory.stateTrajectory r in
  let us' := ContinuousTrajectory.inputTrajectory r in
  [/\ stacked xs' us'
      = vadd (stacked xs us) (coefficients (feasibility_correction qp)),
      map size xs' = map size xs, map size us' = map size us
    & ContinuousTrajectory.timeTrajectory r
      = ContinuousTrajectory.timeTrajectory tr].
Proof.
case: tr => ts xs us /= eqs eqn.
have := @loop_corrected (coefficients (feasibility_correction qp))
          [::] [::] xs us 0 (erefl _) eqs.
rewrite /= add0n /getFeasibleTrajectory /=.
case: (foldl _ _ _) => [[sx su] o] /= [-> ->] /=.
have [|e1 e2 e3] := @corrected_stacked (coefficients (feasibility_correction qp))
                     xs us 0 eqs.
  by rewrite add0n size_coefficients eqn.
by rewrite e1 drop0 e2 e3.
Qed.

End FeasibleFacts.

(** The theorem X16 at work on a trajectory of two states and one input. *)
Lemma getFeasibleTrajectory_adds_correction_witness :
  let xs := ContinuousTrajectory.stateTrajectory toy_trajectory in
  let us := ContinuousTrajectory.inputTrajectory toy_trajectory in
  let r := getFeasibleTrajectory toy_qpConstraints toy_trajectory in
  let xs' := ContinuousTrajectory.stateTrajectory r in
  let us' := ContinuousTrajectory.inputTrajectory r in
  [/\ stacked xs' us'
      = vadd (stacked xs us)
             (coefficients (feasibility_correction toy_qpConstraints)),
      map size xs' = map size xs, map size us' = map size us
    & ContinuousTrajectory.timeTrajectory r
      = ContinuousTrajectory.timeTrajectory toy_trajectory].
Proof.
exact: (@getFeasibleTrajectory_adds_correction rat 1 3 0 toy_qpConstraints
          toy_trajectory (erefl _) (erefl _)).
Defined.

Section FeasibleNorm.
Variable F : realFieldType.

Lemma sqnorm_ge0 (n : nat) (d : 'cV[F]_n) : 0 <= (d^T *m d) ord0 ord0.
Proof.
rewrite mxE; apply: Num.Theory.sumr_ge0 => i _.
by rewrite mxE -expr2 Num.Theory.sqr_ge0.
Qed.

Lemma orthogonal_shortest (n : nat) (w d : 'cV[F]_n) :
  w^T *m d = 0 -> (w^T *m w) ord0 ord0 <= ((w + d)^T *m (w + d)) ord0 ord0.
Proof.
move=> od.
have od' : d^T *m w = 0 by rewrite -[LHS]trmxK trmx_mul trmxK od trmx0.
rewrite [(w + d)^T]linearD /= mulmxDl !mulmxDr od od' addr0 add0r.
rewrite [X in _ <= X]mxE.
by rewrite Num.Theory.lerDl sqnorm_ge0.
Qed.

(** X9. The correction that [getFeasibleTrajectory] computes,
    [w = -A' (A A')^-1 b], is the least-norm solution of the linearised
    constraints, as the comment in the code announces: when [A A'] is
    invertible, [A w + b = 0], and for every other solution [v] of
    [A v + b = 0] the difference [v - w] is orthogonal to [w] and
    [w' w <= v' v]. *)
Theorem feasibility_correction_least_norm (m n p : nat) (qp : Lin.t F m n p)
    (v : 'cV[F]_n) :
  Lin.dfdx qp *m (Lin.dfdx qp)^T \in unitmx ->
  Lin.dfdx qp *m v + Lin.f qp = 0 ->
  let w := feasibility_correction qp in
  [/\ Lin.dfdx qp *m w + Lin.f qp = 0,
      w^T *m (v - w) = 0
    & (w^T *m w) ord0 ord0 <= (v^T *m v) ord0 ord0].
Proof.
move=> un sol w; have orth := feasibility_correction_orthogonal un sol.
split; [exact: feasibility_correction_solves | exact: orth |].
have -> : v = w + (v - w) by rewrite addrC subrK.
exact: orthogonal_shortest.
Qed.

End FeasibleNorm.

(** The theorem X9 at work on the constraint [dx[1] + 3 = 0] and its
    solution [(0, 0, -3)]. *)
Lemma feasibility_correction_least_norm_witness :
  let v : 'cV[rat]_3 := col_mx (0 : 'cV[rat]_2) (const_mx (- 3%:Q)) in
  let w := feasibility_correction toy_qpConstraints in
  [/\ Lin.dfdx toy_qpConstraints *m w + Lin.f toy_qpConstraints = 0,
      w^T *m (v - w) = 0
    & (w^T *m w) ord0 ord0 <= (v^T *m v) ord0 ord0].
Proof.
apply: (@feasibility_correction_least_norm rat 1 3 0 toy_qpConstraints).
  rewrite /toy_qpConstraints /= (@tr_row_mx _ 1 2 1).
  rewrite (@mul_row_col _ 1 2 1) trmx0 mulmx0 add0r.
  by rewrite trmx1 mulmx1 unitmx1.
rewrite /toy_qpConstraints /= (@mul_row_col _ 1 2 1) mul0mx add0r mul1mx.
by apply/matrixP => i j; rewrite !mxE addNr.
Defined.

(** ** The memory behind the stage pointers *)

Section MemoryFacts.
Context {F : fieldType}.
Implicit Types (m : memory F) (v u : matrix_t F) (a b : nat).

Lemma load_outside m a : (size m <= a)%N -> load m a = None.
Proof. by move=> le; rewrite /load nth_default. Qed.

Lemma load_allocated m a v : load m a = Some v -> (a < size m)%N.
Proof. by rewrite ltnNge; apply: contra_eqN => /load_outside ->. Qed.

Lemma load_cat m l a : (a < size m)%N -> load (m ++ l) a = load m a.
Proof. by move=> lt; rewrite /load nth_cat lt. Qed.

Lemma write_allocate m v u :
  write (size m) u (rcons m (Some v)) = rcons m (Some u).
Proof.
rewrite /write /load nth_rcons ltnn eqxx.
by elim: m => [|c m IH] //=; rewrite IH.
Qed.

Lemma size_release m a : size (release a m) = size m.
Proof.
rewrite /release; case E: (load m a) => [v|] //.
by rewrite size_set_nth; apply/maxn_idPr; exact: load_allocated E.
Qed.

Lemma load_release m a b :
  load (release b m) a = if a == b then None else load m a.
Proof.
rewrite /release; case E: (load m b) => [v|]; first by rewrite /load nth_set_nth.
by case: eqP => [->|].
Qed.

(** The destructors of a list of locals. *)
Lemma load_released m (locals : seq nat) a :
  load (foldl (fun m a => release a m) m locals) a
  = if a \in locals then None else load m a.
Proof.
elim: locals m => [|b locals IH] m //=.
by rewrite IH load_release in_cons; case: (a \in locals); rewrite ?orbT ?orbF.
Qed.

End MemoryFacts.

Lemma iota_rcons (m j : nat) : iota m j.+1 = rcons (iota m j) (m + j)%N.
Proof. by rewrite -addn1 iotaD /= cats1. Qed.

Section PointerTranscriptionFacts.
Context {F : fieldType} {d : StageDims}.
Variables (n : nat) (x0 : 'cV[F]_(state_dim d 0)) (lay : Layout).

(** [b0] is the first new buffer, and it holds the absorbed residual. *)
Lemma transcribe_dynamics_memory (dynamics : dynamics_t F d) (m : memory F) :
  let r := Pointers.transcribe_dynamics n x0 lay dynamics m in
  r.1.2 = size m /\
  r.2 = rcons m (Some (to_matrix_t
                   (Lin.f (dynamics 0%N) + Lin.dfdx (dynamics 0%N) *m x0))).
Proof. by rewrite /Pointers.transcribe_dynamics /= write_allocate. Qed.

(** [r0] is the next one, and it holds the adapted gradient. *)
Lemma transcribe_cost_memory (cost : cost_t F d) (m : memory F) :
  let r := Pointers.transcribe_cost n x0 lay cost m in
  r.1.2 = size m /\
  r.2 = rcons m (Some (to_matrix_t
                   (Quad.dfdu (cost 0%N) + Quad.dfdux (cost 0%N) *m x0))).
Proof. by rewrite /Pointers.transcribe_cost /= write_allocate. Qed.

(** The buffers of [boundData] follow, one for each stage visited, and they
    hold the bounds. *)
Lemma constraint_loop_memory (constr : constraints_t F d)
    (p : Pointers.ConstraintPtrs) (m : memory F) (j : nat) :
  Pointers.boundData p = [::] ->
  let r := foldl (Pointers.constraint_stage x0 lay constr) (p, m) (iota 0 j) in
  Pointers.boundData r.1 = iota (size m) j /\
  r.2 = m ++ map (fun k => Some (to_matrix_t (constraint_bound constr x0 k)))
                 (iota 0 j).
Proof.
move=> empty; elim: j => [|j]; first by rewrite /= cats0.
cbv zeta; rewrite !iota_rcons add0n foldl_rcons map_rcons.
case: (foldl _ _ _) => [q mj] /= [eb em].
rewrite /Pointers.constraint_stage /= eb em size_cat size_map size_iota.
split=> //; rewrite -rcons_cat; case: j {eb em} => [|j] //=.
by rewrite cats0 addn0 write_allocate.
Qed.

Lemma transcribe_constraints_memory (constraints : option (constraints_t F d))
    (m : memory F) :
  let r := Pointers.transcribe_constraints n x0 lay constraints m in
  if constraints is Some constr then
    Pointers.boundData r.1 = iota (size m) n.+1 /\
    r.2 = m ++ map (fun k => Some (to_matrix_t (constraint_bound constr x0 k)))
                   (iota 0 n.+1)
  else Pointers.boundData r.1 = [::] /\ r.2 = m.
Proof.
rewrite /Pointers.transcribe_constraints; case: constraints => [constr|] //.
exact: constraint_loop_memory.
Qed.

End PointerTranscriptionFacts.

Section PointerVectorFacts.

Lemma size_put (a : seq pointer) (k : nat) (p : pointer) :
  size (Pointers.put a k p) = size a.
Proof.
rewrite /Pointers.put; case: ifP => // lt.
by rewrite size_set_nth; apply/maxn_idPr.
Qed.

Lemma nth_put (a : seq pointer) (k j : nat) (p : pointer) :
  nth None (Pointers.put a k p) j
  = if (j == k) && (k < size a)%N then p else nth None a j.
Proof.
rewrite /Pointers.put; case: ifP => _; last by rewrite andbF.
by rewrite nth_set_nth /= andbT.
Qed.

(** A loop that puts [g k] at every index [k] it visits. *)
Lemma foldl_put (S : Type) (field : S -> seq pointer) (body : S -> nat -> S)
    (g : nat -> pointer) :
  (forall q k, field (body q k) = Pointers.put (field q) k (g k)) ->
  forall (ks : seq nat) (q : S),
    size (field (foldl body q ks)) = size (field q) /\
    forall j, nth None (field (foldl body q ks)) j
              = if (j \in ks) && (j < size (field q))%N then g j
                else nth None (field q) j.
Proof.
move=> step; elim=> [|k ks IH] q //=.
have [-> nthE] := IH (body q k); rewrite step size_put; split=> // j.
rewrite nthE step size_put nth_put in_cons.
case: (eqVneq j k) => [->|neq] /=; last by [].
by case: (k \in ks); case: (k < size (field q))%N.
Qed.

End PointerVectorFacts.

Section PointerSolveFacts.
Context {F : fieldType} {d : StageDims}.
Variables (n : nat) (x0 : 'cV[F]_(state_dim d 0)) (lay : Layout).
Variables (dynamics : dynamics_t F d) (cost : cost_t F d).
Variable constraints : option (constraints_t F d).

Lemma transcribe_memory (m : memory F) :
  let r := Pointers.transcribe n x0 lay dynamics cost constraints m in
  [/\ r.1.1.2 = size m, r.1.2 = (size m).+1,
      Pointers.boundData (Pointers.qp_constraints r.1.1.1)
      = iota (size m).+2 (size (locals_of n x0 dynamics cost constraints) - 2)
    & r.2 = m ++ locals_of n x0 dynamics cost constraints].
Proof.
rewrite /Pointers.transcribe /locals_of.
rewrite /Pointers.transcribe_dynamics /Pointers.transcribe_cost /allocate.
rewrite !write_allocate size_rcons.
have := transcribe_constraints_memory n x0 lay constraints
          (rcons (rcons m (Some (to_matrix_t
             (Lin.f (dynamics 0%N) + Lin.dfdx (dynamics 0%N) *m x0))))
             (Some (to_matrix_t
               (Quad.dfdu (cost 0%N) + Quad.dfdux (cost 0%N) *m x0)))).
case: (Pointers.transcribe_constraints _ _ _ _ _) => [con m3] /=.
rewrite !size_rcons -!cats1 -!catA !cat1s.
case: constraints => [constr|] [-> ->]; split=> //; last by rewrite -catA.
by rewrite /= size_map size_iota.
Qed.

End PointerSolveFacts.

Lemma mem_locals (sm k a : nat) :
  (a \in sm.+1 :: sm :: iota sm.+2 k) = (sm <= a < sm + k.+2)%N.
Proof. by rewrite !inE orbCA -!in_cons -[_ :: _]/(iota sm k.+2) mem_iota. Qed.

Section PointerFrame.
Context {F : fieldType} {d : StageDims} {api : HpipmMemApi}
        {solver : HpipmSolverApi F d api} {hpipm : Pointers.HpipmApi F api}.
Variables (x0 : 'cV[F]_(state_dim d 0)) (verbose : bool) (lay : Layout).
Variables (s : @SolveState F d api) (m : memory F).

Let n := N (ocpSize_ (this s)).
Let locals := locals_of n x0 (dynamics s) (cost s) (constraints s).

(** The memory that [solve] leaves when HPIPM stores nothing in it: the
    memory of the call, followed by the released buffers of the locals. *)
Lemma solve_memory :
  reads_only hpipm ->
  Pointers.Outcome.mem (Pointers.solve x0 verbose lay s m)
  = foldl (fun m a => release a m) (m ++ locals)
          ((size m).+1 :: size m :: iota (size m).+2 (size locals - 2)).
Proof.
case=> ro1 ro2; rewrite /Pointers.solve.
have := transcribe_memory n x0 lay (dynamics s) (cost s) (constraints s) m.
rewrite -/n -/locals.
case: (Pointers.transcribe _ _ _ _ _ _ _) => [[[q b0] r0] m1] /= [-> -> -> ->].
have := ro1 q (m ++ locals) (qp_ (this s)).
case: (Pointers.d_ocp_qp_set_all _ _ _) => [qp m2] /= ->.
set t1 := set_qp_ qp (this s).
have := ro2 (qp_ t1) (qpSol_ t1) (arg_ t1) (workspace_ t1) (m ++ locals).
by case: (Pointers.d_ocp_qp_ipm_solve _ _ _ _ _) => [[sol ws] m3] /= ->.
Qed.

Lemma solve_frame (a : nat) :
  reads_only hpipm ->
  load (Pointers.Outcome.mem (Pointers.solve x0 verbose lay s m)) a = load m a.
Proof.
move=> ro; rewrite solve_memory // load_released mem_locals.
have sl : ((size locals - 2).+2 = size locals)%N by rewrite /locals /locals_of /= ?subn2.
rewrite sl; case: (ltnP a (size m)) => [lt|le] /=.
  by rewrite load_cat.
rewrite [RHS]load_outside //; case: ltnP => // le2.
by rewrite load_outside // size_cat.
Qed.

End PointerFrame.

Example toy_reads_only : reads_only toy_hpipm.
Proof. by split. Qed.

Example toy_represents :
  represents 2 toy_layout toy_dynamics toy_cost (Some toy_constraints) toy_memory.
Proof.
split.
- by case=> [|[|k]].
- by case=> [|[|[|k]]].
- by move=> constr [<-]; case=> [|[|[|k]]].
Qed.

(** C7. [solve] does not change its stage approximations, in the memory
    that its pointers address.  Whenever HPIPM keeps its side (it stores
    nothing through the data pointers it is given), every address reads
    after the call what it read before; so a memory that holds the
    dynamics, the costs and the constraints of the call at the caller's
    buffers holds them there after the call.  The absorbed residual and the
    adapted gradient of stage 0 are built in buffers of their own: [b0] and
    [r0] are the first two addresses that were not allocated at the call,
    they hold [f0 + A0 x0] and [dfdu0 + dfdux0 x0] when HPIPM is called,
    and [bb[0]] and [rr[0]] point to them, not to the buffers of
    [dynamics[0].f] and [cost[0].dfdu]. *)
Theorem solve_inputs_unchanged {F : fieldType} {d : StageDims} {api : HpipmMemApi}
    {solver : HpipmSolverApi F d api} (hpipm : Pointers.HpipmApi F api)
    (x0 : 'cV[F]_(state_dim d 0)) (verbose : bool) (lay : Layout)
    (s : SolveState) (m : memory F) :
  reads_only hpipm ->
  let n := N (ocpSize_ (this s)) in
  let m' := Pointers.Outcome.mem (Pointers.solve x0 verbose lay s m) in
  let q := Pointers.transcribe n x0 lay (dynamics s) (cost s) (constraints s) m in
  let b0 := size m in
  let r0 := (size m).+1 in
  [/\ forall a, load m' a = load m a,
      represents n lay (dynamics s) (cost s) (constraints s) m ->
      represents n lay (dynamics s) (cost s) (constraints s) m',
      load m b0 = None /\ load m r0 = None,
      holds q.2 b0 (Lin.f (dynamics s 0%N) + Lin.dfdx (dynamics s 0%N) *m x0) /\
      holds q.2 r0 (Quad.dfdu (cost s 0%N) + Quad.dfdux (cost s 0%N) *m x0)
    & ((0 < n)%N ->
       nth None (Pointers.bb (Pointers.qp_dynamics q.1.1.1)) 0 = Some b0) /\
      nth None (Pointers.rr (Pointers.qp_cost q.1.1.1)) 0 = Some r0].
Proof.
move=> ro n m' q b0 r0.
have fr a : load m' a = load m a by exact: solve_frame.
have [eb er _ em] :=
  transcribe_memory n x0 lay (dynamics s) (cost s) (constraints s) m.
split=> //.
- move=> [rd rc rk]; rewrite /represents /holds; split.
  + by move=> k kn; rewrite !fr; exact: rd.
  + by move=> k kn; rewrite !fr; exact: rc.
  + by move=> constr ec k kn; rewrite !fr; exact: (rk constr).
- by rewrite !load_outside.
- by rewrite /holds /q em /load !nth_cat ltnn subnn ltnNge leqnSn /= subSn // subnn.
- rewrite /q /Pointers.transcribe /Pointers.transcribe_dynamics
          /Pointers.transcribe_cost /allocate !write_allocate size_rcons.
  case: (Pointers.transcribe_constraints _ _ _ _ _) => [con m3] /=; split.
    move=> n0.
    have [_ ->] := @foldl_put _ Pointers.bb (Pointers.dynamics_stage lay)
      (fun k => Some (LinAt.f (dynamics_at lay k))) (fun _ _ => erefl _)
      (iota 1 (n - 1))
      (Pointers.MkDynamicsPtrs
         (Pointers.put (nseq n None) 0 (Some (LinAt.dfdx (dynamics_at lay 0))))
         (Pointers.put (nseq n None) 0 (Some (LinAt.dfdu (dynamics_at lay 0))))
         (Pointers.put (nseq n None) 0 (Some (size m)))).
    by rewrite mem_iota ltnn !andFb nth_put size_nseq n0.
  have [_ ->] := @foldl_put _ Pointers.rr (Pointers.cost_stage lay)
    (fun k => Some (QuadAt.dfdu (cost_at lay k))) (fun _ _ => erefl _)
    (iota 1 n)
    (Pointers.MkCostPtrs
       (Pointers.put (nseq n.+1 None) 0 (Some (QuadAt.dfdxx (cost_at lay 0))))
       (Pointers.put (nseq n.+1 None) 0 (Some (QuadAt.dfduu (cost_at lay 0))))
       (Pointers.put (nseq n.+1 None) 0 (Some (QuadAt.dfdux (cost_at lay 0))))
       (Pointers.put (nseq n.+1 None) 0 (Some (QuadAt.dfdx (cost_at lay 0))))
       (Pointers.put (nseq n.+1 None) 0 (Some (size m).+1))).
  by rewrite mem_iota ltnn !andFb nth_put size_nseq.
Qed.

(** The theorem C7 at work: after a verbose [solve] on a horizon of two
    stages with constraints, the caller's thirty buffers hold the stage
    data. *)
Lemma solve_inputs_unchanged_witness :
  represents 2 toy_layout toy_dynamics toy_cost (Some toy_constraints)
    (Pointers.Outcome.mem
       (@Pointers.solve rat toy_dims toy_api (toy_solver 0) toy_hpipm
          toy_x0 true toy_layout toy_state toy_memory)).
Proof.
have [_ H _ _ _] :=
  @solve_inputs_unchanged rat toy_dims toy_api (toy_solver 0) toy_hpipm
    toy_x0 true toy_layout toy_state toy_memory toy_reads_only.
exact: (H toy_represents).
Defined.

(** The hypothesis on HPIPM is needed, and the memory shows it: with an
    HPIPM that stores through [AA[0]], the buffer of [dynamics[0].dfdx] is
    not what it was. *)
Example solve_with_storing_hpipm :
  load (Pointers.Outcome.mem
          (@Pointers.solve rat toy_dims toy_api (toy_solver 0) storing_hpipm
             toy_x0 false toy_layout toy_state toy_memory)) 1
  <> load toy_memory 1.
Proof. by move/(congr1 (omap (@mrows rat))). Qed.

(** ** The two models of [solve] side by side *)

Section ViewFacts.
Context {F : fieldType}.

Lemma view_to_matrix_t (r c : nat) (A : 'M[F]_(r, c)) :
  view r c (to_matrix_t A) = Some A.
Proof.
rewrite /view /=; case: eqP => // er; case: eqP => // ec.
by rewrite (eq_axiomK er) (eq_axiomK ec) castmx_id.
Qed.

(** A pointer to a buffer of the call still points to the same matrix when
    buffers have been added. *)
Lemma pointee_holds (m l : memory F) (a r c : nat) (A : 'M[F]_(r, c)) :
  holds m a A -> pointee (m ++ l) r c (Some a) = Some A.
Proof.
rewrite /holds /pointee => h.
by rewrite load_cat ?h /= ?view_to_matrix_t //; exact: load_allocated h.
Qed.

(** A pointer to a new buffer. *)
Lemma pointee_new (m l : memory F) (i r c : nat) (A : 'M[F]_(r, c)) :
  nth None l i = Some (to_matrix_t A) ->
  pointee (m ++ l) r c (Some (size m + i)%N) = Some A.
Proof.
move=> h; rewrite /pointee /load nth_cat ltnNge leq_addr /=.
by rewrite addKn h /= view_to_matrix_t.
Qed.

End ViewFacts.

Lemma store_null_outside (T : nat -> Type) (n i k : nat) (p : option (T i)) :
  (n <= k)%N -> store n (null_array T) i p k = None.
Proof.
move=> le; rewrite /store; case: ifP => // lt; case: eqP => // e.
by exfalso; move: (leq_trans lt le); rewrite e ltnn.
Qed.

Section TranscriptionOutside.
Context {F : fieldType} {d : StageDims}.
Variables (n : nat) (x0 : 'cV[F]_(state_dim d 0)).

(** Past the end of the horizon every pointer is null. *)
Lemma transcribe_dynamics_outside (dynamics : dynamics_t F d) (k : nat) :
  (n <= k)%N ->
  let p := transcribe_dynamics n x0 dynamics in
  [/\ AA p k = None, BB p k = None & bb p k = None].
Proof.
move=> le p; rewrite /p /transcribe_dynamics; split.
- rewrite (@foldl_store _ _ (@AA F d) (dynamics_stage n dynamics) n
            (fun k => data (Lin.dfdx (dynamics k)))) //.
  by rewrite in_dynamics_loop [(k < n)%N]ltnNge le andbF /= store_null_outside.
- rewrite (@foldl_store _ _ (@BB F d) (dynamics_stage n dynamics) n
            (fun k => data (Lin.dfdu (dynamics k)))) //.
  by rewrite in_dynamics_loop [(k < n)%N]ltnNge le andbF /= store_null_outside.
- rewrite (@foldl_store _ _ (@bb F d) (dynamics_stage n dynamics) n
            (fun k => data (Lin.f (dynamics k)))) //.
  by rewrite in_dynamics_loop [(k < n)%N]ltnNge le andbF /= store_null_outside.
Qed.

Lemma transcribe_cost_outside (cost : cost_t F d) (k : nat) :
  (n < k)%N ->
  let p := transcribe_cost n x0 cost in
  [/\ QQ p k = None, RR p k = None, SS p k = None, qq p k = None
    & rr p k = None].
Proof.
move=> lt p; rewrite /p /transcribe_cost; split.
- rewrite (@foldl_store _ _ (@QQ F d) (cost_stage n cost) n.+1
            (fun k => data (Quad.dfdxx (cost k)))) //.
  by rewrite in_cost_loop [(k <= n)%N]leqNgt lt andbF /= store_null_outside.
- rewrite (@foldl_store _ _ (@RR F d) (cost_stage n cost) n.+1
            (fun k => data (Quad.dfduu (cost k)))) //.
  by rewrite in_cost_loop [(k <= n)%N]leqNgt lt andbF /= store_null_outside.
- rewrite (@foldl_store _ _ (@SS F d) (cost_stage n cost) n.+1
            (fun k => data (Quad.dfdux (cost k)))) //.
  by rewrite in_cost_loop [(k <= n)%N]leqNgt lt andbF /= store_null_outside.
- rewrite (@foldl_store _ _ (@qq F d) (cost_stage n cost) n.+1
            (fun k => data (Quad.dfdx (cost k)))) //.
  by rewrite in_cost_loop [(k <= n)%N]leqNgt lt andbF /= store_null_outside.
- rewrite (@foldl_store _ _ (@rr F d) (cost_stage n cost) n.+1
            (fun k => data (Quad.dfdu (cost k)))) //.
  by rewrite in_cost_loop [(k <= n)%N]leqNgt lt andbF /= store_null_outside.
Qed.

Lemma transcribe_constraints_outside
    (constraints : option (constraints_t F d)) (k : nat) :
  (n < k)%N ->
  let p := transcribe_constraints n x0 constraints in
  [/\ CC p k = None, DD p k = None, llg p k = None & uug p k = None].
Proof.
move=> lt p; rewrite /p {p} /transcribe_constraints.
case: constraints => [constr|] //; split.
- rewrite (@foldl_store _ _ (@CC F d) (constraint_stage n x0 constr) n.+1
            (fun k => data (Lin.dfdx (constr k)))) //.
  by rewrite in_constraint_loop leqNgt lt.
- rewrite (@foldl_store _ _ (@DD F d) (constraint_stage n x0 constr) n.+1
            (fun k => data (Lin.dfdu (constr k)))) //.
  by rewrite in_constraint_loop leqNgt lt.
- rewrite (@foldl_store _ _ (@llg F d) (constraint_stage n x0 constr) n.+1
            (fun k => Some (constraint_bound constr x0 k))).
    by move=> q i j; rewrite /constraint_stage /= boundData_written.
  by rewrite in_constraint_loop leqNgt lt.
- rewrite (@foldl_store _ _ (@uug F d) (constraint_stage n x0 constr) n.+1
            (fun k => Some (constraint_bound constr x0 k))).
    by move=> q i j; rewrite /constraint_stage /= boundData_written.
  by rewrite in_constraint_loop leqNgt lt.
Qed.

End TranscriptionOutside.

(** A vector of null pointers with its first entry set, then a loop of
    puts. *)
Lemma loop_put_from_null (S : Type) (field : S -> seq pointer)
    (body : S -> nat -> S) (g : nat -> pointer) (len : nat) (ks : seq nat)
    (q0 : S) (p0 : pointer) :
  (forall q k, field (body q k) = Pointers.put (field q) k (g k)) ->
  field q0 = Pointers.put (nseq len None) 0 p0 ->
  forall j, nth None (field (foldl body q0 ks)) j
            = if (j \in ks) && (j < len)%N then g j
              else if (j == 0%N) && (0 < len)%N then p0 else None.
Proof.
move=> step init j; have [_ ->] := foldl_put step ks q0.
by rewrite init size_put size_nseq nth_put size_nseq nth_nseq if_same.
Qed.

Section PointerClosedForms.
Context {F : fieldType} {d : StageDims}.
Variables (n : nat) (x0 : 'cV[F]_(state_dim d 0)) (lay : Layout).

Lemma transcribe_dynamics_pointers (dynamics : dynamics_t F d) (m : memory F)
    (k : nat) :
  let p := (Pointers.transcribe_dynamics n x0 lay dynamics m).1.1 in
  [/\ nth None (Pointers.AA p) k
      = if (k < n)%N then Some (LinAt.dfdx (dynamics_at lay k)) else None,
      nth None (Pointers.BB p) k
      = if (k < n)%N then Some (LinAt.dfdu (dynamics_at lay k)) else None
    & nth None (Pointers.bb p) k
      = if (k < n)%N then
          Some (if k is 0%N then size m else LinAt.f (dynamics_at lay k))
        else None].
Proof.
rewrite /Pointers.transcribe_dynamics /allocate /=; split.
- rewrite (@loop_put_from_null _ Pointers.AA (Pointers.dynamics_stage lay)
            (fun k => Some (LinAt.dfdx (dynamics_at lay k))) n _ _
            (Some (LinAt.dfdx (dynamics_at lay 0)))) //.
  by rewrite in_dynamics_loop; case: k.
- rewrite (@loop_put_from_null _ Pointers.BB (Pointers.dynamics_stage lay)
            (fun k => Some (LinAt.dfdu (dynamics_at lay k))) n _ _
            (Some (LinAt.dfdu (dynamics_at lay 0)))) //.
  by rewrite in_dynamics_loop; case: k.
- rewrite (@loop_put_from_null _ Pointers.bb (Pointers.dynamics_stage lay)
            (fun k => Some (LinAt.f (dynamics_at lay k))) n _ _
            (Some (size m))) //.
  by rewrite in_dynamics_loop; case: k.
Qed.

Lemma transcribe_cost_pointers (cost : cost_t F d) (m : memory F) (k : nat) :
  let p := (Pointers.transcribe_cost n x0 lay cost m).1.1 in
  [/\ nth None (Pointers.QQ p) k
      = if (k <= n)%N then Some (QuadAt.dfdxx (cost_at lay k)) else None,
      nth None (Pointers.RR p) k
      = if (k <= n)%N then Some (QuadAt.dfduu (cost_at lay k)) else None,
      nth None (Pointers.SS p) k
      = if (k <= n)%N then Some (QuadAt.dfdux (cost_at lay k)) else None,
      nth None (Pointers.qq p) k
      = if (k <= n)%N then Some (QuadAt.dfdx (cost_at lay k)) else None
    & nth None (Pointers.rr p) k
      = if (k <= n)%N then
          Some (if k is 0%N then size m else QuadAt.dfdu (cost_at lay k))
        else None].
Proof.
rewrite /Pointers.transcribe_cost /allocate /=; split.
- rewrite (@loop_put_from_null _ Pointers.QQ (Pointers.cost_stage lay)
            (fun k => Some (QuadAt.dfdxx (cost_at lay k))) n.+1 _ _
            (Some (QuadAt.dfdxx (cost_at lay 0)))) //.
  by rewrite in_cost_loop; case: k.
- rewrite (@loop_put_from_null _ Pointers.RR (Pointers.cost_stage lay)
            (fun k => Some (QuadAt.dfduu (cost_at lay k))) n.+1 _ _
            (Some (QuadAt.dfduu (cost_at lay 0)))) //.
  by rewrite in_cost_loop; case: k.
- rewrite (@loop_put_from_null _ Pointers.SS (Pointers.cost_stage lay)
            (fun k => Some (QuadAt.dfdux (cost_at lay k))) n.+1 _ _
            (Some (QuadAt.dfdux (cost_at lay 0)))) //.
  by rewrite in_cost_loop; case: k.
- rewrite (@loop_put_from_null _ Pointers.qq (Pointers.cost_stage lay)
            (fun k => Some (QuadAt.dfdx (cost_at lay k))) n.+1 _ _
            (Some (QuadAt.dfdx (cost_at lay 0)))) //.
  by rewrite in_cost_loop; case: k.
- rewrite (@loop_put_from_null _ Pointers.rr (Pointers.cost_stage lay)
            (fun k => Some (QuadAt.dfdu (cost_at lay k))) n.+1 _ _
            (Some (size m))) //.
  by rewrite in_cost_loop; case: k.
Qed.

(** The constraint pointers after [j] turns of the loop. *)
Lemma constraint_loop_pointers (constr : constraints_t F d) (m : memory F)
    (j : nat) :
  (j <= n.+1)%N ->
  let p0 := Pointers.MkConstraintPtrs [::] (nseq n.+1 None) (nseq n.+1 None)
                                      (nseq n.+1 None) (nseq n.+1 None) in
  let r := foldl (Pointers.constraint_stage x0 lay constr) (p0, m) (iota 0 j) in
  [/\ [/\ size (Pointers.CC r.1) = n.+1, size (Pointers.DD r.1) = n.+1,
          size (Pointers.llg r.1) = n.+1 & size (Pointers.uug r.1) = n.+1],
      forall k, nth None (Pointers.CC r.1) k
        = if (k < j)%N then Some (LinAt.dfdx (constraints_at lay k)) else None,
      forall k, nth None (Pointers.DD r.1) k
        = if (k < j)%N then Some (LinAt.dfdu (constraints_at lay k)) else None,
      forall k, nth None (Pointers.llg r.1) k
        = if (k < j)%N then Some (size m + k)%N else None
    & forall k, nth None (Pointers.uug r.1) k
        = if (k < j)%N then Some (size m + k)%N else None].
Proof.
elim: j => [|j IH] lt.
  by rewrite /= !size_nseq; split=> // k; rewrite -[_ :: _]/(nseq n.+1 None) nth_nseq if_same.
move: (IH (ltnW lt)) => {IH}; cbv zeta; rewrite iota_rcons add0n foldl_rcons.
have := @constraint_loop_memory F d x0 lay constr
          (Pointers.MkConstraintPtrs [::] (nseq n.+1 None) (nseq n.+1 None)
                                     (nseq n.+1 None) (nseq n.+1 None))
          m j (erefl _).
case: (foldl _ _ _) => [q mj] /= [eb em] [[s1 s2 s3 s4] c1 c2 c3 c4].
have sm : size mj = (size m + j)%N by rewrite em size_cat size_map size_iota.
have nb : nth 0%N (rcons (Pointers.boundData q) (size mj)) j = (size m + j)%N.
  by rewrite eb nth_rcons size_iota ltnn eqxx.
rewrite /Pointers.constraint_stage /= !size_put nb; split=> // k;
  rewrite nth_put ?s1 ?s2 ?s3 ?s4 lt andbT ltnS leq_eqVlt ?c1 ?c2 ?c3 ?c4;
  by case: eqP => [->|].
Qed.

Lemma transcribe_constraints_pointers
    (constraints : option (constraints_t F d)) (m : memory F) (k : nat) :
  let p := (Pointers.transcribe_constraints n x0 lay constraints m).1 in
  let here := (k <= n)%N && (constraints : bool) in
  [/\ nth None (Pointers.CC p) k
      = if here then Some (LinAt.dfdx (constraints_at lay k)) else None,
      nth None (Pointers.DD p) k
      = if here then Some (LinAt.dfdu (constraints_at lay k)) else None,
      nth None (Pointers.llg p) k = if here then Some (size m + k)%N else None
    & nth None (Pointers.uug p) k = if here then Some (size m + k)%N else None].
Proof.
rewrite /Pointers.transcribe_constraints; case: constraints => [constr|].
  have [_ c1 c2 c3 c4] := constraint_loop_pointers constr m (leqnn n.+1).
  by cbv zeta; rewrite [X in _ && X]/= andbT -ltnS; split.
by cbv zeta; rewrite /= andbF -![None :: nseq n None]/(nseq n.+1 None) !nth_nseq
     !if_same.
Qed.

End PointerClosedForms.

Section Simulation.
Context {F : fieldType} {d : StageDims}.
Variables (n : nat) (x0 : 'cV[F]_(state_dim d 0)) (lay : Layout).
Variables (dynamics : dynamics_t F d) (cost : cost_t F d).
Variable constraints : option (constraints_t F d).
Variable m : memory F.

Let b0v := Some (to_matrix_t (Lin.f (dynamics 0%N) + Lin.dfdx (dynamics 0%N) *m x0)).
Let r0v := Some (to_matrix_t (Quad.dfdu (cost 0%N) + Quad.dfdux (cost 0%N) *m x0)).

Lemma transcribe_pointers :
  (Pointers.transcribe n x0 lay dynamics cost constraints m).1.1.1
  = Pointers.MkQpData
      (Pointers.transcribe_dynamics n x0 lay dynamics m).1.1
      (Pointers.transcribe_cost n x0 lay cost (rcons m b0v)).1.1
      (Pointers.transcribe_constraints n x0 lay constraints
         (rcons (rcons m b0v) r0v)).1.
Proof.
rewrite /Pointers.transcribe /Pointers.transcribe_dynamics
        /Pointers.transcribe_cost /allocate !write_allocate.
by case: (Pointers.transcribe_constraints _ _ _ _ _).
Qed.

(** The pointers that [solve] hands to [d_ocp_qp_set_all] point to the data
    that the transcription of the first part hands over. *)
Lemma transcribe_same_data :
  represents n lay dynamics cost constraints m ->
  let r := Pointers.transcribe n x0 lay dynamics cost constraints m in
  same_data (pointees r.1.1.1 r.2) (transcribe n x0 dynamics cost constraints).
Proof.
move=> [rd rc rk] r k; rewrite /r transcribe_pointers {r}.
have [_ _ _ ->] := transcribe_memory n x0 lay dynamics cost constraints m.
rewrite /pointees /transcribe /=.
have [pA pB pb] := transcribe_dynamics_pointers n x0 lay dynamics m k.
have [pQ pR pS pq pr] := transcribe_cost_pointers n x0 lay cost (rcons m b0v) k.
have [pC pD pl pu] :=
  transcribe_constraints_pointers n x0 lay constraints (rcons (rcons m b0v) r0v) k.
rewrite pA pB pb pQ pR pS pq pr pC pD pl pu {pA pB pb pQ pR pS pq pr pC pD pl pu}.
rewrite !size_rcons; split.
- case: (ltnP k n) => [lt|le]; last first.
    by have [-> -> ->] := transcribe_dynamics_outside x0 dynamics le.
  have [hf hA hB] := rd k lt.
  rewrite !(pointee_holds _ hA) !(pointee_holds _ hB).
  case: k lt {hf hA hB} => [|k] lt.
    have [-> -> ->] := transcribe_dynamics_first x0 dynamics lt.
    split=> //; rewrite -[size m]addn0.
    by rewrite (@pointee_new _ m _ 0 _ _ (Lin.f (dynamics 0%N) + Lin.dfdx (dynamics 0%N) *m x0)).
  have [hf _ _] := rd k.+1 lt.
  have [| -> -> ->] := @transcribe_dynamics_later F d n x0 dynamics k.+1; first by [].
  by rewrite (pointee_holds _ hf).
- case: (leqP k n) => [le|lt]; last first.
    by have [-> -> -> -> ->] := transcribe_cost_outside x0 cost lt.
  have [hQ hS hR hq hr] := rc k le.
  rewrite !(pointee_holds _ hQ) !(pointee_holds _ hS) !(pointee_holds _ hR)
          !(pointee_holds _ hq).
  case: k le {hQ hS hR hq hr} => [|k] le.
    have [-> -> -> -> ->] := transcribe_cost_first n x0 cost.
    split=> //; rewrite -[(size m).+1]addn1.
    by rewrite (@pointee_new _ m _ 1 _ _ (Quad.dfdu (cost 0%N) + Quad.dfdux (cost 0%N) *m x0)).
  have [_ _ _ _ hr] := rc k.+1 le.
  have [| -> -> -> -> ->] := @transcribe_cost_later F d n x0 cost k.+1; first by [].
  by rewrite (pointee_holds _ hr).
- case: (leqP k n) => [le|lt]; last first.
    rewrite andFb /pointee.
    by have [-> -> -> ->] := transcribe_constraints_outside x0 constraints lt.
  rewrite andTb; case: constraints rk => [constr|] rk; last by [].
  rewrite /isSome.
  have [_ hC hD] := rk constr (erefl _) k le.
  have [-> -> -> ->] := @transcribe_constraints_some F d n x0 constr k le.
  rewrite !(pointee_holds _ hC) !(pointee_holds _ hD).
  rewrite -[(size m).+2]addn2 -addnA
          (@pointee_new _ m _ (2 + k) _ _ (constraint_bound constr x0 k)) //.
rewrite add2n.
change (nth None
          (map (fun k => Some (to_matrix_t (constraint_bound constr x0 k)))
               (iota 0 n.+1)) k
        = Some (to_matrix_t (constraint_bound constr x0 k))).
by rewrite (nth_map 0%N) ?size_iota // nth_iota.
Qed.

End Simulation.

Section SolveSimulation.
Context {F : fieldType} {d : StageDims} {api : HpipmMemApi}
        {solver : HpipmSolverApi F d api} {hpipm : Pointers.HpipmApi F api}.

(** [solve] with addresses computes what [solve] with the data for
    pointers computes: on a memory that holds the stage approximations,
    with an HPIPM that computes from what the pointers point to, the status,
    the trajectories, the object and [stderr] are the same. *)
Lemma solve_simulation (x0 : 'cV[F]_(state_dim d 0)) (verbose : bool)
    (lay : Layout) (s : SolveState) (m : memory F) :
  computes_as hpipm solver ->
  represents (N (ocpSize_ (this s))) lay (dynamics s) (cost s) (constraints s) m ->
  let o := Pointers.solve x0 verbose lay s m in
  solve x0 verbose s
  = (Pointers.Outcome.status o,
     MkSolveState (dynamics s) (cost s) (constraints s)
       (Pointers.Outcome.stateTrajectory o) (Pointers.Outcome.inputTrajectory o)
       (Pointers.Outcome.this o) (Pointers.Outcome.stderr o)).
Proof.
move=> [ca1 ca2] rep; rewrite /Pointers.solve /solve.
have := transcribe_same_data x0 rep.
case: (Pointers.transcribe _ _ _ _ _ _ _) => [[[q b0] r0] m1] /= sd.
have := ca1 q m1 (qp_ (this s)) _ sd.
case: (Pointers.d_ocp_qp_set_all _ _ _) => [qp m2] /= ->.
set t1 := set_qp_ _ (this s).
have := ca2 (qp_ t1) (qpSol_ t1) (arg_ t1) (workspace_ t1) m2.
case: (Pointers.d_ocp_qp_ipm_solve _ _ _ _ _) => [[sol ws] m3] /= <-.
by [].
Qed.

End SolveSimulation.

Example toy_computes_as (flag : int) : computes_as toy_hpipm (toy_solver flag).
Proof. by split. Qed.

(** The two models on a horizon of two stages. *)
Example toy_simulation :
  (@solve rat toy_dims toy_api (toy_solver 1) toy_x0 true toy_state).1
  = Pointers.Outcome.status
      (@Pointers.solve rat toy_dims toy_api (toy_solver 1) toy_hpipm
         toy_x0 true toy_layout toy_state toy_memory).
Proof.
by rewrite (@solve_simulation rat toy_dims toy_api (toy_solver 1) toy_hpipm
             toy_x0 true toy_layout toy_state toy_memory (toy_computes_as 1)
             toy_represents).
Qed.
